(** * memsafe-jsondb: dot-notation accessors over nested JSON trees

    A shallow embedding of [src/index.js] (the escaped-path tokenizer, the
    traversals [getNestedValueWithEscaping], [setNestedValueWithEscaping],
    [searchNestedValueWithEscaping], [hasNestedKeyWithEscaping], the
    transforms [flattenJsonWithEscaping] and [unflattenJson], and the closure
    [createJsonManager] with [searchJson]) together with the properties its
    specification states about them.

    Scope of the embedding.
    - A JavaScript value is one of the primitives [undefined], [null], a
      boolean, a number or a string, or an object.  A number is an integer,
      [-0], [NaN] or an infinity; fractions are absent, and so are
      functions and symbols.
    - An object is the list of its own enumerable string-keyed properties in
      the order [for (key in o)] enumerates them: array-index keys first, in
      ascending numeric order, then the other keys in creation order.  An
      array is an object of kind [KArray] whose elements are its array-index
      properties; its [length] is one more than its largest index.
    - The first part works on values as trees and on their own properties.
      JavaScript's [key in o] and [o[key]] also find what [o] inherits: on
      the objects of a tree they differ from [in_object] and [get_prop]
      when [key] is not an own property of [o] and is a name of
      [Object.prototype] ([object_prototype_keys]) or, for an array,
      [length] or a method of [Array.prototype].  [o[key] = v] differs from
      [assign] when [key] is [__proto__] and not an own property, where it
      calls a setter, and when [o] is an array and [key] is [length].  The
      properties that depend on a key being outside these cases say so in a
      hypothesis ([assignable], [no_proto_key]).
    - The module [Proto] embeds the write and the reads once more over
      objects that have a location and a prototype chain: for what they do
      at [__proto__] and at the inherited names, and for what a write
      leaves behind when an object is stored under several keys or below
      itself.
    - Sharing of one object between several owners, which matters for
      [dump], is the subject of the module [Heap]. *)

From Stdlib Require Import String Ascii List ZArith NArith Bool Lia Arith.
From Stdlib Require Import Permutation FinFun DecimalString DecimalN DecimalFacts.
Import ListNotations.
Open Scope string_scope.

Set Implicit Arguments.

(* ================================================================= *)
(** ** Values *)

Inductive kind : Type := KPlain | KArray.

(** A number: a finite number other than [-0], here an integer, or one of
    the numbers [JSON.stringify] does not write as they are. *)
Inductive number : Type :=
| Int (z : Z)
| NegZero                       (* [-0] *)
| NaN
| Infinity (negative : bool).
Coercion Int : Z >-> number.
Bind Scope Z_scope with number.

Unset Elimination Schemes.
Inductive value : Type :=
| VUndef
| VNull
| VBool (b : bool)
| VNum (n : number)
| VStr (s : string)
| VObj (k : kind) (props : list (string * value)).
Set Elimination Schemes.

Abbreviation props := (list (string * value)).

(** Induction over a value that reaches the values stored in an object. *)
Definition value_ind (P : value -> Prop)
  (Hundef : P VUndef) (Hnull : P VNull)
  (Hbool : forall b, P (VBool b)) (Hnum : forall n, P (VNum n))
  (Hstr : forall s, P (VStr s))
  (Hobj : forall k ps, Forall (fun kv => P (snd kv)) ps -> P (VObj k ps)) :
  forall v, P v :=
  fix F (v : value) : P v :=
    match v with
    | VUndef => Hundef
    | VNull => Hnull
    | VBool b => Hbool b
    | VNum n => Hnum n
    | VStr s => Hstr s
    | VObj k ps =>
        Hobj k ps
          ((fix G (l : props) : Forall (fun kv => P (snd kv)) l :=
              match l with
              | [] => Forall_nil _
              | kv :: l' => Forall_cons kv (F (snd kv)) (G l')
              end) ps)
    end.

Definition kind_eqb (a b : kind) : bool :=
  match a, b with
  | KPlain, KPlain | KArray, KArray => true
  | _, _ => false
  end.

(** [typeof v === 'object' && v !== null] *)
Definition is_object (v : value) : bool :=
  match v with VObj _ _ => true | _ => false end.

(** [typeof v === 'object'] : true of [null] as well. *)
Definition typeof_object (v : value) : bool :=
  match v with VObj _ _ | VNull => true | _ => false end.

Definition is_string (v : value) : bool :=
  match v with VStr _ => true | _ => false end.

(** ToBoolean of a number: [0], [-0] and [NaN] are falsy. *)
Definition number_truthy (n : number) : bool :=
  match n with
  | Int z => negb (z =? 0)%Z
  | NegZero | NaN => false
  | Infinity _ => true
  end.

(** The same number; [NaN] is the same as itself and [-0] is not [0]. *)
Definition number_eqb (a b : number) : bool :=
  match a, b with
  | Int x, Int y => (x =? y)%Z
  | NegZero, NegZero | NaN, NaN => true
  | Infinity x, Infinity y => Bool.eqb x y
  | _, _ => false
  end.

(** JavaScript's ToBoolean. *)
Definition truthy (v : value) : bool :=
  match v with
  | VUndef | VNull => false
  | VBool b => b
  | VNum n => number_truthy n
  | VStr s => negb (s =? "")
  | VObj _ _ => true
  end.

Definition empty_object : value := VObj KPlain [].

(* ================================================================= *)
(** ** Errors *)

Inductive exn : Type :=
| Error (msg : string)          (* [throw new Error(msg)] *)
| TypeError (msg : string)      (* raised by the runtime, e.g. by [in] *)
| SyntaxError (msg : string)    (* raised by [JSON.parse] *)
| RangeError (msg : string).    (* raised when the call stack is exhausted *)

Inductive outcome (A : Type) : Type :=
| Ret (a : A)
| Throw (e : exn).
Arguments Ret {A} a.
Arguments Throw {A} e.

Definition bind {A B} (m : outcome A) (f : A -> outcome B) : outcome B :=
  match m with
  | Ret a => f a
  | Throw e => Throw e
  end.

Notation "x <- m ;; k" := (bind m (fun x => k))
  (at level 61, m at next level, right associativity).

Definition raises {A} (m : outcome A) : bool :=
  match m with Throw _ => true | Ret _ => false end.

(* ================================================================= *)
(** ** Strings: the tokenizer and the key escaper *)

Definition dot : ascii := ascii_of_nat 46.
Definition backslash : ascii := ascii_of_nat 92.

(** Puts [c] in front of the first segment of a split. *)
Definition cons_head (c : ascii) (segs : list string) : list string :=
  match segs with
  | [] => [String c ""]
  | h :: t => String c h :: t
  end.

(** [s.split(/(?<!\\)\./)] : a dot separates unless the character just
    before it in [s] is a backslash.  [prev_bs] tells whether the character
    before the current position is a backslash. *)
Fixpoint split_unescaped_from (prev_bs : bool) (s : string) : list string :=
  match s with
  | EmptyString => [""]
  | String c rest =>
      let r := split_unescaped_from (Ascii.eqb c backslash) rest in
      if Ascii.eqb c dot && negb prev_bs then "" :: r else cons_head c r
  end.

Definition split_unescaped (s : string) : list string :=
  split_unescaped_from false s.

(** [s.split(".")] *)
Fixpoint split_dot (s : string) : list string :=
  match s with
  | EmptyString => [""]
  | String c rest =>
      let r := split_dot rest in
      if Ascii.eqb c dot then "" :: r else cons_head c r
  end.

(** [s.replace(/\\\./g, '.')] : every backslash-dot pair, found from left to
    right without overlap, becomes a dot.  It is the body of [escapeDots] in
    [searchJson] and the per-segment decoding of the tokenizer. *)
Fixpoint unescape_dots (s : string) : string :=
  match s with
  | EmptyString => ""
  | String c rest =>
      match rest with
      | String d rest' =>
          if Ascii.eqb c backslash && Ascii.eqb d dot
          then String dot (unescape_dots rest')
          else String c (unescape_dots rest)
      | EmptyString => String c ""
      end
  end.

(** [key.replace(/\./g, '\\.')] : [escapeKey] of [flattenJsonWithEscaping]
    and the same expression in [deepSearch]. *)
Fixpoint escapeKey (key : string) : string :=
  match key with
  | EmptyString => ""
  | String c rest =>
      if Ascii.eqb c dot then String backslash (String dot (escapeKey rest))
      else String c (escapeKey rest)
  end.

(** [path.split(/(?<!\\)\./).map(key => key.replace(/\\\./g, '.'))] *)
Definition getKeys (path : string) : list string :=
  map unescape_dots (split_unescaped path).

(** [hay.includes(needle)] *)
Fixpoint includes_from (needle hay : string) : bool :=
  String.prefix needle hay ||
  match hay with
  | EmptyString => false
  | String _ rest => includes_from needle rest
  end.

Definition includes (hay needle : string) : bool := includes_from needle hay.

(** [prefix ? `${prefix}.${escapedKey}` : escapedKey] *)
Definition join_key (prefix escapedKey : string) : string :=
  if prefix =? "" then escapedKey
  else prefix ++ String dot escapedKey.

(* ================================================================= *)
(** ** Objects as ordered property lists *)

(** The decimal rendering of an array index. *)
Definition index_string (i : N) : string :=
  NilEmpty.string_of_uint (N.to_uint i).

(** A key is an array index when it is the canonical decimal rendering of
    an integer below [2^32 - 1]. *)
Definition array_index (key : string) : option N :=
  match NilEmpty.uint_of_string key with
  | Some u =>
      let i := N.of_uint u in
      if (index_string i =? key) && (i <? 4294967295)%N then Some i else None
  | None => None
  end.

Section Props.
(** Property lists over any type of stored values: the tree values above
    and the heap values of the module [Heap]. *)
Variable A : Type.

Fixpoint lookup (key : string) (ps : list (string * A)) : option A :=
  match ps with
  | [] => None
  | (k, v) :: rest => if k =? key then Some v else lookup key rest
  end.

Definition keys_of (ps : list (string * A)) : list string := map fst ps.

(** [key in o] for an object [o] with own properties [ps]. *)
Definition has_key (key : string) (ps : list (string * A)) : bool :=
  match lookup key ps with Some _ => true | None => false end.

(** Assignment to an existing property keeps its place. *)
Fixpoint replace_prop (key : string) (v : A) (ps : list (string * A))
  : list (string * A) :=
  match ps with
  | [] => []
  | (k, w) :: rest =>
      if k =? key then (k, v) :: rest else (k, w) :: replace_prop key v rest
  end.

(** A new array-index property goes after the smaller indices and before
    everything else. *)
Fixpoint insert_index (i : N) (key : string) (v : A)
  (ps : list (string * A)) : list (string * A) :=
  match ps with
  | [] => [(key, v)]
  | (k, w) :: rest =>
      match array_index k with
      | Some j =>
          if (j <? i)%N then (k, w) :: insert_index i key v rest
          else (key, v) :: ps
      | None => (key, v) :: ps
      end
  end.

Definition insert_new (key : string) (v : A) (ps : list (string * A))
  : list (string * A) :=
  match array_index key with
  | Some i => insert_index i key v ps
  | None => ps ++ [(key, v)]
  end.

(** [o[key] = v] on the property list of [o]. *)
Definition set_prop (key : string) (v : A) (ps : list (string * A))
  : list (string * A) :=
  if has_key key ps then replace_prop key v ps else insert_new key v ps.
End Props.

(** [o[key]] : [undefined] when the property is absent. *)
Definition get_prop (o : value) (key : string) : value :=
  match o with
  | VObj _ ps => match lookup key ps with Some v => v | None => VUndef end
  | _ => VUndef
  end.

(** [key in o] *)
Definition in_object (key : string) (o : value) : bool :=
  match o with
  | VObj _ ps => has_key key ps
  | _ => false
  end.

(** [o[key] = v] as a new value of [o]. *)
Definition assign (o : value) (key : string) (v : value) : value :=
  match o with
  | VObj k ps => VObj k (set_prop key v ps)
  | _ => o
  end.

(** The array literal [[e0, e1, ...]]. *)
Definition array_of (elems : list value) : value :=
  VObj KArray
    (combine (map (fun i => index_string (N.of_nat i)) (seq 0 (length elems)))
             elems).

(** A plain object literal. *)
Definition object_of (ps : props) : value := VObj KPlain ps.

(** The methods every plain object inherits from [Object.prototype]. *)
Definition builtin_methods : list string :=
  ["constructor"; "__defineGetter__"; "__defineSetter__"; "hasOwnProperty";
   "__lookupGetter__"; "__lookupSetter__"; "isPrototypeOf";
   "propertyIsEnumerable"; "toString"; "valueOf"; "toLocaleString"].

(** The names of the properties of [Object.prototype] : its methods and
    the accessor [__proto__]. *)
Definition object_prototype_keys : list string :=
  (builtin_methods ++ ["__proto__"])%list.

(** [key] names a property a plain object has without owning it: for such
    a key JavaScript's [key in o] holds and [o[key]] is a function or the
    prototype, where [in_object] and [get_prop] see nothing. *)
Definition inherited (key : string) : bool :=
  existsb (String.eqb key) object_prototype_keys.



(* ================================================================= *)
(** ** Traversals *)

Definition msg_object : string := "First argument must be a non-null object.".
Definition msg_path : string := "Path must be a string.".
Definition msg_input : string := "Input must be a non-null object.".

(** The loop shared by [getNestedValueWithEscaping] and
    [searchNestedValueWithEscaping]:
    [for (const key of keys) { if (current && typeof current === 'object'
    && key in current) current = current[key]; else return undefined; }
    return current;] *)
Fixpoint descend (current : value) (keys : list string) : value :=
  match keys with
  | [] => current
  | key :: rest =>
      if truthy current && typeof_object current && in_object key current
      then descend (get_prop current key) rest
      else VUndef
  end.

(** [getNestedValueWithEscaping(obj, path)], the declaration of lines
    337-358, which replaces the earlier one of the same name. *)
Definition getNestedValueWithEscaping (obj path : value) : outcome value :=
  if negb (truthy obj) || negb (typeof_object obj) then Throw (Error msg_object)
  else match path with
       | VStr p => Ret (descend obj (getKeys p))
       | _ => Throw (Error msg_path)
       end.

(** The loop of [searchNestedValueWithEscaping]. *)
Fixpoint search_loop (current : value) (keys : list string) : value :=
  match keys with
  | [] => current
  | key :: rest =>
      if truthy current && typeof_object current && in_object key current
      then search_loop (get_prop current key) rest
      else VUndef
  end.

(** [searchNestedValueWithEscaping(obj, path)] *)
Definition searchNestedValueWithEscaping (obj path : value) : outcome value :=
  if negb (truthy obj) || negb (typeof_object obj) then Throw (Error msg_object)
  else match path with
       | VStr p => Ret (search_loop obj (getKeys p))
       | _ => Throw (Error msg_path)
       end.

(** The loop of [hasNestedKeyWithEscaping]. *)
Fixpoint descend_has (current : value) (keys : list string) : bool :=
  match keys with
  | [] => true
  | key :: rest =>
      if truthy current && typeof_object current && in_object key current
      then descend_has (get_prop current key) rest
      else false
  end.

Definition hasNestedKeyWithEscaping (obj path : value) : outcome bool :=
  if negb (truthy obj) || negb (typeof_object obj) then Throw (Error msg_object)
  else match path with
       | VStr p => Ret (descend_has obj (getKeys p))
       | _ => Throw (Error msg_path)
       end.

(** The [keys.forEach] of [setNestedValueWithEscaping] and of
    [unflattenJson], as the new value of the object [current] refers to:
    the last key is assigned [v]; an intermediate key whose value is falsy
    or not an object is first assigned [{}], and the walk goes on inside
    the value of that key. *)
Fixpoint set_path (current : value) (keys : list string) (v : value) : value :=
  match keys with
  | [] => current
  | key :: rest =>
      match rest with
      | [] => assign current key v
      | _ :: _ =>
          let child := get_prop current key in
          let child' :=
            if negb (truthy child) || negb (typeof_object child)
            then empty_object else child in
          assign current key (set_path child' rest v)
      end
  end.

(** [setNestedValueWithEscaping(obj, path, value)] : the object after the
    call and how the call ended. *)
Definition setNestedValueWithEscaping (obj path v : value)
  : value * outcome unit :=
  if negb (typeof_object obj) || negb (is_object obj)
  then (obj, Throw (Error msg_object))
  else match path with
       | VStr p => (set_path obj (getKeys p) v, Ret tt)
       | _ => (obj, Throw (Error msg_path))
       end.

(* ================================================================= *)
(** ** Flatten and unflatten *)

(** [recurse(current, keyPrefix)] of [flattenJsonWithEscaping], threading
    [result]. *)
Fixpoint recurse (current : value) (keyPrefix : string) (result : props)
  : props :=
  match current with
  | VObj _ ps =>
      fold_left
        (fun result kv =>
           let newKey := join_key keyPrefix (escapeKey (fst kv)) in
           if is_object (snd kv)
           then recurse (snd kv) newKey result
           else set_prop newKey (snd kv) result)
        ps result
  | _ => result
  end.

Definition flattenJsonWithEscaping (obj : value) : outcome value :=
  if negb (typeof_object obj) || negb (is_object obj)
  then Throw (Error msg_input)
  else Ret (VObj KPlain (recurse obj "" [])).

(** The body of the [for (const fullKey in obj)] loop of [unflattenJson]. *)
Definition unflatten_step (result : value) (entry : string * value) : value :=
  set_path result (getKeys (fst entry)) (snd entry).

Definition unflattenJson (obj : value) : outcome value :=
  match obj with
  | VObj _ ps => Ret (fold_left unflatten_step ps empty_object)
  | _ => Throw (Error msg_input)
  end.

(* ================================================================= *)
(** ** [JSON.parse(JSON.stringify(v))] *)

(** The length of an array: one more than its largest index. *)
Fixpoint array_length (ps : props) : N :=
  match ps with
  | [] => 0%N
  | (k, _) :: rest =>
      match array_index k with
      | Some i => N.max (N.succ i) (array_length rest)
      | None => array_length rest
      end
  end.

(** The members [JSON.stringify] writes for a plain object: a property
    whose value serializes to nothing is left out. *)
Fixpoint json_members (ps : props) : props :=
  match ps with
  | [] => []
  | (k, VUndef) :: rest => json_members rest
  | (k, v) :: rest => (k, v) :: json_members rest
  end.

(** The elements [JSON.stringify] writes for an array: every index below
    the length, [null] for a hole or a value that serializes to nothing. *)
Definition json_elements (ps : props) : list value :=
  map (fun i => match lookup (index_string (N.of_nat i)) ps with
                | Some VUndef | None => VNull
                | Some v => v
                end)
      (seq 0 (N.to_nat (array_length ps))).

(** What [JSON.parse] reads back from what [JSON.stringify] writes for a
    number: [0] for [-0], which is written [0], and [null] for [NaN] and
    the infinities, which are written [null]. *)
Definition json_number (n : number) : value :=
  match n with
  | Int z => VNum (Int z)
  | NegZero => VNum (Int 0)
  | NaN | Infinity _ => VNull
  end.

(** What [JSON.parse] rebuilds from the text [JSON.stringify] writes for
    [v]; [VUndef] when [JSON.stringify] gives [undefined]. *)
Fixpoint json_copy (v : value) : value :=
  match v with
  | VObj k ps =>
      let copies := map (fun kv => (fst kv, json_copy (snd kv))) ps in
      match k with
      | KPlain => VObj KPlain (json_members copies)
      | KArray => array_of (json_elements copies)
      end
  | VNum n => json_number n
  | _ => v
  end.

(** [JSON.parse(JSON.stringify(v))] : [JSON.parse(undefined)] is a syntax
    error. *)
Definition json_roundtrip (v : value) : outcome value :=
  match json_copy v with
  | VUndef => Throw (SyntaxError "undefined is not valid JSON")
  | c => Ret c
  end.

(* ================================================================= *)
(** ** [createJsonManager] *)

(** A regular expression object as [regex.test] uses it.  [re_exec i s]
    is what the expression finds in [s] when the search starts at index
    [i]: the index just after the match, or nothing.  [re_stateful] tells
    whether the expression has the [g] or the [y] flag, and [re_lastIndex]
    is its [lastIndex] property when [has] is called. *)
Record regexp : Type := {
  re_stateful : bool;
  re_lastIndex : nat;
  re_exec : nat -> string -> option nat
}.

(** [regex.test(s)] when [regex.lastIndex] is [lastIndex] : the answer and
    the [lastIndex] the call leaves.  With the [g] or the [y] flag the
    search starts at [lastIndex], a match moves [lastIndex] to its end and
    a failure resets it to 0; without them the search starts at 0 and
    [lastIndex] is left alone. *)
Definition regexp_test (r : regexp) (lastIndex : nat) (s : string)
  : bool * nat :=
  if re_stateful r then
    match re_exec r lastIndex s with
    | Some e => (true, e)
    | None => (false, 0)
    end
  else
    match re_exec r 0 s with
    | Some _ => (true, lastIndex)
    | None => (false, lastIndex)
    end.

(** An expression without flags, given by the predicate its [test]
    computes: only whether there is a match counts. *)
Definition flagless (test : string -> bool) : regexp :=
  {| re_stateful := false;
     re_lastIndex := 0;
     re_exec := fun _ s => if test s then Some 0 else None |}.

(** The criteria object [{ path, like, keywords, regex }] of [searchJson]. *)
Record criteria : Type := {
  c_path : option string;
  c_like : option string;
  c_keywords : option (list string);
  c_regex : option regexp
}.

(** An element [{ path, value }] of the result of [searchJson]. *)
Record smatch : Type := { m_path : string; m_value : value }.

(** The loop of [searchPath] : [if (current && key in current)], where
    [in] raises a [TypeError] on a primitive. *)
Fixpoint searchPath_loop (current : value) (keys : list string)
  : outcome value :=
  match keys with
  | [] => Ret current
  | key :: rest =>
      if truthy current then
        if is_object current then
          if in_object key current
          then searchPath_loop (get_prop current key) rest
          else Ret VNull
        else Throw (TypeError "Cannot use 'in' operator")
      else Ret VNull
  end.

(** [searchPath(obj, currentPath, targetPath)] : [escapeDots] turns every
    backslash-dot into a dot, then the path is split at every dot. *)
Definition searchPath (obj : value) (currentPath targetPath : string)
  : outcome value :=
  let normalizedPath := unescape_dots targetPath in
  searchPath_loop obj (split_dot normalizedPath).

(** [like && fullPath.includes(like)] *)
Definition like_matches (c : criteria) (fullPath : string) : bool :=
  match c_like c with
  | Some l => negb (l =? "") && includes fullPath l
  | None => false
  end.

(** [keywords && keywords.some(kw => fullPath.includes(kw) ||
    (typeof obj[key] === "string" && obj[key].includes(kw)))] *)
Definition keywords_match (c : criteria) (fullPath : string) (v : value)
  : bool :=
  match c_keywords c with
  | Some kws =>
      existsb (fun kw => includes fullPath kw
                         || match v with
                            | VStr s => includes s kw
                            | _ => false
                            end) kws
  | None => false
  end.

(** [regex && regex.test(fullPath)] when the [lastIndex] of the expression
    is [lastIndex] : whether the condition holds, and the [lastIndex]
    after it. *)
Definition regex_matches (c : criteria) (fullPath : string) (lastIndex : nat)
  : bool * nat :=
  match c_regex c with
  | Some r => regexp_test r lastIndex fullPath
  | None => (false, lastIndex)
  end.

(** [results.push(m)] when [b] holds. *)
Definition push_if (b : bool) (m : smatch) (results : list smatch)
  : list smatch :=
  if b then results ++ [m] else results.

(** [deepSearch(obj, currentPath)], threading [results] and the
    [lastIndex] of the regular expression, the two things its calls
    change. *)
Fixpoint deepSearch (c : criteria) (obj : value) (currentPath : string)
  (st : list smatch * nat) : list smatch * nat :=
  match obj with
  | VObj _ ps =>
      fold_left
        (fun st kv =>
           let fullPath := join_key currentPath (escapeKey (fst kv)) in
           let m := {| m_path := fullPath; m_value := snd kv |} in
           let r1 := push_if (like_matches c fullPath) m (fst st) in
           let r2 := push_if (keywords_match c fullPath (snd kv)) m r1 in
           let t := regex_matches c fullPath (snd st) in
           let st3 := (push_if (fst t) m r2, snd t) in
           if is_object (snd kv)
           then deepSearch c (snd kv) fullPath st3
           else st3)
        ps st
  | _ => st
  end.

Definition is_null (v : value) : bool :=
  match v with VNull => true | _ => false end.

(** [like || keywords || regex] as a condition. *)
Definition wants_deep_search (c : criteria) : bool :=
  match c_like c with Some l => negb (l =? "") | None => false end
  || match c_keywords c with Some _ => true | None => false end
  || match c_regex c with Some _ => true | None => false end.

(** The block "Perform Path Search" of [searchJson] :
    [if (path) { const value = searchPath(json, "", path);
    if (value !== null) results.push({ path, value }); }] *)
Definition path_matches (json : value) (c : criteria)
  : outcome (list smatch) :=
  match c_path c with
  | Some p =>
      if negb (p =? "") then
        v <- searchPath json "" p ;;
        Ret (if is_null v then [] else [{| m_path := p; m_value := v |}])
      else Ret []
  | None => Ret []
  end.

(** The [lastIndex] of the regular expression of the criteria, if any. *)
Definition lastIndex_of (c : criteria) : nat :=
  match c_regex c with Some r => re_lastIndex r | None => 0 end.

(** [searchJson(json, { path, like, keywords, regex })] *)
Definition searchJson (json : value) (c : criteria)
  : outcome (list smatch) :=
  results <- path_matches json c ;;
  Ret (if wants_deep_search c
       then fst (deepSearch c json "" (results, lastIndex_of c))
       else results).

(** The [lastIndex] a call of [searchJson] that returns leaves in the
    regular expression of the criteria. *)
Definition lastIndex_after (json : value) (c : criteria) : nat :=
  if wants_deep_search c
  then snd (deepSearch c json "" ([], lastIndex_of c))
  else lastIndex_of c.

(** The closure of [createJsonManager] : its one variable. *)
Record store : Type := { jsonObject : value }.

(** [let jsonObject = {}] *)
Definition createJsonManager : store := {| jsonObject := empty_object |}.

Definition read (s : store) (path : value) : outcome value :=
  getNestedValueWithEscaping (jsonObject s) path.

Definition write (s : store) (path v : value) : store * outcome unit :=
  let (o, r) := setNestedValueWithEscaping (jsonObject s) path v in
  ({| jsonObject := o |}, r).

Definition hasKey (s : store) (path : value) : outcome bool :=
  hasNestedKeyWithEscaping (jsonObject s) path.

Definition has (s : store) (c : criteria) : outcome (list smatch) :=
  searchJson (jsonObject s) c.

Definition search (s : store) (path : value) : outcome value :=
  searchNestedValueWithEscaping (jsonObject s) path.

(** [JSON.parse(JSON.stringify(unflattenJson(jsonObject)))] *)
Definition dump (s : store) : outcome value :=
  nested <- unflattenJson (jsonObject s) ;;
  json_roundtrip nested.

(** [jsonObject = JSON.parse(JSON.stringify(flattenJsonWithEscaping(obj || {})))] *)
Definition init (s : store) (obj : value) : store * outcome unit :=
  match (flat <- flattenJsonWithEscaping
                   (if truthy obj then obj else empty_object) ;;
         json_roundtrip flat) with
  | Ret o => ({| jsonObject := o |}, Ret tt)
  | Throw e => (s, Throw e)
  end.

(** [write] when the call is known to return. *)
Definition write_ok (s : store) (path : string) (v : value) : store :=
  fst (write s (VStr path) v).

(* ================================================================= *)
(** ** Deep equality and the trees of the specification *)

(** Deep equality of two values: the same primitive, or two objects of the
    same kind with the same keys and deep-equal values under each key.  The
    order of the keys does not matter. *)
Fixpoint deep_equal (a b : value) : bool :=
  match a, b with
  | VUndef, VUndef => true
  | VNull, VNull => true
  | VBool x, VBool y => Bool.eqb x y
  | VNum x, VNum y => number_eqb x y
  | VStr x, VStr y => (x =? y)
  | VObj ka pa, VObj kb pb =>
      kind_eqb ka kb && (length pa =? length pb)%nat
      && forallb (fun kv => match lookup (fst kv) pb with
                            | Some w => deep_equal (snd kv) w
                            | None => false
                            end) pa
  | _, _ => false
  end.

Fixpoint distinct (l : list string) : bool :=
  match l with
  | [] => true
  | k :: rest => negb (existsb (String.eqb k) rest) && distinct rest
  end.

(** A tree of primitives and mappings: no array, and no key twice in one
    mapping. *)
Fixpoint plain_tree (v : value) : bool :=
  match v with
  | VObj k ps =>
      kind_eqb k KPlain && distinct (keys_of ps)
      && forallb (fun kv => plain_tree (snd kv)) ps
  | _ => true
  end.

Definition is_empty_object (v : value) : bool :=
  match v with VObj _ [] => true | _ => false end.

(** No mapping stored inside [v] is empty. *)
Fixpoint no_empty_mapping (v : value) : bool :=
  match v with
  | VObj _ ps =>
      forallb (fun kv => negb (is_empty_object (snd kv))
                         && no_empty_mapping (snd kv)) ps
  | _ => true
  end.

(** Whether the last character of [s] is a backslash; [prev_bs] answers
    for the empty string. *)
Fixpoint ends_with_backslash_from (prev_bs : bool) (s : string) : bool :=
  match s with
  | EmptyString => prev_bs
  | String c rest => ends_with_backslash_from (Ascii.eqb c backslash) rest
  end.

Definition ends_with_backslash (s : string) : bool :=
  ends_with_backslash_from false s.

(** No key that holds a mapping ends in a backslash. *)
Fixpoint separable (v : value) : bool :=
  match v with
  | VObj _ ps =>
      forallb (fun kv => negb (is_object (snd kv)
                               && ends_with_backslash (fst kv))
                         && separable (snd kv)) ps
  | _ => true
  end.

(** No mapping is stored under the empty key of [v] itself. *)
Definition top_named (v : value) : bool :=
  match v with
  | VObj _ ps =>
      forallb (fun kv => negb (is_object (snd kv) && (fst kv =? ""))) ps
  | _ => true
  end.

(** No key of [v], at any depth, is [__proto__]. *)
Fixpoint no_proto_key (v : value) : bool :=
  match v with
  | VObj _ ps =>
      forallb (fun kv => negb (fst kv =? "__proto__") && no_proto_key (snd kv))
              ps
  | _ => true
  end.

(** The trees on which flatten followed by unflatten is the identity.
    The last condition keeps the keys Unflatten assigns to away from the
    setter of [__proto__], where [assign] is not what JavaScript does. *)
Definition round_trippable (t : value) : bool :=
  is_object t && plain_tree t && no_empty_mapping t && separable t
  && top_named t && no_proto_key t.

(** [Unflatten(Flatten(t))] *)
Definition flatten_unflatten (t : value) : outcome value :=
  flat <- flattenJsonWithEscaping t ;; unflattenJson flat.

(** The leaves of a tree with the list of keys that leads to each, in
    depth-first order. *)
Fixpoint leaves (v : value) : list (list string * value) :=
  match v with
  | VObj _ ps =>
      flat_map (fun kv =>
                  if is_object (snd kv)
                  then map (fun e => (fst kv :: fst e, snd e)) (leaves (snd kv))
                  else [([fst kv], snd kv)]) ps
  | _ => []
  end.

(** The entries [recurse] assigns to [result], in the order it assigns
    them. *)
Fixpoint emitted (v : value) (keyPrefix : string) : props :=
  match v with
  | VObj _ ps =>
      flat_map (fun kv =>
                  let newKey := join_key keyPrefix (escapeKey (fst kv)) in
                  if is_object (snd kv)
                  then emitted (snd kv) newKey
                  else [(newKey, snd kv)]) ps
  | _ => []
  end.

(** One assignment of [recurse] to [result]. *)
Definition assign_entry (result : props) (kv : string * value) : props :=
  set_prop (fst kv) (snd kv) result.

(** A recorded entry with its key tokenized. *)
Definition decode_entry (kv : string * value) : list string * value :=
  (getKeys (fst kv), snd kv).

(** A leaf seen from [q] keys higher up. *)
Definition under (q : list string) (e : list string * value)
  : list string * value :=
  ((q ++ fst e)%list, snd e).

(** One write of [build]. *)
Definition write_entry (r : value) (e : list string * value) : value :=
  set_path r (fst e) (snd e).

(** The tree a list of (keys, value) writes builds from [{}]. *)
Definition build (l : list (list string * value)) : value :=
  fold_left write_entry l empty_object.

(** The writes that go through key [k], with that key taken off. *)
Definition tails_at (k : string) (l : list (list string * value))
  : list (list string * value) :=
  flat_map (fun e => match fst e with
                     | k' :: rest => if k' =? k then [(rest, snd e)] else []
                     | [] => []
                     end) l.

(** What one write leaves under a key it goes through; [c] is the value
    under that key before the write, if any. *)
Definition step_under (c : option value) (e : list string * value)
  : option value :=
  match fst e with
  | [] => Some (snd e)
  | _ :: _ =>
      let child := match c with Some w => w | None => VUndef end in
      Some (set_path (if negb (truthy child) || negb (typeof_object child)
                      then empty_object else child) (fst e) (snd e))
  end.

(* ================================================================= *)
(** ** The wording of the specification, for comparison *)

(** Flatten as the specification words it: an array is a leaf, recorded
    whole at its accumulated path. *)
Fixpoint flatten_opaque_from (current : value) (keyPrefix : string)
  (result : props) : props :=
  match current with
  | VObj _ ps =>
      fold_left
        (fun result kv =>
           let newKey := join_key keyPrefix (escapeKey (fst kv)) in
           match snd kv with
           | VObj KPlain _ => flatten_opaque_from (snd kv) newKey result
           | _ => set_prop newKey (snd kv) result
           end)
        ps result
  | _ => result
  end.

Definition flatten_opaque (obj : value) : outcome value :=
  if is_object obj then Ret (VObj KPlain (flatten_opaque_from obj "" []))
  else Throw (Error msg_input).

(** The same tree with every array relabelled as the mapping from its
    indices to its elements. *)
Fixpoint as_mappings (v : value) : value :=
  match v with
  | VObj _ ps => VObj KPlain (map (fun kv => (fst kv, as_mappings (snd kv))) ps)
  | _ => v
  end.

(** A match with the arrays of its value relabelled in the same way. *)
Definition relabel_match (m : smatch) : smatch :=
  {| m_path := m_path m; m_value := as_mappings (m_value m) |}.

(** The keys of a tree at every depth, each with its generated path and
    the value it holds, a key before the keys below it. *)
Fixpoint nodes (obj : value) (currentPath : string) : list smatch :=
  match obj with
  | VObj _ ps =>
      flat_map
        (fun kv =>
           let fullPath := join_key currentPath (escapeKey (fst kv)) in
           {| m_path := fullPath; m_value := snd kv |}
           :: (if is_object (snd kv) then nodes (snd kv) fullPath else []))
        ps
  | _ => []
  end.

(** The criteria as the specification words them: [like] is a substring
    that must appear in the path, whatever the substring. *)
Definition spec_like (c : criteria) (n : smatch) : bool :=
  match c_like c with
  | Some l => includes (m_path n) l
  | None => false
  end.

Definition spec_keywords (c : criteria) (n : smatch) : bool :=
  match c_keywords c with
  | Some kws =>
      existsb (fun kw => includes (m_path n) kw
                         || match m_value n with
                            | VStr s => includes s kw
                            | _ => false
                            end) kws
  | None => false
  end.

(** [regex] is a pattern tested against the path: whether the pattern
    matches it. *)
Definition spec_regex (c : criteria) (n : smatch) : bool :=
  match c_regex c with
  | Some r => match re_exec r 0 (m_path n) with Some _ => true | None => false end
  | None => false
  end.

(** One match for each criterion a node satisfies. *)
Definition node_matches (c : criteria) (n : smatch) : list smatch :=
  ((if spec_like c n then [n] else [])
   ++ (if spec_keywords c n then [n] else [])
   ++ (if spec_regex c n then [n] else []))%list.

Definition is_some {A} (o : option A) : bool :=
  match o with Some _ => true | None => false end.

(** The result the specification gives for the criteria [like],
    [keywords] and [regex]: none unless one of them is present, else the
    matches of every node in traversal order. *)
Definition spec_deep_matches (json : value) (c : criteria) : list smatch :=
  if is_some (c_like c) || is_some (c_keywords c) || is_some (c_regex c)
  then flat_map (node_matches c) (nodes json "")
  else [].

(** The criteria object [{ path: p }]. *)
Definition path_only (p : string) : criteria :=
  {| c_path := Some p; c_like := None; c_keywords := None; c_regex := None |}.

(** The keys [searchPath] walks for a path. *)
Definition searchPath_keys (p : string) : list string :=
  split_dot (unescape_dots p).

(** Whether the walk of [searchPath] along [keys] arrives at a mapping. *)
Definition resolves_to_mapping (json : value) (keys : list string) : bool :=
  match searchPath_loop json keys with
  | Ret v => is_object v
  | Throw _ => false
  end.

(** Whether that walk arrives at a primitive that is truthy. *)
Definition resolves_to_truthy_primitive (json : value) (keys : list string)
  : bool :=
  match searchPath_loop json keys with
  | Ret v => truthy v && negb (is_object v)
  | Throw _ => false
  end.

(* ================================================================= *)
(** ** Values of the repository's examples and tests *)

(** The path ["escaped\.key.level.nested"] of the tests. *)
Definition escaped_path : string :=
  "escaped" ++ String backslash ".key.level.nested".

(** The path ["escaped\.key.level"] of the search tests. *)
Definition escaped_level : string :=
  "escaped" ++ String backslash ".key.level".

(** [nestedData3] of the flatten demonstration. *)
Definition nestedData3 : value :=
  object_of
    [("test", object_of [("tester.makeup",
                          object_of [("testing", VStr "10");
                                     ("makeup", VNum 10)]);
                         ("madeup", VNum 20)]);
     ("fakeup", VNum 30)].

(** The store the [beforeEach] of the advanced search tests sets up. *)
Definition search_fixture : store :=
  write_ok
    (write_ok
       (write_ok createJsonManager "nest.secondnest.third.value" (VNum 42))
       "example.like.path" (VStr "test"))
    escaped_level (VStr "value").

(** The text of [hay] that follows the first occurrence of [needle]. *)
Fixpoint after_first (needle hay : string) : option string :=
  if String.prefix needle hay
  then Some (substring (String.length needle)
               (String.length hay - String.length needle) hay)
  else match hay with
       | EmptyString => None
       | String _ rest => after_first needle rest
       end.

(** The [test] of the regular expression [/example\..*\.path/]. *)
Definition regex_example_path (s : string) : bool :=
  match after_first "example." s with
  | Some rest => includes rest ".path"
  | None => false
  end.

(** The store the [beforeEach] of the [read], [search] and [hasKey] tests
    sets up. *)
Definition read_fixture : store :=
  write_ok
    (write_ok createJsonManager "nest.secondnest.third.nest" (VNum 10))
    escaped_path (VStr "test").

(** The criteria object [{ like: l }]. *)
Definition like_only (l : string) : criteria :=
  {| c_path := None; c_like := Some l; c_keywords := None; c_regex := None |}.

(** The criteria object [{ regex: r }]. *)
Definition regex_only (r : regexp) : criteria :=
  {| c_path := None; c_like := None; c_keywords := None; c_regex := Some r |}.

(** The regular expression [/a/g], with [lastIndex] 0: the first [a] at
    or after the index the search starts at. *)
Definition regex_a_global : regexp :=
  {| re_stateful := true;
     re_lastIndex := 0;
     re_exec := fun i s => match String.index i "a" s with
                           | Some m => Some (S m)
                           | None => None
                           end |}.

(** The regular expression of the criteria, if any, has neither the [g]
    nor the [y] flag. *)
Definition flagless_regex (c : criteria) : bool :=
  match c_regex c with
  | Some r => negb (re_stateful r)
  | None => true
  end.

(* ================================================================= *)
(** ** Objects with identity *)

(** [dump] hands an object to the caller, who may then change it.  Whether
    such a change can reach the object the closure holds depends on which
    objects are shared, so this module embeds [read], [write] and [dump]
    once more over a heap of objects addressed by location.  On the
    objects that make up a tree the two embeddings of [read] agree
    ([heap_read_agrees] below). *)
Module Heap.

Definition loc : Type := nat.

Inductive hvalue : Type :=
| HUndef
| HNull
| HBool (b : bool)
| HNum (n : number)
| HStr (s : string)
| HRef (l : loc).

Record hobject : Type := { h_kind : kind; h_props : list (string * hvalue) }.

(** Objects are never freed: the object at location [l] is the [l]-th
    allocated one. *)
Definition heap : Type := list hobject.

Definition empty_hobject : hobject := {| h_kind := KPlain; h_props := [] |}.

Definition object_at (h : heap) (l : loc) : hobject := nth l h empty_hobject.

Definition alloc (h : heap) (o : hobject) : heap * loc :=
  ((h ++ [o])%list, length h).

Fixpoint update (h : heap) (l : loc) (o : hobject) : heap :=
  match h, l with
  | [], _ => []
  | _ :: h', O => o :: h'
  | x :: h', S l' => x :: update h' l' o
  end.

Definition truthy (v : hvalue) : bool :=
  match v with
  | HUndef | HNull => false
  | HBool b => b
  | HNum n => number_truthy n
  | HStr s => negb (s =? "")
  | HRef _ => true
  end.

Definition typeof_object (v : hvalue) : bool :=
  match v with HRef _ | HNull => true | _ => false end.

Definition is_object (v : hvalue) : bool :=
  match v with HRef _ => true | _ => false end.

(** [o[key]] *)
Definition get_prop (h : heap) (o : hvalue) (key : string) : hvalue :=
  match o with
  | HRef l =>
      match lookup key (h_props (object_at h l)) with
      | Some v => v
      | None => HUndef
      end
  | _ => HUndef
  end.

(** [key in o] *)
Definition in_object (h : heap) (key : string) (o : hvalue) : bool :=
  match o with
  | HRef l => has_key key (h_props (object_at h l))
  | _ => false
  end.

(** [o[key] = v] for the object at [l]. *)
Definition assign (h : heap) (l : loc) (key : string) (v : hvalue) : heap :=
  let o := object_at h l in
  update h l {| h_kind := h_kind o; h_props := set_prop key v (h_props o) |}.

(** The loop of [getNestedValueWithEscaping]. *)
Fixpoint descend (h : heap) (current : hvalue) (keys : list string)
  : hvalue :=
  match keys with
  | [] => current
  | key :: rest =>
      if truthy current && typeof_object current && in_object h key current
      then descend h (get_prop h current key) rest
      else HUndef
  end.

Definition getNestedValueWithEscaping (h : heap) (obj path : hvalue)
  : outcome hvalue :=
  if negb (truthy obj) || negb (typeof_object obj)
  then Throw (Error msg_object)
  else match path with
       | HStr p => Ret (descend h obj (getKeys p))
       | _ => Throw (Error msg_path)
       end.

(** The [keys.forEach] of [setNestedValueWithEscaping] and
    [unflattenJson], on the object at [current].  The test
    [!current[key] || typeof current[key] !== 'object'] fails exactly
    when the value under [key] is a reference to an object. *)
Fixpoint set_path (h : heap) (current : loc) (keys : list string)
  (v : hvalue) : heap :=
  match keys with
  | [] => h
  | key :: rest =>
      match rest with
      | [] => assign h current key v
      | _ :: _ =>
          let child := get_prop h (HRef current) key in
          match child with
          | HRef l => set_path h l rest v
          | _ =>
              let (h1, l) := alloc h empty_hobject in
              set_path (assign h1 current key (HRef l)) l rest v
          end
      end
  end.

Definition setNestedValueWithEscaping (h : heap) (obj path v : hvalue)
  : heap * outcome unit :=
  match obj with
  | HRef l =>
      match path with
      | HStr p => (set_path h l (getKeys p) v, Ret tt)
      | _ => (h, Throw (Error msg_path))
      end
  | _ => (h, Throw (Error msg_object))
  end.

(** [unflattenJson(obj)] : the keys are those [obj] has when the loop
    starts; [obj[fullKey]] is read when its turn comes. *)
Definition unflattenJson (h : heap) (obj : hvalue) : heap * outcome hvalue :=
  match obj with
  | HRef l =>
      let (h0, result) := alloc h empty_hobject in
      (fold_left
         (fun h fullKey =>
            set_path h result (getKeys fullKey) (get_prop h obj fullKey))
         (keys_of (h_props (object_at h l))) h0,
       Ret (HRef result))
  | _ => (h, Throw (Error msg_input))
  end.

Fixpoint map_outcome {A B} (f : A -> outcome B) (l : list A)
  : outcome (list B) :=
  match l with
  | [] => Ret []
  | a :: l' => b <- f a ;; bs <- map_outcome f l' ;; Ret (b :: bs)
  end.

Definition msg_circular : string := "Converting circular structure to JSON".
Definition msg_stack : string := "Maximum call stack size exceeded".

(** The properties [JSON.stringify] visits: all of a plain object, the
    indices of an array. *)
Definition visited_props (o : hobject) : list (string * hvalue) :=
  match h_kind o with
  | KPlain => h_props o
  | KArray => filter (fun kv => is_some (array_index (fst kv))) (h_props o)
  end.

(** [JSON.stringify(v)], its text given as the tree it denotes ([VUndef]
    when the result is [undefined]).  [stack] holds the objects being
    serialized; meeting one of them again is the circular-structure
    error.  [fuel] bounds the depth of the recursion. *)
Fixpoint stringify (fuel : nat) (h : heap) (stack : list loc) (v : hvalue)
  : outcome value :=
  match v with
  | HUndef => Ret VUndef
  | HNull => Ret VNull
  | HBool b => Ret (VBool b)
  | HNum n => Ret (json_number n)
  | HStr s => Ret (VStr s)
  | HRef l =>
      if existsb (Nat.eqb l) stack then Throw (TypeError msg_circular)
      else
        match fuel with
        | O => Throw (RangeError msg_stack)
        | S fuel' =>
            let o := object_at h l in
            copies <-
              map_outcome
                (fun kv =>
                   c <- stringify fuel' h (l :: stack) (snd kv) ;;
                   Ret (fst kv, c))
                (visited_props o) ;;
            Ret (match h_kind o with
                 | KPlain => VObj KPlain (json_members copies)
                 | KArray => array_of (json_elements copies)
                 end)
        end
  end.

(** [JSON.parse(text)] : every object of the tree is a new object. *)
Fixpoint parse (h : heap) (t : value) : heap * hvalue :=
  match t with
  | VUndef => (h, HUndef)
  | VNull => (h, HNull)
  | VBool b => (h, HBool b)
  | VNum n => (h, HNum n)
  | VStr s => (h, HStr s)
  | VObj k ps =>
      let (h1, members) :=
        fold_left
          (fun (acc : heap * list (string * hvalue)) kv =>
             let (h', c) := parse (fst acc) (snd kv) in
             (h', (snd acc ++ [(fst kv, c)])%list))
          ps (h, []) in
      let (h2, l) := alloc h1 {| h_kind := k; h_props := members |} in
      (h2, HRef l)
  end.

(** [JSON.parse(JSON.stringify(unflattenJson(jsonObject)))] *)
Definition dump (h : heap) (jsonObject : hvalue) : heap * outcome hvalue :=
  let (h1, r) := unflattenJson h jsonObject in
  match r with
  | Throw e => (h1, Throw e)
  | Ret nested =>
      match stringify (S (length h1)) h1 [] nested with
      | Throw e => (h1, Throw e)
      | Ret VUndef => (h1, Throw (SyntaxError "undefined is not valid JSON"))
      | Ret text => let (h2, d) := parse h1 text in (h2, Ret d)
      end
  end.

Definition read (h : heap) (jsonObject path : hvalue) : outcome hvalue :=
  getNestedValueWithEscaping h jsonObject path.

Definition write (h : heap) (jsonObject path v : hvalue)
  : heap * outcome unit :=
  setNestedValueWithEscaping h jsonObject path v.

(** The number of objects there are when the [JSON.parse] of [dump]
    starts: every object at or above it is made by [JSON.parse] or
    later. *)
Definition dump_base (h : heap) (jsonObject : hvalue) : nat :=
  length (fst (unflattenJson h jsonObject)).

(** A reference in [v], if any, is to an object below [n]. *)
Definition below (n : nat) (v : hvalue) : Prop :=
  match v with HRef l => l < n | _ => True end.

(** No object of the heap refers to an object that is not in it. *)
Definition closed (h : heap) : Prop :=
  Forall (fun o => Forall (fun kv => below (length h) (snd kv)) (h_props o)) h.

(** A reference in [v], if any, is to an object at or above [n]. *)
Definition above (n : nat) (v : hvalue) : Prop :=
  match v with HRef l => n <= l | _ => True end.

(** The objects at or above [n] refer to such objects only. *)
Definition region (n : nat) (h : heap) : Prop :=
  forall l key v,
    n <= l -> In (key, v) (h_props (object_at h l)) -> above n v.

(** The objects that can be reached from a value. *)
Inductive reachable (h : heap) : hvalue -> loc -> Prop :=
| reach_here l : reachable h (HRef l) l
| reach_prop l key v l' :
    In (key, v) (h_props (object_at h l)) ->
    reachable h v l' -> reachable h (HRef l) l'.

(** What a caller can do to objects at or above [n]: assign to one of
    their properties, replace one of them altogether (which covers
    deleting properties), or make a new object. *)
Inductive mutation (n : nat) : heap -> heap -> Prop :=
| mut_none h : mutation n h h
| mut_assign h l key v h' :
    n <= l -> mutation n (assign h l key v) h' -> mutation n h h'
| mut_replace h l o h' :
    n <= l -> mutation n (update h l o) h' -> mutation n h h'
| mut_alloc h o h' :
    n <= length h -> mutation n (fst (alloc h o)) h' -> mutation n h h'.

(** A store whose object holds a number under [key] and, under [a], a
    second object. *)
Definition example_heap : heap :=
  [ {| h_kind := KPlain;
       h_props := [("key", HNum 1); ("a", HRef 1)] |};
    {| h_kind := KPlain; h_props := [("x", HStr "one")] |} ].

End Heap.

(** The Heap.heap value [v] stands for the tree [t] in the Heap.heap [h]. *)
Fixpoint represents (h : Heap.heap) (v : Heap.hvalue) (t : value) {struct t} : Prop :=
  match t, v with
  | VUndef, Heap.HUndef => True
  | VNull, Heap.HNull => True
  | VBool b, Heap.HBool b' => b = b'
  | VNum n, Heap.HNum n' => n = n'
  | VStr s, Heap.HStr s' => s = s'
  | VObj k ps, Heap.HRef l =>
      l < length h /\ Heap.h_kind (Heap.object_at h l) = k
      /\ (fix all (ps : props) (hps : list (string * Heap.hvalue)) {struct ps}
             : Prop :=
            match ps, hps with
            | [], [] => True
            | p :: ps', hp :: hps' =>
                fst hp = fst p /\ represents h (snd hp) (snd p) /\ all ps' hps'
            | _, _ => False
            end) ps (Heap.h_props (Heap.object_at h l))
  | _, _ => False
  end.

(** The same, property by property. *)
Fixpoint represent_props (h : Heap.heap) (hps : list (string * Heap.hvalue)) (ps : props)
  : Prop :=
  match hps, ps with
  | [], [] => True
  | hp :: hps', p :: ps' =>
      fst hp = fst p /\ represents h (snd hp) (snd p)
      /\ represent_props h hps' ps'
  | _, _ => False
  end.

(* ================================================================= *)
(** ** Further parts of the source and notions about them *)

(** The first declaration of [getNestedValueWithEscaping] (lines 89-103),
    which the declaration of lines 337-358 replaces:
    [if (!obj || typeof path !== 'string') return undefined;] then
    [keys.reduce((current, key) => ..., obj)]. *)
Definition getNestedValueWithEscaping_first (obj path : value) : value :=
  if negb (truthy obj) || negb (is_string path) then VUndef
  else match path with
       | VStr p =>
           fold_left
             (fun current key =>
                if truthy current && typeof_object current
                   && in_object key current
                then get_prop current key
                else VUndef)
             (getKeys p) obj
       | _ => VUndef
       end.

(** The path [recurse] and [deepSearch] have accumulated after going
    through the keys [segs] from the root. *)
Definition path_of (segs : list string) : string :=
  fold_left (fun p key => join_key p (escapeKey key)) segs "".

(** Every key but the last does not end in a backslash. *)
Fixpoint inner_keys_closed (segs : list string) : bool :=
  match segs with
  | [] => true
  | key :: rest =>
      match rest with
      | [] => true
      | _ :: _ => negb (ends_with_backslash key) && inner_keys_closed rest
      end
  end.

(** The lists of keys [path_of] encodes without loss: not empty, no inner
    key ending in a backslash, and a first key that is not empty unless it
    is the only one. *)
Definition encodable (segs : list string) : bool :=
  match segs with
  | [] => false
  | key :: rest =>
      match rest with
      | [] => true
      | _ :: _ => negb (key =? "")
      end
      && inner_keys_closed segs
  end.

(** No key twice in one object, at any depth (arrays included). *)
Fixpoint distinct_keys (v : value) : bool :=
  match v with
  | VObj _ ps =>
      distinct (keys_of ps) && forallb (fun kv => distinct_keys (snd kv)) ps
  | _ => true
  end.

(** A value [JSON.stringify] and [JSON.parse] give back as it is: no
    [undefined], no array, and no number that is [NaN], infinite or [-0]
    anywhere in it. *)
Fixpoint json_clean (v : value) : bool :=
  match v with
  | VUndef => false
  | VNum n => match n with Int _ => true | _ => false end
  | VObj k ps => kind_eqb k KPlain && forallb (fun kv => json_clean (snd kv)) ps
  | _ => true
  end.

Fixpoint no_backslash (s : string) : bool :=
  match s with
  | EmptyString => true
  | String c rest => negb (Ascii.eqb c backslash) && no_backslash rest
  end.

(** Two lists of keys part ways: after a common beginning each goes on
    with a key of its own. *)
Fixpoint diverge (p q : list string) : bool :=
  match p, q with
  | k :: p', k' :: q' => if k =? k' then diverge p' q' else true
  | _, _ => false
  end.

(** A call that can change the store. *)
Inductive store_call : Type :=
| CallWrite (path v : value)
| CallInit (obj : value).

Definition run_call (s : store) (c : store_call) : store :=
  match c with
  | CallWrite path v => fst (write s path v)
  | CallInit obj => fst (init s obj)
  end.

(** The store after a sequence of calls on a new manager, whether they
    returned or raised. *)
Definition run_calls (cs : list store_call) : store :=
  fold_left run_call cs createJsonManager.

(* ================================================================= *)
(** ** Objects with their prototype *)

(** [key in o], [o[key]] and [o[key] = v] look for [key] along the
    prototype chain of [o], and [Object.prototype], where the chain of a
    plain object ends, defines [__proto__] with a getter and a setter.
    This module embeds [setNestedValueWithEscaping],
    [getNestedValueWithEscaping] and [hasNestedKeyWithEscaping] once more,
    over a heap of ordinary objects each with its prototype link, to
    settle what they do at the keys the own properties do not decide and
    on objects that are reached by more than one path.
    Arrays are not part of it; a builtin function is a value whose inside
    is not described. *)
Module Proto.

Definition loc : Type := nat.

Inductive pvalue : Type :=
| PUndef
| PNull
| PBool (b : bool)
| PNum (n : number)
| PStr (s : string)
| PFun (name : string)          (* a builtin function *)
| PRef (l : loc).               (* an ordinary object *)

(** An ordinary object: its [[Prototype]] and its own data properties. *)
Record pobject : Type := {
  p_proto : option loc;
  p_props : list (string * pvalue)
}.

Definition heap : Type := list pobject.

Definition no_pobject : pobject := {| p_proto := None; p_props := [] |}.

Definition object_at (h : heap) (l : loc) : pobject := nth l h no_pobject.

Fixpoint update (h : heap) (l : loc) (o : pobject) : heap :=
  match h, l with
  | [], _ => []
  | _ :: h', O => o :: h'
  | x :: h', S l' => x :: update h' l' o
  end.

(** [Object.prototype] is the object at location 0: no prototype, and the
    builtin methods as its own properties.  Its property [__proto__] is an
    accessor, not a data property; [find] below accounts for it. *)
Definition object_prototype : pobject :=
  {| p_proto := None;
     p_props := map (fun name => (name, PFun name)) builtin_methods |}.

(** The heap a program starts with. *)
Definition world : heap := [object_prototype].

(** The object literal [{}]. *)
Definition empty_pobject : pobject := {| p_proto := Some 0; p_props := [] |}.

Definition alloc (h : heap) (o : pobject) : heap * loc :=
  ((h ++ [o])%list, length h).

Definition truthy (v : pvalue) : bool :=
  match v with
  | PUndef | PNull => false
  | PBool b => b
  | PNum n => number_truthy n
  | PStr s => negb (s =? "")
  | PFun _ | PRef _ => true
  end.

(** [typeof v === 'object'] : not of a function. *)
Definition typeof_object (v : pvalue) : bool :=
  match v with PRef _ | PNull => true | _ => false end.

(** What the lookup of a key along a prototype chain arrives at. *)
Inductive found : Type :=
| Data (v : pvalue)       (* a data property, own or inherited *)
| Accessor                (* the accessor [__proto__] of [Object.prototype] *)
| Missing.

(** The lookup of [key] from the object at [l] up its prototype chain;
    [fuel] bounds the length of the chain. *)
Fixpoint find (fuel : nat) (h : heap) (l : loc) (key : string) : found :=
  match lookup key (p_props (object_at h l)) with
  | Some v => Data v
  | None =>
      if (l =? 0)%nat && (key =? "__proto__") then Accessor
      else match p_proto (object_at h l), fuel with
           | Some p, S fuel' => find fuel' h p key
           | _, _ => Missing
           end
  end.

(** The value of [Object.getPrototypeOf(o)] for the object at [l]. *)
Definition prototype_of (h : heap) (l : loc) : pvalue :=
  match p_proto (object_at h l) with
  | Some p => PRef p
  | None => PNull
  end.

(** [key in o] for the object at [l]. *)
Definition has (h : heap) (l : loc) (key : string) : bool :=
  match find (length h) h l key with
  | Missing => false
  | _ => true
  end.

(** [o[key]] for the object at [l] : the getter of [__proto__] returns the
    prototype of [o]. *)
Definition get (h : heap) (l : loc) (key : string) : pvalue :=
  match find (length h) h l key with
  | Data v => v
  | Accessor => prototype_of h l
  | Missing => PUndef
  end.

(** How a call ends: it returns, it raises, or it leaves what the module
    describes (it would have to look inside a builtin function). *)
Inductive ending : Type :=
| Returned
| Raised (e : exn)
| Beyond.

Definition proto_eqb (a b : option loc) : bool :=
  match a, b with
  | Some x, Some y => (x =? y)%nat
  | None, None => true
  | _, _ => false
  end.

(** Whether the prototype chain that starts with [p] passes through [l]. *)
Fixpoint on_chain (fuel : nat) (h : heap) (p : option loc) (l : loc) : bool :=
  match p with
  | None => false
  | Some q =>
      (q =? l)%nat
      || match fuel with
         | S fuel' => on_chain fuel' h (p_proto (object_at h q)) l
         | O => false
         end
  end.

Definition msg_immutable : string :=
  "Immutable prototype object 'Object.prototype' cannot have their prototype set".
Definition msg_cyclic : string := "Cyclic __proto__ value".

(** The setter of [__proto__] called on the object at [l] with an object
    or [null] : nothing to do when that is the prototype already;
    [Object.prototype] keeps its prototype and a chain may not become a
    cycle, a [TypeError] in both cases. *)
Definition set_prototype (h : heap) (l : loc) (p : option loc)
  : heap * ending :=
  let o := object_at h l in
  if proto_eqb p (p_proto o) then (h, Returned)
  else if (l =? 0)%nat then (h, Raised (TypeError msg_immutable))
  else if on_chain (length h) h p l then (h, Raised (TypeError msg_cyclic))
  else (update h l {| p_proto := p; p_props := p_props o |}, Returned).

(** [o[key] = v] for the object at [l].  A data property, found on [o] or
    inherited, or no property at all: [o] gets or updates its own
    property.  The accessor: its setter changes the prototype of [o] when
    [v] is an object or [null] and does nothing for another value. *)
Definition set (h : heap) (l : loc) (key : string) (v : pvalue)
  : heap * ending :=
  match find (length h) h l key with
  | Data _ | Missing =>
      let o := object_at h l in
      (update h l {| p_proto := p_proto o;
                     p_props := set_prop key v (p_props o) |},
       Returned)
  | Accessor =>
      match v with
      | PRef p => set_prototype h l (Some p)
      | PNull => set_prototype h l None
      | PFun _ => (h, Beyond)
      | _ => (h, Returned)
      end
  end.

(** The loop of [getNestedValueWithEscaping]. *)
Fixpoint descend (h : heap) (current : pvalue) (keys : list string)
  : pvalue :=
  match keys with
  | [] => current
  | key :: rest =>
      match current with
      | PRef l =>
          if truthy current && typeof_object current && has h l key
          then descend h (get h l key) rest
          else PUndef
      | _ => PUndef
      end
  end.

Definition getNestedValueWithEscaping (h : heap) (obj path : pvalue)
  : outcome pvalue :=
  if negb (truthy obj) || negb (typeof_object obj)
  then Throw (Error msg_object)
  else match path with
       | PStr p => Ret (descend h obj (getKeys p))
       | _ => Throw (Error msg_path)
       end.

(** The loop of [hasNestedKeyWithEscaping]. *)
Fixpoint descend_has (h : heap) (current : pvalue) (keys : list string)
  : bool :=
  match keys with
  | [] => true
  | key :: rest =>
      match current with
      | PRef l =>
          if truthy current && typeof_object current && has h l key
          then descend_has h (get h l key) rest
          else false
      | _ => false
      end
  end.

Definition hasNestedKeyWithEscaping (h : heap) (obj path : pvalue)
  : outcome bool :=
  if negb (truthy obj) || negb (typeof_object obj)
  then Throw (Error msg_object)
  else match path with
       | PStr p => Ret (descend_has h obj (getKeys p))
       | _ => Throw (Error msg_path)
       end.

(** The [keys.forEach] of [setNestedValueWithEscaping] on the object at
    [current].  When [current[key]] is not an object, [current[key] = {}]
    stores a new object, or raises; [current = current[key]] then reads
    the object just stored. *)
Fixpoint set_path (h : heap) (current : loc) (keys : list string)
  (v : pvalue) : heap * ending :=
  match keys with
  | [] => (h, Returned)
  | key :: rest =>
      match rest with
      | [] => set h current key v
      | _ :: _ =>
          match get h current key with
          | PRef l => set_path h l rest v
          | _ =>
              let (h1, l) := alloc h empty_pobject in
              match set h1 current key (PRef l) with
              | (h2, Returned) => set_path h2 l rest v
              | stopped => stopped
              end
          end
      end
  end.

Definition setNestedValueWithEscaping (h : heap) (obj path v : pvalue)
  : heap * ending :=
  match obj with
  | PRef l =>
      match path with
      | PStr p => set_path h l (getKeys p) v
      | _ => (h, Raised (Error msg_path))
      end
  | _ => (h, Raised (Error msg_object))
  end.

(** The heap of a program that has made the empty tree [{}], and where
    that object is. *)
Definition with_empty_tree (h : heap) : heap * loc := alloc h empty_pobject.

(** *** The objects a write and a read go through *)

(** An object can be stored under several keys, or below itself; what a
    write to one path does to the read of a path then depends on which
    objects the two go through. *)

(** The objects the write at [keys] goes through from the object at [l] :
    that object, then, while the write has further to go, the object its
    next key holds, if it holds one. *)
Fixpoint walk (h : heap) (l : loc) (keys : list string) : list loc :=
  match keys with
  | key :: ((_ :: _) as rest) =>
      l :: match get h l key with
           | PRef c => walk h c rest
           | _ => []
           end
  | _ => [l]
  end.

(** An object a program makes with [{}] : not [Object.prototype], which
    is its prototype. *)
Definition plain_at (h : heap) (l : loc) : bool :=
  negb (l =? 0)%nat && (l <? length h)%nat
  && proto_eqb (p_proto (object_at h l)) (Some 0).

Fixpoint distinct_locs (ls : list loc) : bool :=
  match ls with
  | [] => true
  | l :: rest => negb (existsb (Nat.eqb l) rest) && distinct_locs rest
  end.

(** The write at [keys] from [l] goes through plain objects and through
    none of them twice. *)
Definition plain_walk (h : heap) (l : loc) (keys : list string) : bool :=
  forallb (plain_at h) (walk h l keys) && distinct_locs (walk h l keys).

(** [keys] lead from the object at [l], own property by own property, to
    the value [v]. *)
Fixpoint leads (h : heap) (l : loc) (keys : list string) (v : pvalue)
  : Prop :=
  match keys with
  | [] => False
  | key :: rest =>
      match rest with
      | [] => lookup key (p_props (object_at h l)) = Some v
      | _ :: _ =>
          exists c, lookup key (p_props (object_at h l)) = Some (PRef c)
                    /\ leads h c rest v
      end
  end.

(** No key of the list is [__proto__]. *)
Definition no_proto_segment (keys : list string) : bool :=
  forallb (fun key => negb (key =? "__proto__")) keys.

(** The objects the read at [keys] goes through from the value [v]. *)
Fixpoint visits (h : heap) (v : pvalue) (keys : list string) : list loc :=
  match keys with
  | [] => []
  | key :: rest =>
      match v with
      | PRef l =>
          l :: (if has h l key then visits h (get h l key) rest else [])
      | _ => []
      end
  end.

(** Beyond the key where the path of a read parts from the path of a
    write, the read goes through none of the objects the write goes
    through. *)
Fixpoint apart (h : heap) (l : loc) (wkeys rkeys : list string) : bool :=
  match wkeys, rkeys with
  | k :: wrest, k' :: rrest =>
      if k =? k'
      then match get h l k with
           | PRef c => apart h c wrest rrest
           | _ => true
           end
      else forallb (fun x => negb (existsb (Nat.eqb x) (walk h l wkeys)))
                   (visits h (get h l k') rrest)
  | _, _ => true
  end.

(** No key of the list is a name of [Object.prototype]. *)
Definition no_inherited_segment (keys : list string) : bool :=
  forallb (fun key => negb (inherited key)) keys.

(** The heap of a program that has made [o = { d: 2 }] and then the tree
    [{ a: { b: 1 }, c: o, e: o }] : the tree is the object at 1, and [o],
    the object at 3, is stored under two of its keys. *)
Definition shared_heap : heap :=
  [ object_prototype;
    {| p_proto := Some 0;
       p_props := [("a", PRef 2); ("c", PRef 3); ("e", PRef 3)] |};
    {| p_proto := Some 0; p_props := [("b", PNum 1)] |};
    {| p_proto := Some 0; p_props := [("d", PNum 2)] |} ].

(** The heap of a program that has made [t = {}] and then stored [t]
    under its own key [self]. *)
Definition cyclic_heap : heap :=
  [ object_prototype;
    {| p_proto := Some 0; p_props := [("self", PRef 1)] |} ].

End Proto.

(* ================================================================= *)
(** * Properties *)

Unset Implicit Arguments.

(** ** The tokenizer and the key escaper *)

Lemma split_unescaped_from_nonempty (pb : bool) (s : string) :
  split_unescaped_from pb s <> [].
Proof.
  revert pb; induction s as [|c s IH]; intros pb; simpl.
  - discriminate.
  - destruct (Ascii.eqb c dot && negb pb); [discriminate|].
    specialize (IH (Ascii.eqb c backslash)).
    destruct (split_unescaped_from (Ascii.eqb c backslash) s); simpl;
      discriminate.
Qed.

Lemma getKeys_nonempty (p : string) : getKeys p <> [].
Proof.
  unfold getKeys, split_unescaped.
  pose proof (split_unescaped_from_nonempty false p) as H.
  destruct (split_unescaped_from false p); [congruence | discriminate].
Qed.

Lemma dot_not_backslash : Ascii.eqb dot backslash = false.
Proof. reflexivity. Qed.

Lemma escapeKey_head_not_dot (k : string) (s : string) :
  escapeKey k <> String dot s.
Proof.
  destruct k as [|c k]; simpl; [discriminate|].
  destruct (Ascii.eqb c dot) eqn:E.
  - intros H; inversion H.
  - intros H; inversion H; subst. rewrite Ascii.eqb_refl in E. discriminate.
Qed.

Lemma escapeKey_empty (k : string) : escapeKey k = "" -> k = "".
Proof.
  destruct k as [|c k]; simpl; [reflexivity|].
  destruct (Ascii.eqb c dot); discriminate.
Qed.

(** Decoding undoes escaping, for every segment name. *)
Lemma unescape_escapeKey (k : string) : unescape_dots (escapeKey k) = k.
Proof.
  induction k as [|c k IH]; [reflexivity|].
  simpl escapeKey. destruct (Ascii.eqb c dot) eqn:E.
  - apply Ascii.eqb_eq in E; subst c.
    simpl. now rewrite IH.
  - change (unescape_dots (String c (escapeKey k)))
      with (match escapeKey k with
            | String d rest' =>
                if Ascii.eqb c backslash && Ascii.eqb d dot
                then String dot (unescape_dots rest')
                else String c (unescape_dots (escapeKey k))
            | EmptyString => String c ""
            end).
    destruct (escapeKey k) as [|d rest'] eqn:Ek.
    + apply escapeKey_empty in Ek. now subst.
    + destruct (Ascii.eqb d dot) eqn:Ed.
      * apply Ascii.eqb_eq in Ed; subst d.
        exfalso. exact (escapeKey_head_not_dot _ _ Ek).
      * rewrite andb_false_r. now rewrite IH.
Qed.

(** An escaped segment holds no separator. *)
Lemma split_escapeKey (pb : bool) (k : string) :
  split_unescaped_from pb (escapeKey k) = [escapeKey k].
Proof.
  revert pb; induction k as [|c k IH]; intros pb; [reflexivity|].
  simpl escapeKey. destruct (Ascii.eqb c dot) eqn:E.
  - apply Ascii.eqb_eq in E; subst c.
    cbn [split_unescaped_from].
    rewrite IH.
    replace (Ascii.eqb backslash dot) with false by reflexivity.
    replace (Ascii.eqb backslash backslash) with true by reflexivity.
    replace (Ascii.eqb dot dot) with true by reflexivity.
    reflexivity.
  - cbn [split_unescaped_from]. rewrite E, IH. reflexivity.
Qed.

Lemma cons_head_app (c : ascii) (x y : list string) :
  x <> [] -> cons_head c (x ++ y)%list = (cons_head c x ++ y)%list.
Proof. destruct x; [congruence | reflexivity]. Qed.

(** A dot that follows a string not ending in a backslash separates. *)
Lemma split_unescaped_app (pb : bool) (a b : string) :
  ends_with_backslash_from pb a = false ->
  split_unescaped_from pb (a ++ String dot b)
  = (split_unescaped_from pb a ++ split_unescaped_from false b)%list.
Proof.
  revert pb; induction a as [|c a IH]; intros pb H; simpl in *.
  - subst pb. reflexivity.
  - rewrite (IH _ H).
    destruct (Ascii.eqb c dot && negb pb); [reflexivity|].
    apply cons_head_app, split_unescaped_from_nonempty.
Qed.

Lemma ends_with_backslash_from_app (pb : bool) (a b : string) :
  ends_with_backslash_from pb (a ++ b)
  = ends_with_backslash_from (ends_with_backslash_from pb a) b.
Proof.
  revert pb; induction a as [|c a IH]; intros pb; simpl; [reflexivity|].
  apply IH.
Qed.

Lemma ends_with_backslash_escapeKey (pb : bool) (k : string) :
  ends_with_backslash_from pb (escapeKey k) = ends_with_backslash_from pb k.
Proof.
  revert pb; induction k as [|c k IH]; intros pb; [reflexivity|].
  simpl. destruct (Ascii.eqb c dot) eqn:E; simpl.
  - apply Ascii.eqb_eq in E; subst c. rewrite IH. reflexivity.
  - apply IH.
Qed.

Lemma join_key_empty_prefix (e : string) : join_key "" e = e.
Proof. reflexivity. Qed.

Lemma join_key_prefix (p e : string) :
  p <> "" -> join_key p e = p ++ String dot e.
Proof.
  intros H. unfold join_key.
  destruct (String.eqb_spec p ""); [contradiction | reflexivity].
Qed.

Lemma append_nonempty (p q : string) : p <> "" -> p ++ q <> "".
Proof. destruct p; [congruence | discriminate]. Qed.

(** The keys of a path extended by one escaped segment. *)
Lemma getKeys_join_key (p k : string) :
  p <> "" -> ends_with_backslash p = false ->
  getKeys (join_key p (escapeKey k)) = (getKeys p ++ [k])%list.
Proof.
  intros Hp Hb. rewrite (join_key_prefix _ _ Hp).
  unfold getKeys, split_unescaped.
  rewrite (split_unescaped_app _ _ _ Hb), split_escapeKey, map_app.
  simpl. now rewrite unescape_escapeKey.
Qed.

Lemma getKeys_escapeKey (k : string) : getKeys (escapeKey k) = [k].
Proof.
  unfold getKeys, split_unescaped. rewrite split_escapeKey. simpl.
  now rewrite unescape_escapeKey.
Qed.

Lemma ends_with_backslash_join_key (p k : string) :
  p <> "" ->
  ends_with_backslash (join_key p (escapeKey k)) = ends_with_backslash k.
Proof.
  intros Hp. rewrite (join_key_prefix _ _ Hp). unfold ends_with_backslash.
  rewrite ends_with_backslash_from_app.
  cbn [ends_with_backslash_from].
  rewrite dot_not_backslash. apply ends_with_backslash_escapeKey.
Qed.

(** ** Property lists *)

Section PropsFacts.
Variable A : Type.
Implicit Types (ps : list (string * A)) (k key : string) (v w : A).

Lemma lookup_In ps k v : lookup k ps = Some v -> In (k, v) ps.
Proof.
  induction ps as [|[k' w] ps IH]; simpl; [discriminate|].
  destruct (String.eqb_spec k' k); intros H.
  - inversion H; subst. now left.
  - right. auto.
Qed.

Lemma lookup_None ps k : lookup k ps = None <-> ~ In k (keys_of ps).
Proof.
  induction ps as [|[k' w] ps IH]; simpl.
  - tauto.
  - destruct (String.eqb_spec k' k); split; intros H.
    + discriminate.
    + exfalso. apply H. now left.
    + intros [E|E]; [contradiction|]. now apply IH in H.
    + apply IH. tauto.
Qed.

Lemma In_lookup ps k v :
  NoDup (keys_of ps) -> In (k, v) ps -> lookup k ps = Some v.
Proof.
  induction ps as [|[k' w] ps IH]; simpl; [tauto|].
  intros Hnd [E|E].
  - inversion E; subst. now rewrite String.eqb_refl.
  - inversion Hnd as [|? ? Hni Hnd']; subst.
    destruct (String.eqb_spec k' k); [subst|auto].
    exfalso. apply Hni. change k with (fst (k, v)). now apply in_map.
Qed.

Lemma has_key_In ps k : has_key k ps = true <-> In k (keys_of ps).
Proof.
  unfold has_key. destruct (lookup k ps) eqn:E.
  - split; [intros _|reflexivity].
    apply lookup_In in E. change k with (fst (k, a)). now apply in_map.
  - split; [discriminate|]. intros H. now apply lookup_None in E.
Qed.

Lemma lookup_app ps ps' k :
  lookup k (ps ++ ps')%list
  = match lookup k ps with Some v => Some v | None => lookup k ps' end.
Proof.
  induction ps as [|[k' w] ps IH]; simpl; [reflexivity|].
  now destruct (k' =? k).
Qed.

Lemma lookup_replace_prop ps k key v :
  has_key key ps = true ->
  lookup k (replace_prop key v ps)
  = if key =? k then Some v else lookup k ps.
Proof.
  unfold has_key.
  induction ps as [|[k' w] ps IH]; simpl; [discriminate|].
  destruct (String.eqb_spec k' key) as [->|Hne]; simpl.
  - intros _. now destruct (key =? k).
  - intros H. rewrite (IH H).
    destruct (String.eqb_spec k' k) as [->|Hne'];
      destruct (String.eqb_spec key k); congruence.
Qed.

Lemma lookup_insert_index ps k key i v :
  has_key key ps = false ->
  lookup k (insert_index i key v ps)
  = if key =? k then Some v else lookup k ps.
Proof.
  unfold has_key.
  induction ps as [|[k' w] ps IH]; simpl; [reflexivity|].
  destruct (String.eqb_spec k' key) as [->|Hne]; [discriminate|].
  intros H.
  destruct (array_index k') as [j|]; [destruct (j <? i)%N|]; simpl;
    try reflexivity.
  rewrite (IH H).
  destruct (String.eqb_spec k' k) as [->|Hne'];
    destruct (String.eqb_spec key k); congruence.
Qed.

(** Reading a property list after an assignment. *)
Lemma lookup_set_prop ps k key v :
  lookup k (set_prop key v ps) = if key =? k then Some v else lookup k ps.
Proof.
  unfold set_prop. destruct (has_key key ps) eqn:E.
  - now apply lookup_replace_prop.
  - unfold insert_new. destruct (array_index key).
    + now apply lookup_insert_index.
    + rewrite lookup_app. simpl.
      destruct (String.eqb_spec key k) as [->|Hne].
      * unfold has_key in E. destruct (lookup k ps); [discriminate|].
        reflexivity.
      * now destruct (lookup k ps).
Qed.

Lemma keys_replace_prop ps key v :
  keys_of (replace_prop key v ps) = keys_of ps.
Proof.
  induction ps as [|[k' w] ps IH]; simpl; [reflexivity|].
  destruct (k' =? key); simpl; [reflexivity|]. f_equal. apply IH.
Qed.

Lemma insert_index_perm ps key i v :
  Permutation (insert_index i key v ps) ((key, v) :: ps).
Proof.
  induction ps as [|[k' w] ps IH]; simpl; [reflexivity|].
  destruct (array_index k') as [j|]; [destruct (j <? i)%N|];
    try reflexivity.
  rewrite IH. apply perm_swap.
Qed.

Lemma insert_new_perm ps key v :
  Permutation (insert_new key v ps) ((key, v) :: ps).
Proof.
  unfold insert_new. destruct (array_index key).
  - apply insert_index_perm.
  - symmetry. apply Permutation_cons_append.
Qed.

(** A first assignment to a key adds one property. *)
Lemma set_prop_fresh_perm ps key v :
  has_key key ps = false ->
  Permutation (set_prop key v ps) ((key, v) :: ps).
Proof.
  intros H. unfold set_prop. rewrite H. apply insert_new_perm.
Qed.

(** Assignment keeps the keys of a property list distinct. *)
Lemma set_prop_NoDup ps key v :
  NoDup (keys_of ps) -> NoDup (keys_of (set_prop key v ps)).
Proof.
  intros H. unfold set_prop. destruct (has_key key ps) eqn:E.
  - now rewrite keys_replace_prop.
  - apply (Permutation_NoDup (l := keys_of ((key, v) :: ps))).
    + symmetry. apply Permutation_map, insert_new_perm.
    + simpl. constructor; [|assumption].
      intros Hin. apply has_key_In in Hin. congruence.
Qed.

Lemma fold_set_prop_perm (es acc : list (string * A)) :
  NoDup (keys_of (acc ++ es)%list) ->
  Permutation (fold_left (fun r kv => set_prop (fst kv) (snd kv) r) es acc)
              (acc ++ es)%list.
Proof.
  revert acc; induction es as [|[k v] es IH]; intros acc Hnd; simpl.
  - now rewrite List.app_nil_r.
  - assert (Hfresh : has_key k acc = false).
    { destruct (has_key k acc) eqn:E; [|reflexivity].
      apply has_key_In in E. unfold keys_of in Hnd.
      rewrite map_app in Hnd. simpl in Hnd.
      apply NoDup_remove_2 in Hnd. exfalso. apply Hnd.
      apply in_or_app. now left. }
    pose proof (set_prop_fresh_perm acc k v Hfresh) as Hp.
    rewrite IH.
    + rewrite Hp. simpl. apply Permutation_middle.
    + apply (Permutation_NoDup (l := keys_of (acc ++ (k, v) :: es)%list));
        [|assumption].
      apply Permutation_map. rewrite Hp. simpl. symmetry.
      apply Permutation_middle.
Qed.
End PropsFacts.

Lemma distinct_NoDup (l : list string) : distinct l = true <-> NoDup l.
Proof.
  induction l as [|k l IH]; simpl.
  - split; [constructor | reflexivity].
  - rewrite andb_true_iff, negb_true_iff, IH. split.
    + intros [Hk Hl]. constructor; [|assumption].
      intros Hin. assert (existsb (String.eqb k) l = true); [|congruence].
      apply existsb_exists. exists k. split; [assumption|].
      apply String.eqb_refl.
    + intros H. inversion H as [|? ? Hk Hl]; subst. split; [|assumption].
      destruct (existsb (String.eqb k) l) eqn:E; [|reflexivity].
      apply existsb_exists in E. destruct E as [x [Hx Ex]].
      apply String.eqb_eq in Ex. subst. contradiction.
Qed.

(** ** Flatten: the entries it records *)

Lemma recurse_emitted (v : value) :
  forall keyPrefix result,
    recurse v keyPrefix result
    = fold_left assign_entry (emitted v keyPrefix) result.
Proof.
  induction v as [| | | | |k ps IH] using value_ind; try reflexivity.
  intros keyPrefix. simpl.
  induction IH as [|[key child] ps Hc _ IHps]; intros result; simpl.
  - reflexivity.
  - rewrite fold_left_app, IHps. f_equal.
    destruct (is_object child); [apply Hc | reflexivity].
Qed.

Lemma separable_child k ps key child :
  separable (VObj k ps) = true -> In (key, child) ps ->
  separable child = true
  /\ (is_object child = true -> ends_with_backslash key = false).
Proof.
  simpl. rewrite forallb_forall. intros H Hin.
  specialize (H _ Hin). simpl in H.
  apply andb_true_iff in H. destruct H as [H1 H2]. split; [assumption|].
  intros Ho. rewrite Ho in H1. simpl in H1.
  now apply negb_true_iff in H1.
Qed.

(** Tokenizing the recorded keys gives back the lists of segment names. *)
Lemma decode_emitted (v : value) :
  forall p q,
    separable v = true ->
    (p = "" -> q = [] /\ top_named v = true) ->
    (p <> "" -> ends_with_backslash p = false /\ getKeys p = q) ->
    map decode_entry (emitted v p) = map (under q) (leaves v).
Proof.
  induction v as [| | | | |k ps IH] using value_ind; try reflexivity.
  intros p q Hsep Htop Hin.
  assert (Hsep' : forall key child, In (key, child) ps ->
            separable child = true
            /\ (is_object child = true -> ends_with_backslash key = false)).
  { intros key child. now apply separable_child with (k := k). }
  assert (Htop' : forall key child, In (key, child) ps ->
            p = "" -> is_object child = true -> key <> "").
  { intros key child Hi Hp Ho. destruct (Htop Hp) as [_ Ht].
    simpl in Ht. rewrite forallb_forall in Ht. specialize (Ht _ Hi).
    simpl in Ht. rewrite Ho in Ht. simpl in Ht.
    apply negb_true_iff in Ht. now apply String.eqb_neq in Ht. }
  assert (Hq : p = "" -> q = []) by (intros Hp; now destruct (Htop Hp)).
  clear Hsep Htop. simpl.
  induction IH as [|[key child] ps Hc _ IHps]; simpl; [reflexivity|].
  rewrite !map_app. f_equal.
  2:{ apply IHps; intros; [eapply Hsep' | eapply Htop']; eauto;
      now right. }
  destruct (Hsep' key child (or_introl eq_refl)) as [Hs Hb].
  assert (Hkeys : getKeys (join_key p (escapeKey key)) = (q ++ [key])%list).
  { destruct (string_dec p "") as [->|Hp].
    - rewrite (Hq eq_refl), join_key_empty_prefix. apply getKeys_escapeKey.
    - destruct (Hin Hp) as [Hb' <-]. now apply getKeys_join_key. }
  simpl in Hc. destruct (is_object child) eqn:Ho; simpl.
  - rewrite (Hc (join_key p (escapeKey key)) (q ++ [key])%list Hs).
    + rewrite map_map. apply map_ext. intros [segs x]. unfold under. simpl.
      now rewrite <- List.app_assoc.
    + intros E. exfalso. destruct (string_dec p "") as [->|Hp].
      * rewrite join_key_empty_prefix in E. apply escapeKey_empty in E.
        now apply (Htop' key child (or_introl eq_refl) eq_refl Ho).
      * rewrite (join_key_prefix _ _ Hp) in E.
        now apply (append_nonempty _ _ Hp) in E.
    + intros _. split; [|assumption].
      destruct (string_dec p "") as [->|Hp].
      * rewrite join_key_empty_prefix. unfold ends_with_backslash.
        rewrite ends_with_backslash_escapeKey. now apply Hb.
      * rewrite (ends_with_backslash_join_key _ _ Hp). now apply Hb.
  - unfold decode_entry, under. simpl. now rewrite Hkeys.
Qed.

(** ** The leaves of a tree *)

Lemma plain_tree_inv k ps :
  plain_tree (VObj k ps) = true ->
  k = KPlain /\ NoDup (keys_of ps)
  /\ forall key child, In (key, child) ps -> plain_tree child = true.
Proof.
  simpl. rewrite !andb_true_iff. intros [[Hk Hd] Hc]. repeat split.
  - now destruct k.
  - now apply distinct_NoDup.
  - intros key child Hin. rewrite forallb_forall in Hc.
    exact (Hc _ Hin).
Qed.

Lemma leaves_cons k key child ps :
  leaves (VObj k ((key, child) :: ps))
  = ((if is_object child
      then map (under [key]) (leaves child)
      else [([key], child)]) ++ leaves (VObj k ps))%list.
Proof. reflexivity. Qed.

(** Every leaf of a mapping lies under one of its keys. *)
Lemma leaves_head k ps segs x :
  In (segs, x) (leaves (VObj k ps)) ->
  exists key rest, segs = key :: rest /\ In key (keys_of ps).
Proof.
  induction ps as [|[key child] ps IH]; [contradiction|].
  rewrite leaves_cons. intros H. apply in_app_or in H.
  destruct H as [H|H].
  - destruct (is_object child).
    + apply in_map_iff in H. destruct H as [[r y] [E _]].
      inversion E; subst. exists key, r. split; [reflexivity | now left].
    + destruct H as [E|[]]. inversion E; subst.
      exists key, []. split; [reflexivity | now left].
  - destruct (IH H) as [key' [rest [E Hin]]].
    exists key', rest. split; [assumption | now right].
Qed.

Lemma tails_at_app key l l' :
  tails_at key (l ++ l')%list = (tails_at key l ++ tails_at key l')%list.
Proof. apply flat_map_app. Qed.

Lemma tails_at_under_same key l : tails_at key (map (under [key]) l) = l.
Proof.
  induction l as [|[segs x] l IH]; [reflexivity|].
  simpl. rewrite String.eqb_refl. simpl. f_equal. exact IH.
Qed.

Lemma tails_at_under_other key key' l :
  key' <> key -> tails_at key (map (under [key']) l) = [].
Proof.
  intros Hne. induction l as [|[segs x] l IH]; [reflexivity|].
  simpl. destruct (String.eqb_spec key' key); [contradiction|]. exact IH.
Qed.

Lemma tails_at_leaves_absent k ps key :
  ~ In key (keys_of ps) -> tails_at key (leaves (VObj k ps)) = [].
Proof.
  induction ps as [|[key' child] ps IH]; [reflexivity|].
  intros Hni. rewrite leaves_cons, tails_at_app, IH.
  2:{ intros H. apply Hni. now right. }
  rewrite List.app_nil_r.
  assert (Hne : key' <> key) by (intros ->; apply Hni; now left).
  destruct (is_object child).
  - now apply tails_at_under_other.
  - simpl. now destruct (String.eqb_spec key' key).
Qed.

(** The leaves under one key of a mapping are the leaves of the value it
    holds. *)
Lemma tails_at_leaves k ps key child :
  NoDup (keys_of ps) -> In (key, child) ps ->
  tails_at key (leaves (VObj k ps))
  = if is_object child then leaves child else [([], child)].
Proof.
  induction ps as [|[key' child'] ps IH]; [contradiction|].
  simpl keys_of. intros Hnd Hin. inversion Hnd as [|? ? Hni Hnd']; subst.
  rewrite leaves_cons, tails_at_app.
  destruct Hin as [E|Hin].
  - inversion E; subst.
    rewrite (tails_at_leaves_absent _ _ _ Hni), List.app_nil_r.
    destruct (is_object child).
    + apply tails_at_under_same.
    + simpl. now rewrite String.eqb_refl.
  - assert (Hne : key' <> key).
    { intros ->. apply Hni. change key with (fst (key, child)).
      now apply in_map. }
    rewrite (IH Hnd' Hin).
    replace (tails_at key _) with (@nil (list string * value));
      [reflexivity|].
    symmetry. destruct (is_object child').
    + now apply tails_at_under_other.
    + simpl. now destruct (String.eqb_spec key' key).
Qed.

(** In a tree with distinct keys no two leaves have the same list of
    segment names. *)
Lemma leaves_NoDup (v : value) :
  plain_tree v = true -> NoDup (map fst (leaves v)).
Proof.
  induction v as [| | | | |k ps IH] using value_ind;
    try (intros _; constructor).
  intros Hp. apply plain_tree_inv in Hp. destruct Hp as [_ [Hnd Hc]].
  induction IH as [|[key child] ps Hch _ IHps].
  - constructor.
  - simpl keys_of in Hnd. inversion Hnd as [|? ? Hni Hnd']; subst.
    rewrite leaves_cons, map_app. apply NoDup_app.
    + destruct (is_object child).
      * rewrite map_map. simpl.
        rewrite <- (map_map fst (cons key)).
        apply Injective_map_NoDup.
        -- intros a b E. now inversion E.
        -- apply Hch. apply (Hc key). now left.
      * simpl. constructor; [tauto | constructor].
    + apply IHps; [assumption|]. intros key' child' Hin.
      apply (Hc key'). now right.
    + intros segs Hin1 Hin2.
      apply in_map_iff in Hin2. destruct Hin2 as [[segs' x] [E Hin2]].
      simpl in E. subst segs'.
      apply leaves_head in Hin2. destruct Hin2 as [key' [rest [E Hk]]].
      subst segs. apply Hni.
      replace key with key'; [assumption|].
      destruct (is_object child).
      * rewrite map_map in Hin1. apply in_map_iff in Hin1.
        destruct Hin1 as [e [E _]]. simpl in E. now inversion E.
      * simpl in Hin1. destruct Hin1 as [E|[]]. now inversion E.
Qed.

Lemma leaves_segments_nonempty (v : value) segs x :
  In (segs, x) (leaves v) -> segs <> [].
Proof.
  destruct v; try contradiction.
  intros H. apply leaves_head in H. destruct H as [key [rest [-> _]]].
  discriminate.
Qed.

Lemma leaves_values (v : value) :
  forall segs x, In (segs, x) (leaves v) -> is_object x = false.
Proof.
  induction v as [| | | | |k ps IH] using value_ind; try contradiction.
  induction IH as [|[key child] ps Hch _ IHps]; [contradiction|].
  intros segs x. rewrite leaves_cons. intros H. apply in_app_or in H.
  destruct H as [H|H]; [|now apply (IHps segs)].
  destruct (is_object child) eqn:Ho.
  - apply in_map_iff in H. destruct H as [[r y] [E Hin]].
    inversion E; subst. now apply (Hch r).
  - destruct H as [E|[]]. now inversion E; subst.
Qed.

(** A non-empty mapping that stores no empty mapping has a leaf. *)
Lemma leaves_nonempty (v : value) :
  is_object v = true -> is_empty_object v = false ->
  no_empty_mapping v = true -> leaves v <> [].
Proof.
  induction v as [| | | | |k ps IH] using value_ind; try discriminate.
  intros _ Hne Hnm. destruct ps as [|[key child] ps]; [discriminate|].
  rewrite leaves_cons. simpl in Hnm.
  apply andb_true_iff in Hnm. destruct Hnm as [Hnm _].
  apply andb_true_iff in Hnm. destruct Hnm as [Hnm1 Hnm2].
  apply negb_true_iff in Hnm1.
  inversion IH as [|? ? Hch _]; subst. simpl in Hch.
  destruct (is_object child) eqn:Ho.
  - specialize (Hch eq_refl Hnm1 Hnm2).
    destruct (leaves child); [congruence | discriminate].
  - discriminate.
Qed.

(** ** Writing along a list of keys *)

Lemma build_fold l : build l = fold_left write_entry l empty_object.
Proof. reflexivity. Qed.

(** One write into a mapping: what is then found under each key. *)
Lemma lookup_set_path kd ps key rest x :
  exists ps',
    set_path (VObj kd ps) (key :: rest) x = VObj kd ps'
    /\ (NoDup (keys_of ps) -> NoDup (keys_of ps'))
    /\ forall k, lookup k ps'
                 = if key =? k then step_under (lookup key ps) (rest, x)
                   else lookup k ps.
Proof.
  destruct rest as [|key2 rest].
  - exists (set_prop key x ps). repeat split.
    + apply set_prop_NoDup.
    + intros k. apply lookup_set_prop.
  - eexists. split; [reflexivity|]. split.
    + apply set_prop_NoDup.
    + intros k. rewrite lookup_set_prop. reflexivity.
Qed.

Lemma set_path_object kd ps keys x :
  exists ps', set_path (VObj kd ps) keys x = VObj kd ps'.
Proof.
  destruct keys as [|key rest].
  - now exists ps.
  - destruct (lookup_set_path kd ps key rest x) as [ps' [E _]].
    now exists ps'.
Qed.

Lemma tails_at_cons k key rest x l :
  tails_at k ((key :: rest, x) :: l)
  = ((if key =? k then [(rest, x)] else []) ++ tails_at k l)%list.
Proof. reflexivity. Qed.

(** A sequence of writes into a mapping: what is then found under each
    key is what the writes through that key leave there. *)
Lemma lookup_fold_write l :
  Forall (fun e => fst e <> []) l ->
  forall kd ps,
    exists ps',
      fold_left write_entry l (VObj kd ps) = VObj kd ps'
      /\ (NoDup (keys_of ps) -> NoDup (keys_of ps'))
      /\ forall k, lookup k ps'
                   = fold_left step_under (tails_at k l) (lookup k ps).
Proof.
  induction 1 as [|[segs x] l Hne _ IH]; intros kd ps.
  - exists ps. repeat split; auto.
  - simpl in Hne. destruct segs as [|key rest]; [congruence|].
    destruct (lookup_set_path kd ps key rest x) as [ps1 [E1 [Hnd1 Hl1]]].
    destruct (IH kd ps1) as [ps' [E' [Hnd' Hl']]].
    exists ps'. split; [|split].
    + change (fold_left write_entry ((key :: rest, x) :: l) (VObj kd ps))
        with (fold_left write_entry l (set_path (VObj kd ps) (key :: rest) x)).
      now rewrite E1.
    + auto.
    + intros k. rewrite Hl', Hl1, tails_at_cons, fold_left_app.
      destruct (String.eqb_spec key k) as [->|Hk]; reflexivity.
Qed.

Lemma fold_step_under_object l :
  Forall (fun e => fst e <> []) l ->
  forall kd ps,
    fold_left step_under l (Some (VObj kd ps))
    = Some (fold_left write_entry l (VObj kd ps)).
Proof.
  induction 1 as [|[segs x] l Hne _ IH]; intros kd ps; [reflexivity|].
  simpl in Hne. destruct segs as [|key rest]; [congruence|].
  change (fold_left step_under ((key :: rest, x) :: l) (Some (VObj kd ps)))
    with (fold_left step_under l
            (Some (set_path (VObj kd ps) (key :: rest) x))).
  change (fold_left write_entry ((key :: rest, x) :: l) (VObj kd ps))
    with (fold_left write_entry l (set_path (VObj kd ps) (key :: rest) x)).
  destruct (set_path_object kd ps (key :: rest) x) as [ps' E].
  rewrite E. apply IH.
Qed.

(** The writes through a key that held nothing build, from the empty
    mapping, the value they leave under that key. *)
Lemma fold_step_under_build l :
  l <> [] -> Forall (fun e => fst e <> []) l ->
  fold_left step_under l None = Some (build l).
Proof.
  intros Hl Hne. destruct l as [|[segs x] l]; [congruence|].
  inversion Hne as [|? ? Hs Hne']; subst. simpl in Hs.
  destruct segs as [|key rest]; [congruence|].
  rewrite build_fold.
  change (fold_left step_under ((key :: rest, x) :: l) None)
    with (fold_left step_under l
            (Some (set_path (VObj KPlain []) (key :: rest) x))).
  change (fold_left write_entry ((key :: rest, x) :: l) empty_object)
    with (fold_left write_entry l (set_path (VObj KPlain []) (key :: rest) x)).
  destruct (set_path_object KPlain [] (key :: rest) x) as [ps' E].
  rewrite E. now apply fold_step_under_object.
Qed.

Lemma number_eqb_refl (n : number) : number_eqb n n = true.
Proof.
  destruct n as [z| | |b]; simpl;
    [apply Z.eqb_refl | reflexivity | reflexivity | apply Bool.eqb_reflx].
Qed.

Lemma deep_equal_leaf (x : value) : is_object x = false -> deep_equal x x = true.
Proof.
  destruct x; simpl; intros H; try reflexivity; try discriminate.
  - apply Bool.eqb_reflx.
  - apply number_eqb_refl.
  - apply String.eqb_refl.
Qed.

Lemma no_empty_mapping_child k ps key child :
  no_empty_mapping (VObj k ps) = true -> In (key, child) ps ->
  is_empty_object child = false /\ no_empty_mapping child = true.
Proof.
  simpl. rewrite forallb_forall. intros H Hin. specialize (H _ Hin).
  simpl in H. apply andb_true_iff in H. destruct H as [H1 H2].
  now apply negb_true_iff in H1.
Qed.

(** Writing the leaves of a tree, in any order, into the empty mapping
    builds a tree deep-equal to it. *)
Lemma build_leaves (t : value) :
  is_object t = true -> plain_tree t = true -> no_empty_mapping t = true ->
  forall l, Permutation l (leaves t) -> deep_equal (build l) t = true.
Proof.
  induction t as [| | | | |k ps IH] using value_ind; try discriminate.
  intros _ Hp Hnm l Hperm.
  destruct (plain_tree_inv _ _ Hp) as [-> [Hnd Hpc]].
  assert (Hne : Forall (fun e => fst e <> []) l).
  { apply Forall_forall. intros [segs x] Hin. simpl.
    apply (leaves_segments_nonempty (VObj KPlain ps) segs x).
    now apply (Permutation_in _ Hperm). }
  destruct (lookup_fold_write l Hne KPlain []) as [ps' [E [Hnd' Hl]]].
  specialize (Hnd' (NoDup_nil _)).
  rewrite build_fold. unfold empty_object. rewrite E. clear E.
  assert (Hthere : forall key child, In (key, child) ps ->
            exists v, lookup key ps' = Some v /\ deep_equal v child = true).
  { intros key child Hin.
    assert (Ht : Permutation (tails_at key l)
                   (if is_object child then leaves child else [([], child)])).
    { rewrite <- (tails_at_leaves KPlain ps key child Hnd Hin).
      unfold tails_at. now apply Permutation_flat_map. }
    rewrite Hl. simpl lookup.
    destruct (no_empty_mapping_child _ _ _ _ Hnm Hin) as [Hce Hcn].
    destruct (is_object child) eqn:Ho.
    - exists (build (tails_at key l)). split.
      + apply fold_step_under_build.
        * intros E0. rewrite E0 in Ht. apply Permutation_nil in Ht.
          now apply (leaves_nonempty child Ho Hce Hcn).
        * apply Forall_forall. intros [segs x] Hi. simpl.
          apply (leaves_segments_nonempty child segs x).
          now apply (Permutation_in _ Ht).
      + rewrite Forall_forall in IH.
        apply (IH (key, child) Hin Ho (Hpc _ _ Hin) Hcn _ Ht).
    - exists child. apply Permutation_sym, Permutation_length_1_inv in Ht.
      rewrite Ht. split; [reflexivity | now apply deep_equal_leaf]. }
  assert (Habsent : forall key, ~ In key (keys_of ps) ->
            lookup key ps' = None).
  { intros key Hni. rewrite Hl.
    assert (Ht : Permutation (tails_at key l) []).
    { rewrite <- (tails_at_leaves_absent KPlain ps key Hni).
      unfold tails_at. now apply Permutation_flat_map. }
    apply Permutation_sym, Permutation_nil in Ht. now rewrite Ht. }
  assert (Hkeys : forall key, In key (keys_of ps') <-> In key (keys_of ps)).
  { intros key. split; intros Hin.
    - destruct (in_dec string_dec key (keys_of ps)) as [|Hni]; [assumption|].
      apply Habsent in Hni. now apply lookup_None in Hni.
    - apply in_map_iff in Hin. destruct Hin as [[key' child] [<- Hin]].
      destruct (Hthere _ _ Hin) as [v [Hv _]].
      apply lookup_In in Hv. apply (in_map fst) in Hv. exact Hv. }
  simpl. rewrite !andb_true_iff. repeat split.
  - apply Nat.eqb_eq.
    rewrite <- (length_map fst ps'), <- (length_map fst ps).
    apply Permutation_length. now apply NoDup_Permutation.
  - apply forallb_forall. intros [key v] Hin. simpl.
    assert (Hk : In key (keys_of ps)).
    { apply Hkeys. change key with (fst (key, v)). now apply in_map. }
    apply in_map_iff in Hk. destruct Hk as [[key' child] [E Hc]].
    simpl in E. subst key'.
    rewrite (In_lookup _ _ _ _ Hnd Hc).
    destruct (Hthere _ _ Hc) as [v' [Hv' Hd]].
    rewrite (In_lookup _ _ _ _ Hnd' Hin) in Hv'. now inversion Hv'; subst.
Qed.

(** ** Flatten then unflatten *)

Lemma fold_left_decode (l : props) (r : value) :
  fold_left unflatten_step l r = fold_left write_entry (map decode_entry l) r.
Proof.
  revert r; induction l as [|kv l IH]; intros r; [reflexivity|].
  simpl. apply IH.
Qed.

Lemma map_under_nil (l : list (list string * value)) : map (under []) l = l.
Proof.
  induction l as [|[segs x] l IH]; [reflexivity|].
  simpl. now rewrite IH.
Qed.

(** The keys flatten records are pairwise different, so that none of its
    assignments overwrites another. *)
Lemma emitted_keys_NoDup (t : value) :
  plain_tree t = true -> separable t = true -> top_named t = true ->
  NoDup (keys_of (emitted t "")).
Proof.
  intros Hp Hs Ht. unfold keys_of.
  apply (NoDup_map_inv getKeys).
  replace (map getKeys (map fst (emitted t "")))
    with (map fst (map decode_entry (emitted t ""))).
  - rewrite (decode_emitted t "" [] Hs); [|now split|congruence].
    rewrite map_under_nil. now apply leaves_NoDup.
  - rewrite !map_map. reflexivity.
Qed.

(** C1 (as amended). For every tree [t] that is a mapping built from
    primitives and mappings only, that stores no empty mapping, in which no
    key holding a mapping ends in a backslash, whose own empty key, if
    any, holds no mapping, and none of whose keys is [__proto__],
    [Unflatten(Flatten(t))] returns a tree deep-equal to [t]. *)
Theorem flatten_unflatten_round_trip (t : value) :
  round_trippable t = true ->
  exists r, flatten_unflatten t = Ret r /\ deep_equal r t = true.
Proof.
  unfold round_trippable. rewrite !andb_true_iff.
  intros [[[[[Ho Hp] Hnm] Hs] Ht] _].
  unfold flatten_unflatten, flattenJsonWithEscaping.
  destruct t as [| | | | |k ps]; try discriminate.
  cbn [typeof_object is_object negb orb bind unflattenJson].
  eexists. split; [reflexivity|].
  rewrite fold_left_decode, <- build_fold.
  apply build_leaves; try assumption.
  rewrite recurse_emitted.
  rewrite <- (map_under_nil (leaves (VObj k ps))).
  rewrite <- (decode_emitted (VObj k ps) "" [] Hs); [|now split|congruence].
  apply Permutation_map.
  apply (fold_set_prop_perm _ (emitted (VObj k ps) "") []).
  now apply emitted_keys_NoDup.
Qed.

Lemma flatten_unflatten_round_trip_witness :
  round_trippable nestedData3 = true
  /\ exists r, flatten_unflatten nestedData3 = Ret r
               /\ deep_equal r nestedData3 = true.
Proof.
  split; [reflexivity|].
  apply (flatten_unflatten_round_trip nestedData3). reflexivity.
Defined.

(** C1 as stated fails: a tree without empty mappings whose key ["a\"]
    holds a mapping comes back with the single key ["a.b"]; a tree whose
    empty key holds a mapping loses that level; and an array comes back as
    a mapping. *)
Lemma flatten_unflatten_not_identity :
  let t1 := object_of [(String "a" (String backslash ""),
                        object_of [("b", VNum 1)])] in
  let t2 := object_of [("", object_of [("a", VNum 1)])] in
  let t3 := object_of [("a", array_of [VNum 1])] in
  (plain_tree t1 && no_empty_mapping t1 = true
   /\ flatten_unflatten t1 = Ret (object_of [("a.b", VNum 1)])
   /\ deep_equal (object_of [("a.b", VNum 1)]) t1 = false)
  /\ (plain_tree t2 && no_empty_mapping t2 = true
      /\ flatten_unflatten t2 = Ret (object_of [("a", VNum 1)])
      /\ deep_equal (object_of [("a", VNum 1)]) t2 = false)
  /\ (no_empty_mapping t3 = true
      /\ flatten_unflatten t3
         = Ret (object_of [("a", object_of [("0", VNum 1)])])
      /\ deep_equal (object_of [("a", object_of [("0", VNum 1)])]) t3
         = false).
Proof. repeat split. Qed.

(** ** Read, write and search *)

(** The value the walk of a write continues in is a mapping. *)
Lemma next_is_object (child : value) :
  exists kd ps,
    (if negb (truthy child) || negb (typeof_object child)
     then empty_object else child) = VObj kd ps.
Proof.
  destruct child as [| |b|n|s|kd ps]; simpl;
    try (now exists KPlain, []).
  - destruct (negb b); simpl; now exists KPlain, [].
  - destruct (negb (number_truthy n)); simpl; now exists KPlain, [].
  - destruct (negb (negb (s =? ""))); simpl; now exists KPlain, [].
  - now exists kd, ps.
Qed.

Lemma set_path_descend (keys : list string) :
  keys <> [] ->
  forall kd ps v, descend (set_path (VObj kd ps) keys v) keys = v.
Proof.
  induction keys as [|key rest IH]; [congruence|].
  intros _ kd ps v.
  destruct (lookup_set_path kd ps key rest v) as [ps' [E [_ Hl]]].
  rewrite E. specialize (Hl key). rewrite String.eqb_refl in Hl.
  cbn [descend truthy typeof_object andb in_object get_prop].
  unfold has_key. rewrite Hl.
  destruct rest as [|key2 rest]; [reflexivity|].
  unfold step_under. cbn [fst snd].
  destruct (next_is_object
              match lookup key ps with Some w => w | None => VUndef end)
    as [kd' [ps'' ->]].
  apply IH. discriminate.
Qed.

(** *** With the prototype chain *)

Module ProtoFacts.
Import Proto.

Lemma pobject_at_app (h h' : heap) (l : loc) :
  l < length h -> object_at (h ++ h')%list l = object_at h l.
Proof. intros H. unfold object_at. now apply app_nth1. Qed.

Lemma pobject_at_alloc (h : heap) (o : pobject) :
  object_at (h ++ [o])%list (length h) = o.
Proof.
  unfold object_at. rewrite app_nth2 by lia. now rewrite Nat.sub_diag.
Qed.

Lemma length_pupdate (h : heap) (l : loc) (o : pobject) :
  length (update h l o) = length h.
Proof.
  revert l; induction h as [|x h IH]; intros [|l]; simpl; auto.
Qed.

Lemma pobject_at_update_same (h : heap) (l : loc) (o : pobject) :
  l < length h -> object_at (update h l o) l = o.
Proof.
  unfold object_at. revert l; induction h as [|x h IH]; intros [|l] H;
    simpl in *; try lia; [reflexivity|]. apply IH. lia.
Qed.

Lemma pobject_at_update_other (h : heap) (l l' : loc) (o : pobject) :
  l' <> l -> object_at (update h l o) l' = object_at h l'.
Proof.
  unfold object_at. revert l l'; induction h as [|x h IH];
    intros [|l] [|l'] H; simpl; try reflexivity; try congruence.
  apply IH. congruence.
Qed.

(** A key other than [__proto__] never arrives at the accessor. *)
Lemma find_no_accessor (key : string) :
  (key =? "__proto__") = false ->
  forall fuel h l, find fuel h l key <> Accessor.
Proof.
  intros Hk fuel. induction fuel as [|fuel IH]; intros h l; cbn [find];
    destruct (lookup key (p_props (object_at h l))); try discriminate;
    rewrite Hk, andb_false_r;
    destruct (p_proto (object_at h l)); try discriminate.
  apply IH.
Qed.

(** At such a key the assignment makes or updates an own property. *)
Lemma set_own (h : heap) (l : loc) (key : string) (v : pvalue) :
  (key =? "__proto__") = false ->
  set h l key v
  = (update h l {| p_proto := p_proto (object_at h l);
                   p_props := set_prop key v (p_props (object_at h l)) |},
     Returned).
Proof.
  intros Hk. unfold set.
  pose proof (find_no_accessor key Hk (length h) h l) as H.
  destruct (find (length h) h l key); congruence.
Qed.

Lemma find_own (fuel : nat) (h : heap) (l : loc) (key : string) (v : pvalue) :
  lookup key (p_props (object_at h l)) = Some v -> find fuel h l key = Data v.
Proof. intros H. destruct fuel; cbn [find]; now rewrite H. Qed.

(** What [Object.prototype], as a program finds it, has under a key other
    than [__proto__] : a builtin function or nothing. *)
Lemma find_in_object_prototype (fuel : nat) (h : heap) (key : string) :
  object_at h 0 = object_prototype -> (key =? "__proto__") = false ->
  find fuel h 0 key = Missing \/ exists name, find fuel h 0 key = Data (PFun name).
Proof.
  intros H0 Hk.
  assert (E : find fuel h 0 key
              = match lookup key (p_props object_prototype) with
                | Some v => Data v
                | None => Missing
                end).
  { destruct fuel; cbn [find]; rewrite H0;
      destruct (lookup key (p_props object_prototype)); try reflexivity;
      now rewrite Hk. }
  rewrite E. unfold object_prototype, builtin_methods. cbn [p_props map lookup].
  repeat match goal with
         | |- context [if ?k =? key then _ else _] =>
             destruct (k =? key); [right; eexists; reflexivity|]
         end.
  now left.
Qed.

(** So the object [{}] has no object under such a key. *)
Lemma get_of_empty (h : heap) (l : loc) (key : string) :
  object_at h 0 = object_prototype -> object_at h l = empty_pobject ->
  (key =? "__proto__") = false ->
  forall l', get h l key <> PRef l'.
Proof.
  intros H0 Hl Hk l'. unfold get.
  assert (E : find (length h) h l key = Missing
              \/ exists name, find (length h) h l key = Data (PFun name)).
  { destruct (length h) as [|fuel]; cbn [find]; rewrite Hl;
      cbn [empty_pobject p_props lookup p_proto].
    - destruct ((l =? 0)%nat && (key =? "__proto__")) eqn:E; [|now left].
      rewrite Hk, andb_false_r in E. discriminate.
    - rewrite Hk, andb_false_r. now apply find_in_object_prototype. }
  destruct E as [->|[name ->]]; discriminate.
Qed.

Lemma has_own (h : heap) (l : loc) (key : string) (v : pvalue) :
  lookup key (p_props (object_at h l)) = Some v ->
  has h l key = true /\ get h l key = v.
Proof.
  intros H. unfold has, get. now rewrite (find_own _ _ _ _ _ H).
Qed.

(** Writing along keys none of which is [__proto__], from an object [{}]
    that has just been made: the write returns, leaves every other object
    there was as it is, and the read along the same keys finds the
    value. *)
Lemma set_path_from_empty (keys : list string) :
  keys <> [] ->
  forallb (fun key => negb (key =? "__proto__")) keys = true ->
  forall h l v,
    object_at h 0 = object_prototype -> l < length h ->
    object_at h l = empty_pobject ->
    exists h',
      set_path h l keys v = (h', Returned)
      /\ length h <= length h'
      /\ (forall l', l' < length h -> l' <> l ->
                     object_at h' l' = object_at h l')
      /\ descend h' (PRef l) keys = v
      /\ descend_has h' (PRef l) keys = true.
Proof.
  induction keys as [|key rest IH]; [congruence|]. intros _ Hks h l v H0 Hl He.
  cbn [forallb] in Hks. apply andb_true_iff in Hks. destruct Hks as [Hk Hks].
  apply negb_true_iff in Hk.
  assert (Hl0 : l <> 0).
  { intros ->. rewrite H0 in He. discriminate. }
  destruct rest as [|key2 rest].
  - cbn [set_path]. rewrite (set_own h l key v Hk).
    eexists. split; [reflexivity|]. rewrite length_pupdate.
    split; [lia|]. split.
    { intros l' _ Hne. now apply pobject_at_update_other. }
    cbn [descend descend_has truthy typeof_object andb].
    destruct (has_own (update h l
                         {| p_proto := p_proto (object_at h l);
                            p_props := set_prop key v (p_props (object_at h l)) |})
                l key v) as [Hh Hg].
    { rewrite pobject_at_update_same by exact Hl. cbn [p_props].
      rewrite lookup_set_prop. now rewrite String.eqb_refl. }
    rewrite Hh, Hg. now split.
  - change (set_path h l (key :: key2 :: rest) v)
      with (match get h l key with
            | PRef l' => set_path h l' (key2 :: rest) v
            | _ =>
                let (h1, l') := alloc h empty_pobject in
                match set h1 l key (PRef l') with
                | (h2, Returned) => set_path h2 l' (key2 :: rest) v
                | stopped => stopped
                end
            end).
    pose proof (get_of_empty h l key H0 He Hk) as Hg.
    set (h1 := (h ++ [empty_pobject])%list).
    set (h2 := update h1 l
                 {| p_proto := p_proto (object_at h1 l);
                    p_props := set_prop key (PRef (length h))
                                 (p_props (object_at h1 l)) |}).
    assert (Hstep : match get h l key with
                    | PRef l' => set_path h l' (key2 :: rest) v
                    | _ =>
                        let (h1, l') := alloc h empty_pobject in
                        match set h1 l key (PRef l') with
                        | (h2, Returned) => set_path h2 l' (key2 :: rest) v
                        | stopped => stopped
                        end
                    end
                    = set_path h2 (length h) (key2 :: rest) v).
    { destruct (get h l key) as [| | | | | |l'] eqn:Eg;
        try (unfold alloc; fold h1; rewrite (set_own h1 l key _ Hk);
             reflexivity).
      now destruct (Hg l'). }
    rewrite Hstep. clear Hstep.
    assert (Hlen1 : length h1 = S (length h)).
    { unfold h1. rewrite length_app. simpl. lia. }
    assert (Hlen2 : length h2 = S (length h)).
    { unfold h2. now rewrite length_pupdate. }
    assert (H1l : object_at h1 l = empty_pobject).
    { unfold h1. now rewrite pobject_at_app. }
    destruct (IH ltac:(discriminate) Hks h2 (length h) v) as [h' [Es [Hle [Hfr [Hd Hh]]]]].
    + unfold h2. rewrite pobject_at_update_other by exact (not_eq_sym Hl0).
      unfold h1. rewrite pobject_at_app by lia. exact H0.
    + lia.
    + unfold h2. rewrite pobject_at_update_other by lia.
      unfold h1. apply pobject_at_alloc.
    + exists h'. split; [exact Es|]. split; [lia|]. split.
      { intros l' Hl' Hne. rewrite Hfr by lia.
        unfold h2. rewrite pobject_at_update_other by exact Hne.
        unfold h1. now apply pobject_at_app. }
      assert (Hown : lookup key (p_props (object_at h' l))
                     = Some (PRef (length h))).
      { rewrite Hfr by lia. unfold h2.
        rewrite pobject_at_update_same by lia. cbn [p_props].
        rewrite lookup_set_prop. now rewrite String.eqb_refl. }
      destruct (has_own h' l key _ Hown) as [Hhas Hget].
      cbn [descend descend_has truthy typeof_object andb].
      rewrite Hhas, Hget. now split.
Qed.

(** C5 (as amended). For every heap in which [Object.prototype] is as a
    program finds it, every path none of whose segments is [__proto__] and
    every value [v] : writing [v] at the path into a new empty tree [{}]
    returns, and reading the path from the tree so obtained returns
    exactly [v]. *)
Theorem write_then_read (h : heap) (p : string) (v : pvalue) :
  object_at h 0 = object_prototype ->
  forallb (fun key => negb (key =? "__proto__")) (getKeys p) = true ->
  let (h0, emptyTree) := with_empty_tree h in
  exists h',
    setNestedValueWithEscaping h0 (PRef emptyTree) (PStr p) v = (h', Returned)
    /\ getNestedValueWithEscaping h' (PRef emptyTree) (PStr p) = Ret v.
Proof.
  intros H0 Hk. unfold with_empty_tree, alloc.
  assert (Hlen : 0 < length h).
  { destruct h; [discriminate | simpl; lia]. }
  destruct (set_path_from_empty (getKeys p) (getKeys_nonempty p) Hk
              (h ++ [empty_pobject])%list (length h) v)
    as [h' [Es [_ [_ [Hd _]]]]].
  - now rewrite pobject_at_app.
  - rewrite length_app. simpl. lia.
  - apply pobject_at_alloc.
  - exists h'. split; [exact Es|].
    unfold getNestedValueWithEscaping. cbn [truthy typeof_object negb orb].
    now rewrite Hd.
Qed.

Lemma write_then_read_witness :
  object_at world 0 = object_prototype
  /\ forallb (fun key => negb (key =? "__proto__"))
       (getKeys "toString.a\.b.length") = true
  /\ exists h',
       setNestedValueWithEscaping (fst (with_empty_tree world)) (PRef 1)
         (PStr "toString.a\.b.length") (PRef 0) = (h', Returned)
       /\ getNestedValueWithEscaping h' (PRef 1) (PStr "toString.a\.b.length")
          = Ret (PRef 0).
Proof.
  split; [reflexivity|]. split; [reflexivity|].
  apply (write_then_read world "toString.a\.b.length" (PRef 0)); reflexivity.
Defined.

(** C5 as stated fails at the path [__proto__].  Writing 5 there into the
    empty tree calls the setter [Object.prototype] defines, which ignores a
    number: the tree is left as it was, and the read returns its
    prototype.  Writing [null] at [a.__proto__] takes the prototype away
    from the new object under [a], which then has no [__proto__] at all:
    the read returns [undefined], and [hasNestedKeyWithEscaping] answers
    [false]. *)
Lemma write_then_read_fails_at_proto :
  let h0 := fst (with_empty_tree world) in
  let emptyTree := PRef (snd (with_empty_tree world)) in
  (setNestedValueWithEscaping h0 emptyTree (PStr "__proto__") (PNum 5)
   = (h0, Returned)
   /\ getNestedValueWithEscaping h0 emptyTree (PStr "__proto__")
      = Ret (PRef 0)
   /\ PRef 0 <> PNum 5)
  /\ (exists h',
         setNestedValueWithEscaping h0 emptyTree (PStr "a.__proto__") PNull
         = (h', Returned)
         /\ getNestedValueWithEscaping h' emptyTree (PStr "a.__proto__")
            = Ret PUndef
         /\ hasNestedKeyWithEscaping h' emptyTree (PStr "a.__proto__")
            = Ret false).
Proof.
  split.
  - repeat split. discriminate.
  - eexists. repeat split.
Qed.

(** Further down the same road: a write through [__proto__] reaches
    [Object.prototype] itself and leaves the tree as it was, so that an
    object made afterwards has the key written; and a write through two of
    them raises, after it has made an object it cannot store. *)
Example write_reaches_object_prototype :
  let h0 := fst (with_empty_tree world) in
  let h1 := fst (setNestedValueWithEscaping h0 (PRef 1)
                   (PStr "__proto__.polluted") (PBool true)) in
  snd (setNestedValueWithEscaping h0 (PRef 1) (PStr "__proto__.polluted")
         (PBool true)) = Returned
  /\ object_at h1 1 = empty_pobject
  /\ get (fst (with_empty_tree h1)) (snd (with_empty_tree h1)) "polluted"
     = PBool true
  /\ snd (setNestedValueWithEscaping h0 (PRef 1)
            (PStr "__proto__.__proto__.x") (PNum 1))
     = Raised (TypeError msg_immutable).
Proof. repeat split. Qed.

End ProtoFacts.

Lemma search_loop_descend (keys : list string) :
  forall current, search_loop current keys = descend current keys.
Proof.
  induction keys as [|key rest IH]; intros current; [reflexivity|].
  simpl. now rewrite IH.
Qed.

(** C6. In every state of the store and for every argument, a string or
    not, [read] and [search] end the same way: the same value (the same
    [undefined] for an absent path) or the same error. *)
Theorem read_search_identical (s : store) (path : value) :
  read s path = search s path.
Proof.
  unfold read, search, getNestedValueWithEscaping,
    searchNestedValueWithEscaping.
  destruct (negb (truthy (jsonObject s)) || negb (typeof_object (jsonObject s)));
    [reflexivity|].
  destruct path as [| | | |p|];
    [reflexivity | reflexivity | reflexivity | reflexivity | | reflexivity].
  exact (f_equal Ret (eq_sym (search_loop_descend (getKeys p) (jsonObject s)))).
Qed.

(** C8. For every tree and every path argument that is not a string,
    Write raises an error and the tree after the call is the tree before
    it; the same holds of the store's [write]. *)
Theorem write_rejects_non_string_path (obj path v : value) :
  is_string path = false ->
  (exists e, setNestedValueWithEscaping obj path v = (obj, Throw e))
  /\ (forall s, exists e, write s path v = (s, Throw e)).
Proof.
  intros Hp.
  assert (H : forall o, exists e,
             setNestedValueWithEscaping o path v = (o, Throw e)).
  { intros o. unfold setNestedValueWithEscaping.
    destruct (negb (typeof_object o) || negb (is_object o));
      [eexists; reflexivity|].
    destruct path; try discriminate; eexists; reflexivity. }
  split; [apply H|].
  intros [o]. unfold write. simpl. destruct (H o) as [e ->].
  now exists e.
Qed.

Lemma write_rejects_non_string_path_witness :
  is_string (VNum 7) = false
  /\ ((exists e, setNestedValueWithEscaping nestedData3 (VNum 7) (VStr "x")
                 = (nestedData3, Throw e))
      /\ (forall s, exists e, write s (VNum 7) (VStr "x") = (s, Throw e))).
Proof.
  split; [reflexivity|].
  apply (write_rejects_non_string_path nestedData3 (VNum 7) (VStr "x")).
  reflexivity.
Defined.

(** ** The store and its escaped keys *)

Lemma escaped_path_keys : getKeys escaped_path = ["escaped.key"; "level"; "nested"].
Proof. reflexivity. Qed.

Lemma write_ok_object (s : store) (p : string) (v : value) :
  is_object (jsonObject s) = true ->
  jsonObject (write_ok s p v) = set_path (jsonObject s) (getKeys p) v.
Proof.
  destruct s as [o]. unfold write_ok, write, setNestedValueWithEscaping.
  simpl. intros H. destruct o; try discriminate. reflexivity.
Qed.

(** Reading a path just written, in any state of the store, as the own
    properties give it. *)
Lemma write_read_store (s : store) (p : string) (v : value) :
  is_object (jsonObject s) = true ->
  read (write_ok s p v) (VStr p) = Ret v.
Proof.
  intros H. unfold read. rewrite (write_ok_object s p v H).
  destruct (jsonObject s) as [| | | | |kd ps]; try discriminate.
  destruct (set_path_object kd ps (getKeys p) v) as [ps' E].
  unfold getNestedValueWithEscaping. rewrite E.
  cbn [truthy typeof_object negb orb]. rewrite <- E.
  f_equal. apply set_path_descend, getKeys_nonempty.
Qed.

(** C2 (as amended). In any state of the store, after
    [write("escaped\.key.level.nested", "x")] the read of the same path
    returns ["x"], and the store's object holds, under the one key
    ["escaped.key"], a mapping in which [level] then [nested] lead to
    ["x"]: the owned tree is nested, not flattened.  From the empty store
    the chain [escaped] then [key] leads nowhere, and [dump], which
    tokenizes the top-level keys once more, returns the tree
    [escaped -> key -> level -> nested -> "x"]. *)
Theorem escaped_key_is_one_segment (s : store) :
  is_object (jsonObject s) = true ->
  let s' := write_ok s escaped_path (VStr "x") in
  read s' (VStr escaped_path) = Ret (VStr "x")
  /\ descend (get_prop (jsonObject s') "escaped.key") ["level"; "nested"]
     = VStr "x"
  /\ (s = createJsonManager ->
      jsonObject s'
      = object_of
          [("escaped.key",
            object_of [("level", object_of [("nested", VStr "x")])])]
      /\ read s' (VStr "escaped.key.level.nested") = Ret VUndef
      /\ dump s'
         = Ret (object_of
                  [("escaped",
                    object_of
                      [("key",
                        object_of
                          [("level", object_of [("nested", VStr "x")])])])])).
Proof.
  intros H s'.
  assert (Hr : read s' (VStr escaped_path) = Ret (VStr "x"))
    by now apply write_read_store.
  split; [exact Hr|]. split.
  - unfold read, getNestedValueWithEscaping in Hr.
    destruct (negb (truthy (jsonObject s')) || negb (typeof_object (jsonObject s')));
      [discriminate|].
    rewrite escaped_path_keys in Hr. inversion Hr as [Hd]. clear Hr.
    cbn [descend] in Hd.
    destruct (truthy (jsonObject s') && typeof_object (jsonObject s')
              && in_object "escaped.key" (jsonObject s'));
      [|discriminate].
    rewrite Hd. exact Hd.
  - intros ->. repeat split.
Qed.

Lemma escaped_key_is_one_segment_witness :
  is_object (jsonObject search_fixture) = true
  /\ read (write_ok search_fixture escaped_path (VStr "x")) (VStr escaped_path)
     = Ret (VStr "x").
Proof.
  split; [reflexivity|].
  apply (escaped_key_is_one_segment search_fixture). reflexivity.
Defined.

(** C2 as stated fails: after the write into the empty store the owned
    object is not flat (its one key holds a mapping), and the tree [dump]
    returns has the top-level key [escaped], not ["escaped.key"]. *)
Lemma dump_splits_escaped_key :
  let s' := write_ok createJsonManager escaped_path (VStr "x") in
  is_object (get_prop (jsonObject s') "escaped.key") = true
  /\ exists d, dump s' = Ret d
               /\ in_object "escaped.key" d = false
               /\ in_object "escaped" d = true.
Proof. split; [reflexivity|]. eexists. repeat split. Qed.

(** ** Search by path *)

(** C4 at its failing inputs.  In the store of the search tests, where
    [escaped\.key.level] holds ["value"], [read] and [hasKey] find the path
    and [has({path})] returns no match; and where a path holds [null],
    [read] returns that [null], [hasKey] answers [true] and [has({path})]
    returns no match. *)
Theorem has_path_differs_from_read :
  (read search_fixture (VStr escaped_level) = Ret (VStr "value")
   /\ hasKey search_fixture (VStr escaped_level) = Ret true
   /\ has search_fixture (path_only escaped_level) = Ret [])
  /\ (let s := write_ok createJsonManager "a" VNull in
      read s (VStr "a") = Ret VNull
      /\ hasKey s (VStr "a") = Ret true
      /\ has s (path_only "a") = Ret []).
Proof. repeat split. Qed.

Lemma searchPath_loop_returns (keys : list string) :
  forall json,
    (forall n, n < length keys ->
               resolves_to_mapping json (firstn n keys) = true) ->
    exists v, searchPath_loop json keys = Ret v.
Proof.
  induction keys as [|key rest IH]; intros json H.
  - now exists json.
  - assert (Ho : is_object json = true).
    { apply (H 0). simpl. lia. }
    destruct json as [| | | | |kd ps]; try discriminate.
    cbn [searchPath_loop truthy is_object].
    destruct (in_object key (VObj kd ps)) eqn:Hin; [|now exists VNull].
    apply IH. intros n Hn.
    specialize (H (S n)). simpl length in H.
    unfold resolves_to_mapping in *. simpl firstn in H.
    cbn [searchPath_loop truthy is_object] in H. rewrite Hin in H.
    apply H. lia.
Qed.

(** The walk of [searchPath] raises as soon as a proper prefix of its keys
    resolves to a truthy primitive. *)
Lemma searchPath_loop_raises (keys : list string) :
  forall json n,
    n < length keys ->
    resolves_to_truthy_primitive json (firstn n keys) = true ->
    raises (searchPath_loop json keys) = true.
Proof.
  unfold resolves_to_truthy_primitive.
  induction keys as [|key rest IH]; intros json n Hn H; [simpl in Hn; lia|].
  destruct n as [|n].
  - simpl in H. apply andb_true_iff in H. destruct H as [Ht Ho].
    cbn [searchPath_loop]. rewrite Ht.
    apply negb_true_iff in Ho. now rewrite Ho.
  - simpl firstn in H. cbn [searchPath_loop] in *.
    destruct (truthy json); [|discriminate].
    destruct (is_object json); [|reflexivity].
    destruct (in_object key json); [|discriminate].
    apply (IH _ n); [simpl in Hn; lia | exact H].
Qed.

(** Where every proper prefix of the keys leads, as [read] follows them,
    to a mapping, the walk of [searchPath] returns. *)
Lemma searchPath_loop_through_mappings (keys : list string) :
  forall json,
    (forall n, n < length keys ->
               is_object (descend json (firstn n keys)) = true) ->
    exists v, searchPath_loop json keys = Ret v.
Proof.
  induction keys as [|key rest IH]; intros json H.
  - now exists json.
  - assert (Ho : is_object json = true).
    { apply (H 0). simpl. lia. }
    destruct json as [| | | | |kd ps]; try discriminate.
    cbn [searchPath_loop truthy is_object].
    destruct (in_object key (VObj kd ps)) eqn:Hin; [|now exists VNull].
    apply IH. intros n Hn.
    specialize (H (S n)). simpl length in H. simpl firstn in H.
    cbn [descend truthy typeof_object andb] in H. rewrite Hin in H.
    apply H. lia.
Qed.

(** C10 (as amended). For every path [p] that the walk of [has] splits
    into the keys [read] follows (every path without a backslash is one,
    [getKeys_no_backslash]), [has({path: p})] returns normally whenever
    every proper prefix of [p] resolves to a mapping; and there is a store
    and such a path, with a proper prefix that resolves to a non-empty
    string, on which [has] raises while [read] of the same path returns
    [undefined]. *)
Theorem has_path_raises_on_primitive :
  (forall (s : store) (p : string),
      searchPath_keys p = getKeys p ->
      (forall n, n < length (getKeys p) ->
                 is_object (descend (jsonObject s) (firstn n (getKeys p)))
                 = true) ->
      raises (has s (path_only p)) = false)
  /\ (exists (s : store) (p : string) (n : nat),
         searchPath_keys p = getKeys p
         /\ n < length (getKeys p)
         /\ (let v := descend (jsonObject s) (firstn n (getKeys p)) in
             truthy v && negb (is_object v) = true)
         /\ raises (has s (path_only p)) = true
         /\ read s (VStr p) = Ret VUndef).
Proof.
  split.
  - intros s p Hk H. unfold has, searchJson, path_matches, path_only.
    cbn [c_path]. destruct (negb (p =? "")); [|reflexivity].
    unfold searchPath. fold (searchPath_keys p). rewrite Hk.
    destruct (searchPath_loop_through_mappings _ _ H) as [v ->]. reflexivity.
  - exists (write_ok createJsonManager "a" (VStr "str")), "a.b", 1.
    repeat split. simpl. lia.
Qed.

Lemma has_path_raises_on_primitive_witness :
  searchPath_keys "nest.secondnest.third.value"
  = getKeys "nest.secondnest.third.value"
  /\ raises (has search_fixture (path_only "nest.secondnest.third.value"))
     = false.
Proof.
  split; [reflexivity|].
  apply (proj1 has_path_raises_on_primitive search_fixture
           "nest.secondnest.third.value"); [reflexivity|].
  intros n Hn.
  do 4 (destruct n as [|n]; [reflexivity|]).
  simpl in Hn. lia.
Defined.

(** C10 as stated fails.  In the store that holds the string ["s"] under
    [escaped] and a mapping under the one key ["escaped.key"], every proper
    prefix of the path [escaped\.key.level] resolves to a mapping (the
    store's object itself, then the mapping under ["escaped.key"]) and
    [read] returns the value at the path; yet [has] raises, because its
    walk goes through the key [escaped] and applies [in] to the string. *)
Lemma has_path_raises_below_mappings :
  let s := write_ok (write_ok createJsonManager "escaped" (VStr "s"))
             escaped_level (VNum 1) in
  getKeys escaped_level = ["escaped.key"; "level"]
  /\ searchPath_keys escaped_level = ["escaped"; "key"; "level"]
  /\ is_object (descend (jsonObject s) []) = true
  /\ is_object (descend (jsonObject s) ["escaped.key"]) = true
  /\ read s (VStr escaped_level) = Ret (VNum 1)
  /\ has s (path_only escaped_level)
     = Throw (TypeError "Cannot use 'in' operator").
Proof. repeat split. Qed.

(** ** Search by [like], [keywords] and [regex] *)

Lemma push_if_app (b : bool) (m : smatch) (results : list smatch) :
  push_if b m results = (results ++ (if b then [m] else []))%list.
Proof. destruct b; simpl; [reflexivity | now rewrite List.app_nil_r]. Qed.

Lemma like_matches_spec (c : criteria) (fullPath : string) (v : value) :
  c_like c <> Some "" ->
  like_matches c fullPath
  = spec_like c {| m_path := fullPath; m_value := v |}.
Proof.
  unfold like_matches, spec_like. intros H.
  destruct (c_like c) as [l|]; [|reflexivity].
  destruct (String.eqb_spec l "") as [->|Hne]; [congruence | reflexivity].
Qed.

Lemma regex_matches_spec (c : criteria) (fullPath : string) (v : value)
  (lastIndex : nat) :
  flagless_regex c = true ->
  regex_matches c fullPath lastIndex
  = (spec_regex c {| m_path := fullPath; m_value := v |}, lastIndex).
Proof.
  unfold flagless_regex, regex_matches, spec_regex, regexp_test. intros H.
  destruct (c_regex c) as [r|]; [|reflexivity].
  apply negb_true_iff in H. rewrite H. cbn [m_path].
  now destruct (re_exec r 0 fullPath).
Qed.

(** With an expression that keeps no state, [deepSearch] appends to
    [results] the matches of every node, in traversal order, and leaves
    [lastIndex] as it was. *)
Lemma deepSearch_nodes (c : criteria) :
  c_like c <> Some "" -> flagless_regex c = true ->
  forall obj currentPath st,
    deepSearch c obj currentPath st
    = ((fst st ++ flat_map (node_matches c) (nodes obj currentPath))%list,
       snd st).
Proof.
  intros Hl Hr obj.
  induction obj as [| | | | |kd ps IH] using value_ind;
    intros currentPath st;
    try (destruct st; simpl; now rewrite List.app_nil_r).
  cbn [deepSearch nodes]. revert st.
  induction IH as [|[key child] ps Hc _ IHps]; intros st.
  - destruct st. simpl. now rewrite List.app_nil_r.
  - cbn [fold_left flat_map fst snd]. rewrite IHps. clear IHps.
    destruct st as [results li]. cbn [fst snd].
    set (fp := join_key currentPath (escapeKey key)).
    set (m := {| m_path := fp; m_value := child |}).
    rewrite (regex_matches_spec c fp child li Hr). fold m. cbn [fst snd].
    rewrite !push_if_app.
    rewrite (like_matches_spec c fp child Hl). fold m.
    change (keywords_match c fp child) with (spec_keywords c m).
    simpl in Hc. destruct (is_object child).
    + rewrite Hc. cbn [fst snd]. f_equal.
      rewrite flat_map_app. cbn [flat_map]. unfold node_matches at 3.
      rewrite <- !List.app_assoc. reflexivity.
    + cbn [fst snd]. f_equal.
      rewrite flat_map_app. cbn [flat_map]. unfold node_matches at 2.
      rewrite <- !List.app_assoc. reflexivity.
Qed.

(** C7 (as amended). For every tree and all criteria whose [like], if
    given, is not the empty string and whose [regex], if given, has
    neither the [g] nor the [y] flag, [has] returns the matches of the path
    criterion followed by those of one depth-first traversal that visits
    every key at every depth, a key before the keys below it and with the
    whole value it holds, and appends one match for each of [like],
    [keywords] and [regex] the key satisfies, so that a key satisfying two
    of them appears twice. *)
Theorem has_reports_each_criterion (s : store) (c : criteria) :
  c_like c <> Some "" -> flagless_regex c = true ->
  has s c
  = (found <- path_matches (jsonObject s) c ;;
     Ret (found ++ spec_deep_matches (jsonObject s) c)%list).
Proof.
  intros Hl Hr. unfold has, searchJson.
  destruct (path_matches (jsonObject s) c) as [found|e]; [|reflexivity].
  cbn [bind]. f_equal. unfold wants_deep_search, spec_deep_matches.
  destruct (c_like c) as [l|] eqn:El.
  - destruct (String.eqb_spec l "") as [->|Hne]; [congruence|].
    cbn [negb orb is_some]. rewrite deepSearch_nodes; [reflexivity| |exact Hr].
    congruence.
  - cbn [orb is_some].
    destruct (is_some (c_keywords c) || is_some (c_regex c)) eqn:E.
    + replace (match c_keywords c with Some _ => true | None => false end
               || match c_regex c with Some _ => true | None => false end)
        with true by (symmetry; exact E).
      rewrite deepSearch_nodes; [reflexivity| |exact Hr]. congruence.
    + replace (match c_keywords c with Some _ => true | None => false end
               || match c_regex c with Some _ => true | None => false end)
        with false by (symmetry; exact E).
      now rewrite List.app_nil_r.
Qed.

Lemma has_reports_each_criterion_witness :
  c_like (like_only "like") <> Some ""
  /\ flagless_regex (like_only "like") = true
  /\ has search_fixture (like_only "like")
     = Ret [ {| m_path := "example.like";
                m_value := object_of [("path", VStr "test")] |};
             {| m_path := "example.like.path"; m_value := VStr "test" |} ].
Proof.
  split; [discriminate|]. split; [reflexivity|].
  rewrite (has_reports_each_criterion search_fixture (like_only "like"));
    [reflexivity | discriminate | reflexivity].
Defined.

(** C7 as stated fails twice.  With the criteria [{ like: "" }] the empty
    string is present and appears in the path of the key [a], yet [has]
    reports nothing.  And with [{ regex: /a/g }] on the store that holds
    the keys [a] and [ab], the test of the key [a] leaves [lastIndex] at
    1, so that the test of [ab] starts after its only [a] and fails: [has]
    reports [a] alone although the pattern matches both paths. *)
Lemma has_misses_matches :
  (let s := write_ok createJsonManager "a" (VNum 1) in
   has s (like_only "") = Ret []
   /\ spec_deep_matches (jsonObject s) (like_only "")
      = [ {| m_path := "a"; m_value := VNum 1 |} ])
  /\ (let s := write_ok (write_ok createJsonManager "a" (VNum 1))
                 "ab" (VNum 2) in
      has s (regex_only regex_a_global)
      = Ret [ {| m_path := "a"; m_value := VNum 1 |} ]
      /\ spec_deep_matches (jsonObject s) (regex_only regex_a_global)
         = [ {| m_path := "a"; m_value := VNum 1 |};
             {| m_path := "ab"; m_value := VNum 2 |} ]
      /\ lastIndex_after (jsonObject s) (regex_only regex_a_global) = 0).
Proof. repeat split. Qed.

(** ** Arrays *)

Lemma is_object_as_mappings (v : value) :
  is_object (as_mappings v) = is_object v.
Proof. now destruct v. Qed.

Lemma recurse_as_mappings (v : value) :
  forall keyPrefix result,
    recurse (as_mappings v) keyPrefix result = recurse v keyPrefix result.
Proof.
  induction v as [| | | | |kd ps IH] using value_ind; try reflexivity.
  intros keyPrefix. cbn [as_mappings recurse].
  induction IH as [|[key child] ps Hc _ IHps]; intros result;
    [reflexivity|].
  cbn [map fold_left fst snd]. rewrite IHps. f_equal.
  rewrite is_object_as_mappings. simpl in Hc.
  destruct (is_object child) eqn:Ho; [apply Hc|].
  destruct child; try discriminate; reflexivity.
Qed.

Lemma uint_of_char_not_dot (c : ascii) (d u : Decimal.uint) :
  uint_of_char c (Some d) = Some u -> Ascii.eqb c dot = false.
Proof.
  destruct c as [[] [] [] [] [] [] [] []]; simpl; intros H;
    try discriminate; reflexivity.
Qed.

(** A string of decimal digits has no dot to escape. *)
Lemma escapeKey_digits (s : string) :
  NilEmpty.uint_of_string s <> None -> escapeKey s = s.
Proof.
  induction s as [|c s IH]; [reflexivity|].
  simpl. intros H.
  destruct (NilEmpty.uint_of_string s) as [d|] eqn:E.
  - destruct (uint_of_char c (Some d)) as [u|] eqn:Ec;
      [|congruence].
    rewrite (uint_of_char_not_dot c d u Ec). f_equal. apply IH. discriminate.
  - exfalso. apply H.
    destruct c as [[] [] [] [] [] [] [] []]; reflexivity.
Qed.

Lemma escapeKey_index_string (i : N) :
  escapeKey (index_string i) = index_string i.
Proof.
  apply escapeKey_digits. unfold index_string.
  rewrite NilEmpty.usu. discriminate.
Qed.

(** The entries Flatten records for an array of primitives: one for each
    element, under the index of the element. *)
Lemma emitted_array_from (elems : list value) (keyPrefix : string) :
  Forall (fun e => is_object e = false) elems ->
  forall start,
    flat_map (fun kv =>
                let newKey := join_key keyPrefix (escapeKey (fst kv)) in
                if is_object (snd kv) then emitted (snd kv) newKey
                else [(newKey, snd kv)])
             (combine (map (fun i => index_string (N.of_nat i))
                           (seq start (length elems))) elems)
    = combine (map (fun i => join_key keyPrefix (index_string (N.of_nat i)))
                   (seq start (length elems))) elems.
Proof.
  induction 1 as [|e elems He _ IH]; intros start; [reflexivity|].
  cbn [length seq map combine flat_map fst snd].
  rewrite He, escapeKey_index_string, IH. reflexivity.
Qed.

Lemma recurse_array (elems : list value) (keyPrefix : string) (result : props) :
  Forall (fun e => is_object e = false) elems ->
  recurse (array_of elems) keyPrefix result
  = fold_left assign_entry
      (combine (map (fun i => join_key keyPrefix (index_string (N.of_nat i)))
                    (seq 0 (length elems))) elems)
      result.
Proof.
  intros H. rewrite recurse_emitted. f_equal.
  unfold array_of. cbn [emitted]. now apply emitted_array_from.
Qed.

Lemma push_if_relabel (b : bool) (m : smatch) (results : list smatch) :
  push_if b (relabel_match m) (map relabel_match results)
  = map relabel_match (push_if b m results).
Proof.
  destruct b; [|reflexivity]. simpl. now rewrite map_app.
Qed.

Lemma keywords_match_as_mappings (c : criteria) (fullPath : string)
  (v : value) :
  keywords_match c fullPath (as_mappings v) = keywords_match c fullPath v.
Proof. now destruct v. Qed.

(** [deepSearch] goes through a tree whose arrays are relabelled as
    mappings exactly as it goes through the tree itself. *)
Lemma deepSearch_as_mappings (c : criteria) (v : value) :
  forall currentPath st,
    deepSearch c (as_mappings v) currentPath
      (map relabel_match (fst st), snd st)
    = (map relabel_match (fst (deepSearch c v currentPath st)),
       snd (deepSearch c v currentPath st)).
Proof.
  induction v as [| | | | |kd ps IH] using value_ind; try reflexivity.
  intros currentPath. cbn [as_mappings deepSearch].
  induction IH as [|[key child] ps Hc _ IHps]; intros st; [reflexivity|].
  cbn [map fold_left fst snd].
  set (fp := join_key currentPath (escapeKey key)).
  set (m := {| m_path := fp; m_value := child |}).
  change {| m_path := fp; m_value := as_mappings child |}
    with (relabel_match m).
  rewrite keywords_match_as_mappings, is_object_as_mappings.
  rewrite !push_if_relabel.
  set (st3 := (push_if (fst (regex_matches c fp (snd st))) m
                 (push_if (keywords_match c fp child) m
                    (push_if (like_matches c fp) m (fst st))),
               snd (regex_matches c fp (snd st)))).
  change (map relabel_match
            (push_if (fst (regex_matches c fp (snd st))) m
               (push_if (keywords_match c fp child) m
                  (push_if (like_matches c fp) m (fst st)))),
          snd (regex_matches c fp (snd st)))
    with (map relabel_match (fst st3), snd st3).
  simpl in Hc. destruct (is_object child).
  - rewrite Hc. apply IHps.
  - apply IHps.
Qed.

(** C3 (as amended). Flatten treats an array exactly as the mapping from
    its indices to its elements: relabelling every array of a tree as that
    mapping leaves the result of Flatten unchanged; and for an array of
    primitives reached with the accumulated path [keyPrefix], Flatten
    assigns each element to [result] under [keyPrefix.index], in the order
    of the indices, and nothing under [keyPrefix] itself.  The traversal of
    [has] visits the elements of an array as keys in the same way:
    [deepSearch] reports for the relabelled tree the matches it reports
    for the tree, with the same paths in the same order, whatever the
    criteria. *)
Theorem flatten_traverses_arrays :
  (forall t,
      flattenJsonWithEscaping t = flattenJsonWithEscaping (as_mappings t))
  /\ (forall elems keyPrefix result,
         Forall (fun e => is_object e = false) elems ->
         recurse (array_of elems) keyPrefix result
         = fold_left assign_entry
             (combine
                (map (fun i => join_key keyPrefix (index_string (N.of_nat i)))
                     (seq 0 (length elems)))
                elems)
             result)
  /\ (forall c t currentPath lastIndex,
         fst (deepSearch c (as_mappings t) currentPath ([], lastIndex))
         = map relabel_match
             (fst (deepSearch c t currentPath ([], lastIndex))))
  /\ (forall c t,
         c_path c = None ->
         has {| jsonObject := as_mappings t |} c
         = (found <- has {| jsonObject := t |} c ;;
            Ret (map relabel_match found))).
Proof.
  split; [|split; [|split]].
  - intros t. unfold flattenJsonWithEscaping.
    destruct t as [| | | | |kd ps]; try reflexivity.
    cbn [as_mappings typeof_object is_object negb orb].
    now rewrite <- (recurse_as_mappings (VObj kd ps)).
  - intros elems keyPrefix result. apply recurse_array.
  - intros c t currentPath lastIndex.
    pose proof (deepSearch_as_mappings c t currentPath ([], lastIndex)) as H.
    cbn [fst snd map] in H. now rewrite H.
  - intros c t Hp. unfold has, searchJson, path_matches. rewrite Hp.
    cbn [bind jsonObject]. f_equal.
    destruct (wants_deep_search c); [|reflexivity].
    pose proof (deepSearch_as_mappings c t "" ([], lastIndex_of c)) as H.
    cbn [fst snd map] in H. now rewrite H.
Qed.

Lemma flatten_traverses_arrays_witness :
  (Forall (fun e => is_object e = false) [VNum 1; VNum 2]
   /\ recurse (array_of [VNum 1; VNum 2]) "a" []
      = [("a.0", VNum 1); ("a.1", VNum 2)])
  /\ (c_path (like_only "a.") = None
      /\ has {| jsonObject :=
                  as_mappings (object_of [("a", array_of [VNum 1; VNum 2])]) |}
             (like_only "a.")
         = Ret [ {| m_path := "a.0"; m_value := VNum 1 |};
                 {| m_path := "a.1"; m_value := VNum 2 |} ]).
Proof.
  assert (H : Forall (fun e => is_object e = false) [VNum 1; VNum 2])
    by (repeat constructor).
  split; split; [exact H | | reflexivity | ].
  - rewrite (proj1 (proj2 flatten_traverses_arrays) [VNum 1; VNum 2] "a" [] H).
    reflexivity.
  - rewrite (proj2 (proj2 (proj2 flatten_traverses_arrays)) (like_only "a.")
               (object_of [("a", array_of [VNum 1; VNum 2])]) eq_refl).
    reflexivity.
Defined.

(** C3 as stated fails: the array under [a] is not recorded whole;
    Flatten records its two elements under [a.0] and [a.1], and the
    traversal of [has] visits them as keys too. *)
Lemma flatten_array_per_index :
  let t := object_of [("a", array_of [VNum 1; VNum 2])] in
  flatten_opaque t = Ret (object_of [("a", array_of [VNum 1; VNum 2])])
  /\ flattenJsonWithEscaping t
     = Ret (object_of [("a.0", VNum 1); ("a.1", VNum 2)])
  /\ has {| jsonObject := t |} (like_only "a.")
     = Ret [ {| m_path := "a.0"; m_value := VNum 1 |};
             {| m_path := "a.1"; m_value := VNum 2 |} ].
Proof. repeat split. Qed.

(** ** The dumped object and the store *)

Module HeapFacts.
Import Heap.

Lemma object_at_app_l (h h' : heap) (l : loc) :
  l < length h -> object_at (h ++ h')%list l = object_at h l.
Proof. intros H. unfold object_at. now apply app_nth1. Qed.

Lemma object_at_beyond (h : heap) (l : loc) :
  length h <= l -> object_at h l = empty_hobject.
Proof. intros H. unfold object_at. now apply nth_overflow. Qed.

Lemma object_at_alloc (h : heap) (o : hobject) :
  object_at (h ++ [o])%list (length h) = o.
Proof. unfold object_at. now rewrite nth_middle. Qed.

Lemma length_update (h : heap) (l : loc) (o : hobject) :
  length (update h l o) = length h.
Proof.
  revert l; induction h as [|x h IH]; intros [|l]; simpl; auto.
Qed.

Lemma object_at_update_other (h : heap) (l l' : loc) (o : hobject) :
  l' <> l -> object_at (update h l o) l' = object_at h l'.
Proof.
  unfold object_at. revert l l'.
  induction h as [|x h IH]; intros [|l] [|l'] H; simpl; auto; congruence.
Qed.

Lemma object_at_update_same (h : heap) (l : loc) (o : hobject) :
  l < length h -> object_at (update h l o) l = o.
Proof.
  unfold object_at. revert l.
  induction h as [|x h IH]; intros [|l] H; simpl in *; try lia; auto.
  apply IH. lia.
Qed.

Lemma update_beyond (h : heap) (l : loc) (o : hobject) :
  length h <= l -> update h l o = h.
Proof.
  revert l; induction h as [|x h IH]; intros [|l] H; simpl in *;
    try reflexivity; try lia.
  f_equal. apply IH. lia.
Qed.

Lemma length_assign (h : heap) (l : loc) (key : string) (v : hvalue) :
  length (assign h l key v) = length h.
Proof. apply length_update. Qed.

Lemma object_at_assign_other (h : heap) (l l' : loc) key v :
  l' <> l -> object_at (assign h l key v) l' = object_at h l'.
Proof. apply object_at_update_other. Qed.

(** A property after an assignment is the assigned one or an old one. *)
Lemma In_set_prop (A : Type) (ps : list (string * A)) key v k w :
  In (k, w) (set_prop key v ps) -> w = v \/ In (k, w) ps.
Proof.
  unfold set_prop. destruct (has_key key ps).
  - induction ps as [|[k' w'] ps IH]; simpl; [tauto|].
    destruct (k' =? key); simpl.
    + intros [E|H]; [inversion E; now left | right; now right].
    + intros [E|H]; [right; now left|].
      destruct (IH H); [now left | right; now right].
  - intros H.
    apply (Permutation_in _ (insert_new_perm A ps key v)) in H.
    destruct H as [E|H]; [inversion E; now left | now right].
Qed.

(** What a mutation leaves alone. *)
Lemma mutation_below (n : nat) (h1 h2 : heap) :
  mutation n h1 h2 ->
  forall l, l < n -> object_at h2 l = object_at h1 l.
Proof.
  induction 1 as [h|h l key v h' Hl _ IH|h l o h' Hl _ IH|h o h' Hl _ IH];
    intros l0 H0.
  - reflexivity.
  - rewrite (IH l0 H0). apply object_at_assign_other. lia.
  - rewrite (IH l0 H0). apply object_at_update_other. lia.
  - rewrite (IH l0 H0). simpl. apply object_at_app_l. lia.
Qed.

(** The walk of a read stays among the objects below [n] when those
    refer to each other only, and reads the same in two heaps that agree
    on them. *)
Lemma descend_agree (n : nat) (h1 h2 : heap) :
  (forall l, l < n -> object_at h2 l = object_at h1 l) ->
  (forall l key v, l < n -> In (key, v) (h_props (object_at h1 l)) ->
                   below n v) ->
  forall keys current,
    below n current -> descend h2 current keys = descend h1 current keys.
Proof.
  intros Hag Hcl keys.
  induction keys as [|key rest IH]; intros current Hb; [reflexivity|].
  cbn [descend].
  assert (Hin : in_object h2 key current = in_object h1 key current).
  { destruct current; try reflexivity. simpl in *. now rewrite Hag. }
  assert (Hget : get_prop h2 current key = get_prop h1 current key).
  { destruct current; try reflexivity. simpl in *. now rewrite Hag. }
  rewrite Hin, Hget.
  destruct (truthy current && typeof_object current
            && in_object h1 key current) eqn:E; [|reflexivity].
  apply IH. destruct current as [| | | | |l]; try exact I.
  simpl in *. destruct (lookup key (h_props (object_at h1 l))) as [v|] eqn:El;
    [|exact I].
  apply lookup_In in El. exact (Hcl l key v Hb El).
Qed.

Lemma below_mono (n m : nat) (v : hvalue) : n <= m -> below n v -> below m v.
Proof. destruct v; simpl; auto. lia. Qed.

Lemma closed_spec (h : heap) :
  closed h <->
  forall l key v, In (key, v) (h_props (object_at h l)) ->
                  below (length h) v.
Proof.
  unfold closed. split.
  - intros H l key v Hin.
    destruct (Nat.lt_ge_cases l (length h)) as [Hl|Hl].
    + rewrite Forall_forall in H.
      assert (Ho : In (object_at h l) h) by (apply nth_In; exact Hl).
      specialize (H _ Ho). rewrite Forall_forall in H.
      exact (H _ Hin).
    + rewrite (object_at_beyond h l Hl) in Hin. contradiction.
  - intros H. apply Forall_forall. intros o Ho.
    apply Forall_forall. intros [key v] Hin.
    apply (In_nth _ _ empty_hobject) in Ho.
    destruct Ho as [l [Hl <-]]. exact (H l key v Hin).
Qed.

Lemma closed_alloc (h : heap) (o : hobject) :
  closed h ->
  (forall key v, In (key, v) (h_props o) -> below (S (length h)) v) ->
  closed (h ++ [o])%list.
Proof.
  intros Hc Ho. apply closed_spec. intros l key v Hin.
  rewrite length_app. simpl. rewrite Nat.add_1_r.
  destruct (Nat.lt_trichotomy l (length h)) as [Hl|[->|Hl]].
  - rewrite object_at_app_l in Hin by exact Hl.
    apply (below_mono (length h)); [lia|].
    exact (proj1 (closed_spec h) Hc l key v Hin).
  - rewrite object_at_alloc in Hin. now apply (Ho key).
  - rewrite object_at_beyond in Hin; [contradiction|].
    rewrite length_app. simpl. lia.
Qed.

Lemma closed_assign (h : heap) (l : loc) key v :
  closed h -> below (length h) v -> closed (assign h l key v).
Proof.
  intros Hc Hv. apply closed_spec. intros l' k w Hin.
  rewrite length_assign.
  destruct (Nat.lt_ge_cases l (length h)) as [Hl|Hl].
  - destruct (Nat.eq_dec l' l) as [->|Hne].
    + unfold assign in Hin. rewrite object_at_update_same in Hin by exact Hl.
      simpl in Hin. apply In_set_prop in Hin. destruct Hin as [->|Hin].
      * exact Hv.
      * exact (proj1 (closed_spec h) Hc l k w Hin).
    + rewrite object_at_assign_other in Hin by exact Hne.
      exact (proj1 (closed_spec h) Hc l' k w Hin).
  - unfold assign in Hin. rewrite update_beyond in Hin by exact Hl.
    exact (proj1 (closed_spec h) Hc l' k w Hin).
Qed.

Lemma get_prop_below (h : heap) (o : hvalue) (key : string) :
  closed h -> below (length h) (get_prop h o key).
Proof.
  intros Hc. destruct o; try exact I. simpl.
  destruct (lookup key (h_props (object_at h l))) as [v|] eqn:E; [|exact I].
  apply lookup_In in E. exact (proj1 (closed_spec h) Hc l key v E).
Qed.

(** A write keeps the heap closed and frees nothing. *)
Lemma set_path_closed (keys : list string) :
  forall h current v,
    closed h -> below (length h) v ->
    closed (set_path h current keys v)
    /\ length h <= length (set_path h current keys v).
Proof.
  induction keys as [|key rest IH]; intros h current v Hc Hv.
  - split; [exact Hc | simpl; lia].
  - cbn [set_path]. destruct rest as [|key2 rest].
    + split; [now apply closed_assign | rewrite length_assign; lia].
    + pose proof (get_prop_below h (HRef current) key Hc) as Hch.
      destruct (get_prop h (HRef current) key) as [| | | | |l].
      6:{ apply IH; assumption. }
      all: cbn [alloc];
        assert (Hc1 : closed (h ++ [empty_hobject])%list)
          by (apply closed_alloc; [exact Hc | intros ? ? []]);
        assert (Hlen : length (h ++ [empty_hobject])%list = S (length h))
          by (rewrite length_app; simpl; lia);
        assert (Hc2 : closed (assign (h ++ [empty_hobject])%list current key
                                (HRef (length h))))
          by (apply closed_assign; [exact Hc1 | simpl; lia]);
        destruct (IH (assign (h ++ [empty_hobject])%list current key
                        (HRef (length h))) (length h) v Hc2) as [Hc3 Hl3];
        [ rewrite length_assign, Hlen; apply (below_mono (length h)); [lia|exact Hv]
        | split; [exact Hc3 | rewrite length_assign, Hlen in Hl3; lia] ].
Qed.

(** [unflattenJson] keeps the heap closed. *)
Lemma unflattenJson_closed (h : heap) (obj : hvalue) :
  closed h ->
  closed (fst (unflattenJson h obj))
  /\ length h <= length (fst (unflattenJson h obj))
  /\ below (length (fst (unflattenJson h obj)))
       match snd (unflattenJson h obj) with
       | Ret r => r
       | Throw _ => HUndef
       end.
Proof.
  intros Hc. destruct obj as [| | | | |l];
    try (split; [exact Hc | split; [simpl; lia | exact I]]).
  cbn [unflattenJson alloc fst snd].
  assert (Hc0 : closed (h ++ [empty_hobject])%list)
    by (apply closed_alloc; [exact Hc | intros ? ? []]).
  assert (Hl0 : length h < length (h ++ [empty_hobject])%list)
    by (rewrite length_app; simpl; lia).
  revert Hc0 Hl0.
  generalize (h ++ [empty_hobject])%list as h0.
  generalize (keys_of (h_props (object_at h l))) as ks.
  induction ks as [|k ks IH]; intros h0 Hc0 Hl0.
  - simpl. repeat split; [exact Hc0 | lia | exact Hl0].
  - cbn [fold_left].
    destruct (set_path_closed (getKeys k) h0 (length h)
                (get_prop h0 (HRef l) k) Hc0
                (get_prop_below h0 (HRef l) k Hc0)) as [Hc1 Hl1].
    apply IH; [exact Hc1 | lia].
Qed.

Lemma region_alloc (n : nat) (h : heap) (o : hobject) :
  region n h ->
  (forall key v, In (key, v) (h_props o) -> above n v) ->
  region n (h ++ [o])%list.
Proof.
  intros Hr Ho l key v Hl Hin.
  destruct (Nat.lt_trichotomy l (length h)) as [Hlt|[->|Hgt]].
  - rewrite object_at_app_l in Hin by exact Hlt. exact (Hr l key v Hl Hin).
  - rewrite object_at_alloc in Hin. exact (Ho key v Hin).
  - rewrite object_at_beyond in Hin; [contradiction|].
    rewrite length_app. simpl. lia.
Qed.

(** [JSON.parse] only adds objects, and the objects it adds refer to
    objects it added. *)
Lemma parse_region (n : nat) (t : value) :
  forall h,
    region n h -> n <= length h ->
    region n (fst (parse h t))
    /\ above n (snd (parse h t))
    /\ exists added, fst (parse h t) = (h ++ added)%list.
Proof.
  induction t as [| | | | |kd ps IH] using value_ind; intros h Hr Hn;
    try (repeat split; [exact Hr | exists []; now rewrite List.app_nil_r]).
  cbn [parse].
  assert (Hfold : forall members h1,
             region n h1 -> n <= length h1 ->
             (forall key v, In (key, v) members -> above n v) ->
             let r := fold_left
                        (fun (acc : heap * list (string * hvalue)) kv =>
                           let (h', c) := parse (fst acc) (snd kv) in
                           (h', (snd acc ++ [(fst kv, c)])%list))
                        ps (h1, members) in
             region n (fst r)
             /\ (forall key v, In (key, v) (snd r) -> above n v)
             /\ exists added, fst r = (h1 ++ added)%list).
  { clear h Hr Hn.
    induction IH as [|[key child] ps Hc _ IHps]; intros members h1 Hr Hn Hm.
    - simpl. repeat split; [exact Hr | exact Hm |].
      exists []. now rewrite List.app_nil_r.
    - cbn [fold_left fst snd]. simpl in Hc.
      destruct (Hc h1 Hr Hn) as [Hr1 [Ha1 [added1 E1]]].
      destruct (parse h1 child) as [h' c] eqn:Ep. simpl in Hr1, Ha1, E1.
      assert (Hn' : n <= length h').
      { rewrite E1, length_app. lia. }
      destruct (IHps (members ++ [(key, c)])%list h' Hr1 Hn') as [Hr2 [Hm2 [added2 E2]]].
      { intros k v Hin. apply in_app_or in Hin. destruct Hin as [Hin|[E|[]]].
        - exact (Hm k v Hin).
        - inversion E; subst. exact Ha1. }
      repeat split; [exact Hr2 | exact Hm2 |].
      exists (added1 ++ added2)%list.
      rewrite E2, E1. now rewrite List.app_assoc. }
  destruct (Hfold [] h Hr Hn) as [Hr1 [Hm1 [added E]]]; [intros ? ? []|].
  destruct (fold_left _ ps (h, [])) as [h1 members]. simpl in Hr1, Hm1, E.
  cbn [alloc fst snd]. repeat split.
  - apply region_alloc; [exact Hr1 | exact Hm1].
  - simpl. rewrite E, length_app. lia.
  - exists (added ++ [{| h_kind := kd; h_props := members |}])%list.
    rewrite E. now rewrite List.app_assoc.
Qed.

(** What is reached from a value above [n] in such a region is above
    [n]. *)
Lemma reachable_region (n : nat) (h : heap) (v : hvalue) (l : loc) :
  region n h -> reachable h v l -> above n v -> n <= l.
Proof.
  intros Hr. induction 1 as [l|l key v l' Hin _ IH]; intros Ha.
  - exact Ha.
  - apply IH. exact (Hr l key v Ha Hin).
Qed.

Lemma region_closed (h : heap) : closed h -> region (length h) h.
Proof.
  intros _ l key v Hl Hin.
  rewrite object_at_beyond in Hin by exact Hl. contradiction.
Qed.

Lemma map_outcome_not_thrown {A B} (f : A -> outcome B) (e : exn)
  (l : list A) :
  (forall a, In a l -> f a <> Throw e) -> map_outcome f l <> Throw e.
Proof.
  induction l as [|a l IH]; intros H; simpl; [discriminate|].
  pose proof (H a (or_introl eq_refl)) as Ha.
  destruct (f a) as [b|e']; simpl; [|congruence].
  assert (Hl : map_outcome f l <> Throw e).
  { apply IH. intros a' Hin. apply H. now right. }
  destruct (map_outcome f l); simpl; [discriminate | congruence].
Qed.

Lemma stack_room (n : nat) (stack : list loc) (l : loc) :
  NoDup stack -> (forall l', In l' stack -> l' < n) ->
  l < n -> ~ In l stack -> length stack < n.
Proof.
  intros Hnd Hb Hl Hni.
  assert (H : length (l :: stack) <= length (seq 0 n)).
  { apply NoDup_incl_length.
    - now constructor.
    - intros x [<-|Hx]; apply in_seq; [lia|].
      specialize (Hb x Hx). lia. }
  rewrite length_seq in H. simpl in H. lia.
Qed.

(** The recursion of [JSON.stringify] is no deeper than there are
    objects, so the fuel [dump] gives it is never used up. *)
Lemma stringify_fuel_suffices (h : heap) :
  closed h ->
  forall fuel stack v,
    NoDup stack -> (forall l, In l stack -> l < length h) ->
    below (length h) v -> length h < fuel + length stack ->
    stringify fuel h stack v <> Throw (RangeError msg_stack).
Proof.
  intros Hc fuel.
  induction fuel as [|fuel IH]; intros stack v Hnd Hb Hv Hf;
    destruct v as [| | | | |l]; try discriminate; cbn [stringify];
    destruct (existsb (Nat.eqb l) stack) eqn:Ex; try discriminate.
  - exfalso.
    assert (Hni : ~ In l stack).
    { intros Hin. assert (existsb (Nat.eqb l) stack = true); [|congruence].
      apply existsb_exists. exists l. split; [exact Hin|].
      apply Nat.eqb_refl. }
    pose proof (stack_room (length h) stack l Hnd Hb Hv Hni) as Hroom.
    simpl in Hf. unfold loc in *. lia.
  - assert (Hni : ~ In l stack).
    { intros Hin. assert (existsb (Nat.eqb l) stack = true); [|congruence].
      apply existsb_exists. exists l. split; [exact Hin|].
      apply Nat.eqb_refl. }
    assert (Hm : map_outcome
                   (fun kv => c <- stringify fuel h (l :: stack) (snd kv) ;;
                              Ret (fst kv, c))
                   (visited_props (object_at h l))
                 <> Throw (RangeError msg_stack)).
    { apply map_outcome_not_thrown. intros [key w] Hin. cbn [fst snd].
      assert (Hs : stringify fuel h (l :: stack) w
                   <> Throw (RangeError msg_stack)).
      { apply IH.
        - now constructor.
        - intros l' [<-|Hl']; [exact Hv | now apply Hb].
        - apply (proj1 (closed_spec h) Hc l key w).
          unfold visited_props in Hin.
          destruct (h_kind (object_at h l)); [exact Hin|].
          apply filter_In in Hin. tauto.
        - simpl. simpl in Hf. unfold loc in *. lia. }
      destruct (stringify fuel h (l :: stack) w); simpl;
        [discriminate | congruence]. }
    destruct (map_outcome _ (visited_props (object_at h l))); simpl;
      [discriminate | congruence].
Qed.

Lemma dump_never_exhausts (h : heap) (jsonObject : hvalue) :
  closed h -> snd (dump h jsonObject) <> Throw (RangeError msg_stack).
Proof.
  intros Hc. unfold dump.
  destruct (unflattenJson_closed h jsonObject Hc) as [Hc1 [_ Hb]].
  destruct (unflattenJson h jsonObject) as [h1 r] eqn:Eu. simpl in Hc1, Hb.
  destruct r as [nested|e].
  - assert (Hs : stringify (S (length h1)) h1 [] nested
                 <> Throw (RangeError msg_stack)).
    { apply stringify_fuel_suffices; try assumption.
      - constructor.
      - intros l [].
      - simpl. lia. }
    revert Hs.
    destruct (stringify (S (length h1)) h1 [] nested) as [text|e];
      intros Hs.
    + destruct text; try discriminate;
        destruct (parse h1 _); discriminate.
    + simpl. intros E. apply Hs. now inversion E.
  - simpl. destruct jsonObject; simpl in Eu; inversion Eu; discriminate.
Qed.

(** C9. In a heap whose objects refer to existing objects only, let
    [dump] return [d].  Every object that can be reached from [d] was
    made by the [JSON.parse] of that call, none of them is an object the
    store holds; and after any sequence of assignments to, replacements
    of and additions of objects made by that [JSON.parse] or later, every
    [read] of the store ends as it did before them. *)
Theorem dump_result_detached (h : heap) (root : loc) (h1 : heap)
  (d : hvalue) :
  closed h -> root < length h ->
  dump h (HRef root) = (h1, Ret d) ->
  (forall l, reachable h1 d l -> dump_base h (HRef root) <= l)
  /\ forall h2,
       mutation (dump_base h (HRef root)) h1 h2 ->
       forall p, read h2 (HRef root) p = read h1 (HRef root) p.
Proof.
  intros Hc Hroot Hd. unfold dump_base. unfold dump in Hd.
  destruct (unflattenJson_closed h (HRef root) Hc) as [Hcu [Hlen _]].
  destruct (unflattenJson h (HRef root)) as [hu r]. simpl in Hcu, Hlen.
  cbn [fst].
  destruct r as [nested|e]; [|discriminate].
  destruct (stringify (S (length hu)) hu [] nested) as [text|e];
    [|discriminate].
  assert (Hp : parse hu text = (h1, d)).
  { destruct text; try discriminate;
      destruct (parse hu _) as [h2 d2]; now inversion Hd. }
  clear Hd.
  destruct (parse_region (length hu) text hu (region_closed hu Hcu)
              (Nat.le_refl _)) as [Hr [Ha [added E]]].
  rewrite Hp in Hr, Ha, E. simpl in Hr, Ha, E. split.
  - intros l Hl. exact (reachable_region _ _ _ _ Hr Hl Ha).
  - intros h2 Hm p. unfold read, getNestedValueWithEscaping.
    cbn [truthy typeof_object negb orb].
    destruct p; try reflexivity. f_equal.
    apply (descend_agree (length hu)).
    + exact (mutation_below _ _ _ Hm).
    + intros l key v Hl Hin. subst h1.
      rewrite object_at_app_l in Hin by exact Hl.
      exact (proj1 (closed_spec hu) Hcu l key v Hin).
    + simpl. lia.
Qed.

Lemma example_heap_closed : closed example_heap.
Proof.
  unfold closed, example_heap.
  repeat (constructor; simpl; try lia).
Defined.

Lemma dump_result_detached_witness :
  dump example_heap (HRef 0)
  = (fst (dump example_heap (HRef 0)), Ret (HRef 4))
  /\ read (assign (fst (dump example_heap (HRef 0))) 4 "key" (HNum 2))
           (HRef 0) (HStr "key")
      = read (fst (dump example_heap (HRef 0))) (HRef 0) (HStr "key").
Proof.
  split; [reflexivity|].
  refine (proj2 (dump_result_detached example_heap 0
                   (fst (dump example_heap (HRef 0))) (HRef 4)
                   example_heap_closed _ eq_refl)
            _ _ (HStr "key")).
  - simpl. lia.
  - apply (@mut_assign _ _ 4 "key" (HNum 2) _); [|apply mut_none].
    vm_compute. repeat constructor.
Defined.

(** The test "should not allow modification of the dumped JSON
    structure": after [dump.key = 2] the store still reads [1]. *)
Lemma dump_then_assign_example :
  let h1 := fst (dump example_heap (HRef 0)) in
  read (assign h1 4 "key" (HNum 2)) (HRef 0) (HStr "key") = Ret (HNum 1)
  /\ read (assign h1 4 "key" (HNum 2)) (HRef 4) (HStr "key") = Ret (HNum 2).
Proof. split; reflexivity. Qed.

(** [dump] itself can change the store: [unflattenJson] assigns the
    store's own object for [a] into its result and then, for the
    top-level key ["a.b"], writes [b] into that object. *)
Lemma dump_writes_into_store :
  let h := [ {| h_kind := KPlain;
                h_props := [("a", HRef 1); ("a.b", HNum 2)] |};
             {| h_kind := KPlain; h_props := [("x", HNum 1)] |} ] in
  read h (HRef 0) (HStr "a.b") = Ret HUndef
  /\ read (fst (dump h (HRef 0))) (HRef 0) (HStr "a.b") = Ret (HNum 2).
Proof. split; reflexivity. Qed.
End HeapFacts.

(** ** The heap and the trees *)

Lemma represents_object (h : Heap.heap) (l : Heap.loc) (k : kind) (ps : props) :
  represents h (Heap.HRef l) (VObj k ps)
  <-> l < length h /\ Heap.h_kind (Heap.object_at h l) = k
      /\ represent_props h (Heap.h_props (Heap.object_at h l)) ps.
Proof.
  cbn [represents].
  assert (E : forall hps,
             (fix all (ps : props) (hps : list (string * Heap.hvalue)) {struct ps}
                : Prop :=
                match ps, hps with
                | [], [] => True
                | p :: ps', hp :: hps' =>
                    fst hp = fst p /\ represents h (snd hp) (snd p)
                    /\ all ps' hps'
                | _, _ => False
                end) ps hps
             <-> represent_props h hps ps).
  { induction ps as [|p ps IH]; intros [|hp hps]; simpl; try tauto.
    rewrite IH. tauto. }
  rewrite E. tauto.
Qed.

Lemma represents_app (added : Heap.heap) (t : value) :
  forall h v, represents h v t -> represents (h ++ added)%list v t.
Proof.
  induction t as [| | | | |k ps IH] using value_ind; intros h v H;
    destruct v; try exact H.
  apply represents_object in H. destruct H as [Hl [Hk Hp]].
  apply represents_object.
  rewrite HeapFacts.object_at_app_l by exact Hl.
  split; [rewrite length_app; lia|]. split; [exact Hk|].
  revert Hp. generalize (Heap.h_props (Heap.object_at h l)) as hps.
  induction IH as [|p ps Hc _ IHps]; intros [|hp hps]; simpl; try tauto.
  intros [E [Hr Hrest]]. repeat split; auto.
Qed.

Lemma represent_props_app (h added : Heap.heap) hps ps :
  Forall (fun p => forall v, represents h v (snd p) ->
                             represents (h ++ added)%list v (snd p)) ps ->
  represent_props h hps ps -> represent_props (h ++ added)%list hps ps.
Proof.
  revert hps. induction ps as [|p ps IH]; intros [|hp hps] Hf; simpl; try tauto.
  inversion Hf; subst. intros [E [Hr Hrest]]. repeat split; auto.
Qed.

Lemma represent_props_snoc (h : Heap.heap) hps ps hp p :
  represent_props h hps ps -> fst hp = fst p ->
  represents h (snd hp) (snd p) ->
  represent_props h (hps ++ [hp])%list (ps ++ [p])%list.
Proof.
  revert hps. induction ps as [|q ps IH]; intros [|hq hps]; simpl; try tauto.
  intros [E [Hr Hrest]] E' Hr'. repeat split; auto.
Qed.

(** [JSON.parse] builds, in the Heap.heap, the tree it is given. *)
Lemma parse_represents (t : value) :
  forall h, represents (fst (Heap.parse h t)) (snd (Heap.parse h t)) t.
Proof.
  induction t as [| | | | |kd ps IH] using value_ind; intros h;
    try (simpl; auto; fail).
  cbn [Heap.parse].
  assert (Hfold : forall done members h1,
             represent_props h1 members done ->
             let r := fold_left
                        (fun (acc : Heap.heap * list (string * Heap.hvalue)) kv =>
                           let (h', c) := Heap.parse (fst acc) (snd kv) in
                           (h', (snd acc ++ [(fst kv, c)])%list))
                        ps (h1, members) in
             represent_props (fst r) (snd r) (done ++ ps)%list).
  { clear h.
    induction IH as [|[key child] ps Hc _ IHps]; intros done members h1 Hm.
    - simpl. now rewrite List.app_nil_r.
    - cbn [fold_left fst snd]. simpl in Hc.
      pose proof (Hc h1) as Hr.
      destruct (HeapFacts.parse_region 0 child h1) as [_ [_ [added E]]];
        [intros ? ? ? _ _; destruct v; simpl; auto; lia | lia |].
      destruct (Heap.parse h1 child) as [h' c]. simpl in Hr, E.
      replace (done ++ (key, child) :: ps)%list
        with ((done ++ [(key, child)]) ++ ps)%list
        by (now rewrite <- List.app_assoc).
      apply IHps. apply represent_props_snoc; [|reflexivity|exact Hr].
      subst h'. apply represent_props_app; [|exact Hm].
      apply Forall_forall. intros p _ v. apply represents_app. }
  specialize (Hfold [] [] h I). simpl in Hfold.
  destruct (HeapFacts.parse_region 0 (VObj kd ps) h) as [_ [_ [added0 E0]]];
    [intros ? ? ? _ _; destruct v; simpl; auto; lia | lia |].
  destruct (fold_left _ ps (h, [])) as [h1 members]. simpl in Hfold.
  cbn [Heap.alloc fst snd]. apply represents_object.
  rewrite HeapFacts.object_at_alloc. cbn [Heap.h_kind Heap.h_props].
  split; [rewrite length_app; simpl; lia|]. split; [reflexivity|].
  apply represent_props_app; [|exact Hfold].
  apply Forall_forall. intros p _ v. apply represents_app.
Qed.

Lemma represent_props_lookup (h : Heap.heap) (key : string) hps ps :
  represent_props h hps ps ->
  match lookup key hps, lookup key ps with
  | Some v, Some c => represents h v c
  | None, None => True
  | _, _ => False
  end.
Proof.
  revert hps. induction ps as [|[k c] ps IH]; intros [|[hk hv] hps]; simpl;
    try tauto.
  intros [E [Hr Hrest]]. simpl in E. subst hk.
  destruct (k =? key); [exact Hr | now apply IH].
Qed.

(** Reading in the Heap.heap agrees with reading in the tree it stands for. *)
Lemma descend_represents (h : Heap.heap) (keys : list string) :
  forall v t,
    represents h v t ->
    represents h (Heap.descend h v keys) (descend t keys).
Proof.
  induction keys as [|key rest IH]; intros v t H; [exact H|].
  cbn [Heap.descend descend].
  destruct t as [| | | | |k ps]; destruct v as [| | | | |l];
    try (simpl in H; contradiction); try exact I;
    try (cbn [truthy typeof_object andb is_object Heap.truthy
              Heap.typeof_object]; rewrite ?andb_false_r; exact I).
  apply represents_object in H. destruct H as [Hl [Hk Hp]].
  pose proof (represent_props_lookup h key _ _ Hp) as Hlk.
  cbn [truthy typeof_object Heap.truthy Heap.typeof_object andb
         in_object Heap.in_object get_prop Heap.get_prop].
  unfold has_key.
  destruct (lookup key (Heap.h_props (Heap.object_at h l))) as [v|];
    destruct (lookup key ps) as [c|]; try contradiction; try exact I.
  now apply IH.
Qed.

(** [read] over the heap, on the objects [JSON.parse] builds for a tree,
    ends as [read] over that tree does. *)
Lemma heap_read_agrees (t : value) (h : Heap.heap) (path : string) :
  match Heap.read (fst (Heap.parse h t)) (snd (Heap.parse h t)) (Heap.HStr path),
        read {| jsonObject := t |} (VStr path) with
  | Ret v, Ret c => represents (fst (Heap.parse h t)) v c
  | Throw e, Throw e' => e = e'
  | _, _ => False
  end.
Proof.
  pose proof (parse_represents t h) as H.
  unfold Heap.read, Heap.getNestedValueWithEscaping, read,
    getNestedValueWithEscaping. cbn [jsonObject].
  destruct t as [| | | | |k ps];
    destruct (snd (Heap.parse h _)) as [| | | | |l] eqn:E;
    try (simpl in H; contradiction); try reflexivity.
  - simpl in H. subst. simpl. now destruct b0.
  - simpl in H. subst. simpl. now destruct (number_truthy n0).
  - simpl in H. subst. simpl. now destruct (s0 =? "").
  - cbn [Heap.truthy Heap.typeof_object truthy typeof_object negb orb].
    now apply descend_represents.
Qed.


(** ** The repository's tests and demonstrations *)

Example test_write_read :
  read (write_ok createJsonManager "level1.level2.level3.value" (VNum 42))
       (VStr "level1.level2.level3.value")
  = Ret (VNum 42).
Proof. reflexivity. Qed.

Example test_write_overwrites :
  read (write_ok (write_ok createJsonManager "key1.key2" (VStr "initial"))
          "key1.key2" (VStr "updated"))
       (VStr "key1.key2")
  = Ret (VStr "updated").
Proof. reflexivity. Qed.

Example test_read_fixture :
  read read_fixture (VStr "nest.secondnest.third.nest") = Ret (VNum 10)
  /\ read read_fixture (VStr "nonexistent.path") = Ret VUndef
  /\ read read_fixture (VStr escaped_path) = Ret (VStr "test")
  /\ read read_fixture (VStr "nest.fakekey") = Ret VUndef.
Proof. repeat split. Qed.

Example test_search_and_hasKey :
  search read_fixture (VStr "nest.secondnest.third.nest") = Ret (VNum 10)
  /\ search read_fixture (VStr "nonexistent.path") = Ret VUndef
  /\ hasKey read_fixture (VStr "nest.secondnest.third.nest") = Ret true
  /\ hasKey read_fixture (VStr escaped_path) = Ret true.
Proof. repeat split. Qed.

Example test_dump :
  dump (write_ok
          (write_ok (write_ok createJsonManager "key1" (VNum 1))
             "key2.subkey" (VNum 2))
          ("escaped" ++ String backslash ".key") (VStr "value"))
  = Ret (object_of
           [("key1", VNum 1);
            ("key2", object_of [("subkey", VNum 2)]);
            ("escaped", object_of [("key", VStr "value")])]).
Proof. reflexivity. Qed.

Example test_has_path :
  has search_fixture (path_only "nest.secondnest.third.value")
  = Ret [ {| m_path := "nest.secondnest.third.value"; m_value := VNum 42 |} ].
Proof. reflexivity. Qed.

Example test_has_keywords :
  has search_fixture
      {| c_path := None; c_like := None;
         c_keywords := Some ["value"; "like"]; c_regex := None |}
  = Ret [ {| m_path := "nest.secondnest.third.value"; m_value := VNum 42 |};
          {| m_path := "example.like";
             m_value := object_of [("path", VStr "test")] |};
          {| m_path := "example.like.path"; m_value := VStr "test" |};
          {| m_path := escaped_level; m_value := VStr "value" |} ].
Proof. reflexivity. Qed.

Example test_has_regex :
  has search_fixture
      {| c_path := None; c_like := None; c_keywords := None;
         c_regex := Some (flagless regex_example_path) |}
  = Ret [ {| m_path := "example.like.path"; m_value := VStr "test" |} ].
Proof. reflexivity. Qed.

Example test_has_no_match :
  has search_fixture (like_only "nonexistent") = Ret [].
Proof. reflexivity. Qed.

Example demo_flatten :
  flattenJsonWithEscaping
    (object_of
       [("test", object_of [("tester", object_of [("testing", VStr "10")])])])
  = Ret (object_of [("test.tester.testing", VStr "10")])
  /\ flattenJsonWithEscaping nestedData3
     = Ret (object_of
              [("test.tester" ++ String backslash ".makeup.testing", VStr "10");
               ("test.tester" ++ String backslash ".makeup.makeup", VNum 10);
               ("test.madeup", VNum 20);
               ("fakeup", VNum 30)]).
Proof. split; reflexivity. Qed.

Example demo_unflatten :
  unflattenJson
    (object_of
       [("a" ++ String backslash ".b.c" ++ String backslash ".d.e", VNum 42)])
  = Ret (object_of
           [("a.b", object_of [("c.d", object_of [("e", VNum 42)])])])
  /\ unflattenJson
       (object_of [("test.tester.testing", VStr "10");
                   ("test.tester.makeup", VNum 10);
                   ("test.madeup", VNum 20);
                   ("fakeup", VNum 30)])
     = Ret (object_of
              [("test", object_of
                          [("tester", object_of [("testing", VStr "10");
                                                 ("makeup", VNum 10)]);
                           ("madeup", VNum 20)]);
               ("fakeup", VNum 30)]).
Proof. split; reflexivity. Qed.

(** Keys that are array indices come first, in ascending order, whatever
    the order of the writes. *)
Example index_keys_first :
  jsonObject
    (write_ok (write_ok (write_ok (write_ok createJsonManager "b" VNull)
                           "10" VNull) "a" VNull) "9" VNull)
  = object_of [("9", VNull); ("10", VNull); ("b", VNull); ("a", VNull)].
Proof. reflexivity. Qed.

(* ================================================================= *)
(** * Further properties of the source *)

(** ** The tokenizer on encoded paths *)

(** X1. Escaping a segment name and tokenizing the result gives back that
    one name, whatever dots and backslashes it holds. *)
Theorem getKeys_escapeKey_round_trip (key : string) :
  unescape_dots (escapeKey key) = key /\ getKeys (escapeKey key) = [key].
Proof.
  split; [apply unescape_escapeKey | apply getKeys_escapeKey].
Qed.

Lemma path_of_snoc (segs : list string) (key : string) :
  path_of (segs ++ [key])%list = join_key (path_of segs) (escapeKey key).
Proof. unfold path_of. now rewrite fold_left_app. Qed.

Lemma inner_keys_closed_snoc (segs : list string) (key : string) :
  segs <> [] ->
  inner_keys_closed (segs ++ [key])%list = true ->
  inner_keys_closed segs = true
  /\ ends_with_backslash (last segs "") = false.
Proof.
  induction segs as [|k segs IH]; [congruence|]. intros _.
  destruct segs as [|k2 segs].
  - simpl. rewrite andb_true_r. intros H. apply negb_true_iff in H. now split.
  - change (inner_keys_closed ((k :: k2 :: segs) ++ [key])%list)
      with (negb (ends_with_backslash k)
            && inner_keys_closed ((k2 :: segs) ++ [key])%list).
    intros H. apply andb_true_iff in H. destruct H as [Hk H].
    destruct (IH ltac:(discriminate) H) as [H1 H2].
    split; [|exact H2].
    change (inner_keys_closed (k :: k2 :: segs))
      with (negb (ends_with_backslash k) && inner_keys_closed (k2 :: segs)).
    now rewrite Hk, H1.
Qed.

Lemma ends_with_backslash_escape (key : string) :
  ends_with_backslash (escapeKey key) = ends_with_backslash key.
Proof. apply ends_with_backslash_escapeKey. Qed.

(** What [path_of] gives for an encodable list of keys. *)
Lemma path_of_encodable (segs : list string) :
  encodable segs = true ->
  getKeys (path_of segs) = segs
  /\ ends_with_backslash (path_of segs) = ends_with_backslash (last segs "")
  /\ (path_of segs = "" -> segs = [""]).
Proof.
  induction segs as [|key segs IH] using rev_ind; [discriminate|].
  intros He. rewrite path_of_snoc, last_last.
  destruct segs as [|k segs].
  - change (path_of []) with "". rewrite join_key_empty_prefix.
    rewrite getKeys_escapeKey, ends_with_backslash_escape.
    repeat split. intros E. apply escapeKey_empty in E. now subst.
  - assert (Hk : k <> "" /\ inner_keys_closed ((k :: segs) ++ [key])%list = true).
    { unfold encodable in He. simpl app in He.
      destruct (segs ++ [key])%list eqn:E.
      - destruct segs; discriminate.
      - apply andb_true_iff in He. destruct He as [H1 H2].
        apply negb_true_iff, String.eqb_neq in H1. rewrite <- E in H2.
        now split. }
    destruct Hk as [Hk Hin].
    destruct (inner_keys_closed_snoc (k :: segs) key ltac:(discriminate) Hin)
      as [Hin' Hlast].
    assert (He' : encodable (k :: segs) = true).
    { unfold encodable. rewrite Hin'. rewrite andb_true_r.
      destruct segs; [reflexivity|].
      now apply negb_true_iff, String.eqb_neq. }
    destruct (IH He') as [Hg [Hb Hn]].
    assert (Hp : path_of (k :: segs) <> "").
    { intros E. specialize (Hn E). inversion Hn. contradiction. }
    rewrite Hlast in Hb.
    rewrite (getKeys_join_key _ _ Hp Hb), Hg.
    rewrite (ends_with_backslash_join_key _ _ Hp).
    repeat split.
    intros E. rewrite (join_key_prefix _ _ Hp) in E.
    now apply (append_nonempty _ _ Hp) in E.
Qed.

(** X2. For every encodable list of keys, tokenizing the path built from
    it, key by key as Flatten and the search build their paths, gives back
    the list. *)
Theorem getKeys_path_of (segs : list string) :
  encodable segs = true -> getKeys (path_of segs) = segs.
Proof. intros H. now apply path_of_encodable. Qed.

Lemma getKeys_path_of_witness :
  encodable ["a.b"; ""; "c"] = true
  /\ getKeys (path_of ["a.b"; ""; "c"]) = ["a.b"; ""; "c"].
Proof.
  split; [reflexivity|]. apply (getKeys_path_of ["a.b"; ""; "c"]). reflexivity.
Defined.

(** ** Writes: overwriting, repeating, and what they leave alone *)

Lemma set_path_is_object (t : value) (keys : list string) (v : value) :
  is_object t = true -> is_object (set_path t keys v) = true.
Proof.
  destruct t as [| | | | |kd ps]; try discriminate. intros _.
  destruct (set_path_object kd ps keys v) as [ps' ->]. reflexivity.
Qed.

Lemma getNested_object (t : value) (p : string) :
  is_object t = true ->
  getNestedValueWithEscaping t (VStr p) = Ret (descend t (getKeys p)).
Proof. destruct t; try discriminate. reflexivity. Qed.

Section SetPropSame.
Variable A : Type.

Lemma replace_prop_same (ps : list (string * A)) (key : string) (v : A) :
  lookup key ps = Some v -> replace_prop key v ps = ps.
Proof.
  induction ps as [|[k w] ps IH]; [reflexivity|]. simpl.
  destruct (String.eqb_spec k key) as [->|Hne]; intros H.
  - now inversion H.
  - f_equal. now apply IH.
Qed.

(** Assigning to a property the value it has changes nothing. *)
Lemma set_prop_same (ps : list (string * A)) (key : string) (v : A) :
  lookup key ps = Some v -> set_prop key v ps = ps.
Proof.
  intros H. unfold set_prop, has_key. rewrite H.
  now apply replace_prop_same.
Qed.
End SetPropSame.

Lemma next_object (c : value) :
  is_object (if negb (truthy c) || negb (typeof_object c)
             then empty_object else c) = true.
Proof. destruct (next_is_object c) as [kd [ps ->]]. reflexivity. Qed.

Lemma descend_nonobject (c : value) (keys : list string) :
  is_object c = false -> keys <> [] -> descend c keys = VUndef.
Proof.
  intros Hc Hk. destruct keys as [|key rest]; [congruence|].
  destruct c; try discriminate; simpl; rewrite ?andb_false_r; reflexivity.
Qed.

Lemma diverge_nonempty (p q : list string) :
  diverge p q = true -> p <> [] /\ q <> [].
Proof. destruct p, q; simpl; try discriminate. split; discriminate. Qed.

(** *** Over objects with their prototype *)

(** What a write leaves behind depends on the objects it goes through:
    on their prototype, and on whether one of them is met twice.  The
    statements are therefore about [Proto], where an object has a
    location and a prototype link. *)
Module ProtoWrites.
Import Proto.
Import ProtoFacts.

Lemma distinct_locs_NoDup (ls : list loc) :
  distinct_locs ls = true -> NoDup ls.
Proof.
  induction ls as [|l ls IH]; [constructor|]. simpl.
  rewrite andb_true_iff, negb_true_iff. intros [Hn Hd].
  constructor; [|now apply IH].
  intros Hin. assert (E : existsb (Nat.eqb l) ls = true).
  { apply existsb_exists. exists l. split; [exact Hin | apply Nat.eqb_refl]. }
  congruence.
Qed.

Lemma NoDup_distinct_locs (ls : list loc) :
  NoDup ls -> distinct_locs ls = true.
Proof.
  induction 1 as [|l ls Hn _ IH]; [reflexivity|]. simpl. rewrite IH, andb_true_r.
  apply negb_true_iff. destruct (existsb (Nat.eqb l) ls) eqn:E; [|reflexivity].
  apply existsb_exists in E. destruct E as [x [Hin Hx]].
  apply Nat.eqb_eq in Hx. subst. contradiction.
Qed.

Lemma plain_at_inv (h : heap) (l : loc) :
  plain_at h l = true ->
  l <> 0 /\ l < length h /\ p_proto (object_at h l) = Some 0.
Proof.
  unfold plain_at. rewrite !andb_true_iff, negb_true_iff.
  intros [[H0 Hl] Hp]. apply Nat.eqb_neq in H0. apply Nat.ltb_lt in Hl.
  repeat split; try assumption.
  destruct (p_proto (object_at h l)) as [p|]; [|discriminate].
  simpl in Hp. apply Nat.eqb_eq in Hp. now subst.
Qed.

Lemma plain_at_intro (h : heap) (l : loc) :
  l <> 0 -> l < length h -> p_proto (object_at h l) = Some 0 ->
  plain_at h l = true.
Proof.
  intros H0 Hl Hp. unfold plain_at. rewrite Hp. simpl.
  apply Nat.eqb_neq in H0. apply Nat.ltb_lt in Hl. now rewrite H0, Hl.
Qed.

(** In a plain object of a heap where [Object.prototype] is as a program
    finds it, an object found under a key other than [__proto__] is the
    value of an own property. *)
Lemma get_ref_own (h : heap) (l : loc) (key : string) (c : loc) :
  object_at h 0 = object_prototype -> plain_at h l = true ->
  (key =? "__proto__") = false ->
  get h l key = PRef c ->
  lookup key (p_props (object_at h l)) = Some (PRef c).
Proof.
  intros H0 Hp Hk Hg. destruct (plain_at_inv _ _ Hp) as [Hl0 [Hl Hpr]].
  unfold get in Hg.
  destruct (lookup key (p_props (object_at h l))) as [v|] eqn:E.
  - rewrite (find_own _ _ _ _ _ E) in Hg. now subst.
  - exfalso.
    assert (F : find (length h) h l key = Missing
                \/ exists name, find (length h) h l key = Data (PFun name)).
    { destruct (length h) as [|fuel]; cbn [find]; rewrite E, Hpr, Hk, andb_false_r.
      - now left.
      - now apply find_in_object_prototype. }
    destruct F as [F|[name F]]; rewrite F in Hg; discriminate.
Qed.

Lemma get_own (h : heap) (l : loc) (key : string) (v : pvalue) :
  lookup key (p_props (object_at h l)) = Some v -> get h l key = v.
Proof. intros H. now destruct (has_own h l key v H). Qed.

(** A plain object holds no object under a key it does not own. *)
Lemma get_not_own (h : heap) (l : loc) (key : string) :
  object_at h 0 = object_prototype -> plain_at h l = true ->
  (key =? "__proto__") = false ->
  lookup key (p_props (object_at h l)) = None ->
  forall c, get h l key <> PRef c.
Proof.
  intros H0 Hp Hk E c Hg.
  rewrite (get_ref_own h l key c H0 Hp Hk Hg) in E. discriminate.
Qed.

(** What a write at keys none of which is [__proto__] does when the
    objects it goes through are plain and pairwise different: it returns;
    it changes none of the other objects; afterwards the keys lead, own
    property by own property, to the value written; and the objects the
    same write would now go through are again plain and pairwise
    different, each of them one it went through or a new one. *)
Lemma set_path_leads (keys : list string) :
  keys <> [] -> no_proto_segment keys = true ->
  forall h l v,
    object_at h 0 = object_prototype -> plain_walk h l keys = true ->
    exists h',
      set_path h l keys v = (h', Returned)
      /\ length h <= length h'
      /\ (forall l', l' < length h -> ~ In l' (walk h l keys) ->
                     object_at h' l' = object_at h l')
      /\ leads h' l keys v
      /\ plain_walk h' l keys = true
      /\ (forall x, In x (walk h' l keys) ->
                    In x (walk h l keys) \/ length h <= x).
Proof.
  induction keys as [|key rest IH]; [congruence|].
  intros _ Hks h l v H0 Hw.
  cbn [no_proto_segment forallb] in Hks. apply andb_true_iff in Hks.
  destruct Hks as [Hk Hks]. apply negb_true_iff in Hk.
  unfold plain_walk in Hw. apply andb_true_iff in Hw.
  destruct Hw as [Hpl Hnd]. apply distinct_locs_NoDup in Hnd.
  rewrite forallb_forall in Hpl.
  destruct rest as [|key2 rest].
  - (* the last key *)
    cbn [walk] in *.
    assert (Hp : plain_at h l = true) by (apply Hpl; now left).
    destruct (plain_at_inv _ _ Hp) as [Hl0 [Hl Hpr]].
    cbn [set_path]. rewrite (set_own h l key v Hk).
    set (h' := update h l _).
    assert (Hlen : length h' = length h) by apply length_pupdate.
    assert (Hobj : object_at h' l
                   = {| p_proto := p_proto (object_at h l);
                        p_props := set_prop key v (p_props (object_at h l)) |})
      by now apply pobject_at_update_same.
    exists h'. split; [reflexivity|]. split; [lia|]. split.
    { intros l' _ Hn. apply pobject_at_update_other. intros ->. apply Hn. now left. }
    split.
    { cbn [leads]. rewrite Hobj. cbn [p_props]. rewrite lookup_set_prop.
      now rewrite String.eqb_refl. }
    split.
    { unfold plain_walk. cbn [walk forallb distinct_locs existsb negb andb].
      rewrite andb_true_r. rewrite andb_true_r. apply plain_at_intro; [exact Hl0|lia|].
      rewrite Hobj. exact Hpr. }
    intros x Hx. now left.
  - (* an inner key *)
    assert (Hp : plain_at h l = true).
    { apply Hpl. cbn [walk]. now left. }
    destruct (plain_at_inv _ _ Hp) as [Hl0 [Hl Hpr]].
    change (set_path h l (key :: key2 :: rest) v)
      with (match get h l key with
            | PRef l' => set_path h l' (key2 :: rest) v
            | _ =>
                let (h1, l') := alloc h empty_pobject in
                match set h1 l key (PRef l') with
                | (h2, Returned) => set_path h2 l' (key2 :: rest) v
                | stopped => stopped
                end
            end).
    destruct (get h l key) as [| | | | | |c] eqn:Eg.
    7:{ (* the key holds an object *)
      pose proof (get_ref_own h l key c H0 Hp Hk Eg) as Eown.
      assert (Ew : walk h l (key :: key2 :: rest) = l :: walk h c (key2 :: rest)).
      { cbn [walk]. now rewrite Eg. }
      rewrite Ew in *. inversion Hnd as [|? ? Hnl Hnd']; subst.
      destruct (IH ltac:(discriminate) Hks h c v H0) as [h' [Es [Hle [Hfr [Hld [Hw' Hin']]]]]].
      { unfold plain_walk. apply andb_true_iff. split.
        - apply forallb_forall. intros x Hx. apply Hpl. now right.
        - now apply NoDup_distinct_locs. }
      assert (Hl' : object_at h' l = object_at h l) by (apply Hfr; assumption).
      assert (Eown' : lookup key (p_props (object_at h' l)) = Some (PRef c))
        by now rewrite Hl'.
      assert (Ew' : walk h' l (key :: key2 :: rest)
                    = l :: walk h' c (key2 :: rest)).
      { cbn [walk]. now rewrite (get_own h' l key _ Eown'). }
      exists h'. split; [exact Es|]. split; [exact Hle|]. split.
      { intros l' Hlt Hn. apply Hfr; [exact Hlt|]. intros Hi. apply Hn. now right. }
      split.
      { change (leads h' l (key :: key2 :: rest) v)
          with (exists c0, lookup key (p_props (object_at h' l)) = Some (PRef c0)
                           /\ leads h' c0 (key2 :: rest) v).
        now exists c. }
      unfold plain_walk in Hw'. apply andb_true_iff in Hw'.
      destruct Hw' as [Hpl' Hnd'']. split.
      { unfold plain_walk. rewrite Ew'. cbn [forallb distinct_locs].
        rewrite Hpl', Hnd'', !andb_true_r. apply andb_true_iff. split.
        - apply plain_at_intro; [exact Hl0|lia|now rewrite Hl'].
        - apply negb_true_iff.
          destruct (existsb (Nat.eqb l) (walk h' c (key2 :: rest))) eqn:E;
            [|reflexivity].
          apply existsb_exists in E. destruct E as [x [Hx Hxl]].
          apply Nat.eqb_eq in Hxl. subst x.
          destruct (Hin' l Hx) as [Hi|Hi]; [contradiction|lia]. }
      rewrite Ew'. intros x [<-|Hx]; [left; now left|].
      destruct (Hin' x Hx) as [Hi|Hi]; [left; now right | now right]. }
    all: (* the key holds no object: a new one is stored under it *)
      assert (Ew : walk h l (key :: key2 :: rest) = [l])
        by (cbn [walk]; now rewrite Eg);
      rewrite Ew in *;
      unfold alloc;
      set (h1 := (h ++ [empty_pobject])%list);
      rewrite (set_own h1 l key _ Hk);
      set (h2 := update h1 l _);
      assert (Hlen1 : length h1 = S (length h))
        by (unfold h1; rewrite length_app; simpl; lia);
      assert (Hlen2 : length h2 = S (length h))
        by (unfold h2; now rewrite length_pupdate);
      assert (H1l : object_at h1 l = object_at h l)
        by (unfold h1; now apply pobject_at_app);
      assert (H2l : lookup key (p_props (object_at h2 l))
                    = Some (PRef (length h)))
        by (unfold h2; rewrite pobject_at_update_same by lia; cbn [p_props];
            rewrite lookup_set_prop; now rewrite String.eqb_refl);
      assert (H2p : p_proto (object_at h2 l) = Some 0)
        by (unfold h2; rewrite pobject_at_update_same by lia; cbn [p_proto];
            now rewrite H1l);
      assert (H20 : object_at h2 0 = object_prototype)
        by (unfold h2; rewrite pobject_at_update_other by (exact (not_eq_sym Hl0));
            unfold h1; rewrite pobject_at_app by lia; exact H0);
      assert (H2c : object_at h2 (length h) = empty_pobject)
        by (unfold h2; rewrite pobject_at_update_other by lia;
            unfold h1; apply pobject_at_alloc);
      assert (Hpc : plain_at h2 (length h) = true)
        by (apply plain_at_intro; [lia | lia | now rewrite H2c]);
      assert (Ewc : walk h2 (length h) (key2 :: rest) = [length h])
        by (cbn [walk]; destruct rest as [|key3 rest']; [reflexivity|];
            cbn [no_proto_segment forallb] in Hks;
            apply andb_true_iff in Hks; destruct Hks as [Hk2 _];
            apply negb_true_iff in Hk2;
            pose proof (get_of_empty h2 (length h) key2 H20 H2c Hk2) as Hne;
            destruct (get h2 (length h) key2) as [| | | | | |c'];
              try reflexivity; now destruct (Hne c'));
      destruct (IH ltac:(discriminate) Hks h2 (length h) v H20)
        as [h' [Es [Hle [Hfr [Hld [Hw' Hin']]]]]];
        [unfold plain_walk; rewrite Ewc; cbn [forallb distinct_locs existsb negb andb];
         now rewrite Hpc|];
      rewrite Ewc in Hfr, Hin';
      assert (Hl' : object_at h' l = object_at h2 l)
        by (apply Hfr; [lia | intros [Hi|[]]; lia]);
      assert (Eown' : lookup key (p_props (object_at h' l))
                      = Some (PRef (length h))) by (now rewrite Hl');
      assert (Ew' : walk h' l (key :: key2 :: rest)
                    = l :: walk h' (length h) (key2 :: rest))
        by (cbn [walk]; now rewrite (get_own h' l key _ Eown'));
      exists h'; split; [exact Es|]; split; [lia|]; split;
        [intros l' Hlt Hn; rewrite Hfr by (try lia; intros [Hi|[]]; lia);
         unfold h2; rewrite pobject_at_update_other
           by (intros ->; apply Hn; now left);
         unfold h1; now apply pobject_at_app|];
      split;
        [change (leads h' l (key :: key2 :: rest) v)
           with (exists c0, lookup key (p_props (object_at h' l)) = Some (PRef c0)
                            /\ leads h' c0 (key2 :: rest) v);
         now exists (length h)|];
      unfold plain_walk in Hw'; apply andb_true_iff in Hw';
      destruct Hw' as [Hpl' Hnd'']; split;
        [unfold plain_walk; rewrite Ew'; cbn [forallb distinct_locs];
         rewrite Hpl', Hnd'', !andb_true_r; apply andb_true_iff; split;
           [apply plain_at_intro; [exact Hl0 | lia | now rewrite Hl']
           |apply negb_true_iff;
            destruct (existsb (Nat.eqb l) (walk h' (length h) (key2 :: rest)))
              eqn:E; [|reflexivity];
            apply existsb_exists in E; destruct E as [x [Hx Hxl]];
            apply Nat.eqb_eq in Hxl; subst x;
            destruct (Hin' l Hx) as [[Hi|[]]|Hi]; lia]
        |rewrite Ew'; intros x [<-|Hx]; [left; now left|];
         destruct (Hin' x Hx) as [[Hi|[]]|Hi]; right; lia].
Qed.

Lemma pupdate_same (h : heap) (l : loc) : update h l (object_at h l) = h.
Proof.
  unfold object_at. revert l. induction h as [|o h IH]; intros [|l];
    simpl; try reflexivity. f_equal. apply IH.
Qed.

(** Where the keys lead to a value already, writing that value changes
    nothing. *)
Lemma leads_set_path (keys : list string) :
  no_proto_segment keys = true ->
  forall h l v, leads h l keys v -> set_path h l keys v = (h, Returned).
Proof.
  induction keys as [|key rest IH]; [intros _ h l v []|].
  intros Hks h l v Hl.
  cbn [no_proto_segment forallb] in Hks. apply andb_true_iff in Hks.
  destruct Hks as [Hk Hks]. apply negb_true_iff in Hk.
  destruct rest as [|key2 rest].
  - cbn [leads] in Hl. cbn [set_path]. rewrite (set_own h l key v Hk).
    rewrite (set_prop_same _ _ _ _ Hl). f_equal.
    transitivity (update h l (object_at h l)); [|apply pupdate_same].
    f_equal. now destruct (object_at h l).
  - change (leads h l (key :: key2 :: rest) v)
      with (exists c, lookup key (p_props (object_at h l)) = Some (PRef c)
                      /\ leads h c (key2 :: rest) v) in Hl.
    destruct Hl as [c [Hc Hl]].
    change (set_path h l (key :: key2 :: rest) v)
      with (match get h l key with
            | PRef l' => set_path h l' (key2 :: rest) v
            | _ =>
                let (h1, l') := alloc h empty_pobject in
                match set h1 l key (PRef l') with
                | (h2, Returned) => set_path h2 l' (key2 :: rest) v
                | stopped => stopped
                end
            end).
    rewrite (get_own h l key _ Hc). now apply IH.
Qed.

(** Where the keys lead to a value, the read finds it and the path
    exists. *)
Lemma leads_descend (keys : list string) :
  forall h l v,
    leads h l keys v ->
    descend h (PRef l) keys = v /\ descend_has h (PRef l) keys = true.
Proof.
  induction keys as [|key rest IH]; [intros h l v []|].
  intros h l v Hl. destruct rest as [|key2 rest].
  - cbn [leads] in Hl. destruct (has_own h l key v Hl) as [Hh Hg].
    cbn [descend descend_has truthy typeof_object andb]. rewrite Hh, Hg.
    now split.
  - change (leads h l (key :: key2 :: rest) v)
      with (exists c, lookup key (p_props (object_at h l)) = Some (PRef c)
                      /\ leads h c (key2 :: rest) v) in Hl.
    destruct Hl as [c [Hc Hl]]. destruct (has_own h l key _ Hc) as [Hh Hg].
    change (descend h (PRef l) (key :: key2 :: rest))
      with (if truthy (PRef l) && typeof_object (PRef l) && has h l key
            then descend h (get h l key) (key2 :: rest) else PUndef).
    change (descend_has h (PRef l) (key :: key2 :: rest))
      with (if truthy (PRef l) && typeof_object (PRef l) && has h l key
            then descend_has h (get h l key) (key2 :: rest) else false).
    cbn [truthy typeof_object andb]. rewrite Hh, Hg. now apply IH.
Qed.

Lemma set_path_keeps_object_prototype (keys : list string) (h h' : heap)
  (l : loc) :
  object_at h 0 = object_prototype -> plain_walk h l keys = true ->
  (forall l', l' < length h -> ~ In l' (walk h l keys) ->
              object_at h' l' = object_at h l') ->
  object_at h' 0 = object_prototype.
Proof.
  intros H0 Hw Hfr. rewrite Hfr; [exact H0| |].
  - destruct h; [discriminate | simpl; lia].
  - intros Hin. unfold plain_walk in Hw. apply andb_true_iff in Hw.
    destruct Hw as [Hpl _]. rewrite forallb_forall in Hpl.
    now destruct (plain_at_inv _ _ (Hpl _ Hin)).
Qed.

Lemma not_inherited_lookup (key : string) :
  inherited key = false ->
  lookup key (p_props object_prototype) = None /\ (key =? "__proto__") = false.
Proof.
  unfold inherited, object_prototype_keys, object_prototype, builtin_methods.
  cbn [app existsb map p_props lookup]. intros H.
  repeat (apply orb_false_iff in H; destruct H as [?H H]).
  split; [|assumption].
  repeat match goal with
         | |- context [?k =? key] => rewrite (String.eqb_sym k key)
         end.
  repeat match goal with
         | E : (key =? _) = false |- _ => rewrite E; clear E
         end.
  reflexivity.
Qed.

(** On a plain object, in a heap where [Object.prototype] is as a
    program finds it, and at a key that is not a name of
    [Object.prototype], [key in o] and [o[key]] are decided by the own
    properties of [o] : they are what [in_object] and [get_prop] compute
    from them. *)
Lemma has_get_own_only (h : heap) (l : loc) (key : string) :
  object_at h 0 = object_prototype -> plain_at h l = true ->
  inherited key = false ->
  has h l key = has_key key (p_props (object_at h l))
  /\ get h l key = match lookup key (p_props (object_at h l)) with
                   | Some v => v
                   | None => PUndef
                   end.
Proof.
  intros H0 Hp Hk. destruct (not_inherited_lookup key Hk) as [Hn Hne].
  destruct (plain_at_inv _ _ Hp) as [Hl0 [Hl Hpr]].
  unfold has, get, has_key.
  destruct (lookup key (p_props (object_at h l))) as [v|] eqn:E.
  - now rewrite (find_own _ _ _ _ _ E).
  - assert (F : find (length h) h l key = Missing).
    { destruct (length h) as [|fuel]; cbn [find]; rewrite E, Hpr, Hne, andb_false_r;
        [reflexivity|].
      destruct fuel; cbn [find]; rewrite H0, Hn, Hne, andb_false_r; reflexivity. }
    now rewrite F.
Qed.

Lemma descend_not_object (h : heap) (v : pvalue) (keys : list string) :
  (forall l, v <> PRef l) -> keys <> [] -> descend h v keys = PUndef.
Proof.
  intros Hv Hk. destruct keys as [|key rest]; [congruence|].
  destruct v; try reflexivity. now destruct (Hv l).
Qed.

(** A read goes the same way in two heaps that give the objects it goes
    through the same properties. *)
Lemma descend_same (keys : list string) :
  no_inherited_segment keys = true ->
  forall h h' v,
    object_at h 0 = object_prototype -> object_at h' 0 = object_prototype ->
    length h <= length h' ->
    (forall o, In o (visits h v keys) ->
               plain_at h o = true /\ object_at h' o = object_at h o) ->
    descend h' v keys = descend h v keys.
Proof.
  induction keys as [|key rest IH]; [reflexivity|].
  intros Hks h h' v H0 H0' Hle Hv.
  cbn [no_inherited_segment forallb] in Hks. apply andb_true_iff in Hks.
  destruct Hks as [Hk Hks]. apply negb_true_iff in Hk.
  destruct v as [| | | | | |o]; try reflexivity.
  cbn [visits] in Hv. destruct (Hv o (or_introl eq_refl)) as [Hp Ho].
  destruct (plain_at_inv _ _ Hp) as [Ho0 [Hol Hopr]].
  assert (Hp' : plain_at h' o = true).
  { apply plain_at_intro; [exact Ho0 | lia | now rewrite Ho]. }
  destruct (has_get_own_only h o key H0 Hp Hk) as [Hh Hg].
  destruct (has_get_own_only h' o key H0' Hp' Hk) as [Hh' Hg'].
  rewrite Ho in Hh', Hg'.
  cbn [descend truthy typeof_object andb]. rewrite Hh', Hg', Hh, <- Hg.
  destruct (has_key key (p_props (object_at h o))) eqn:E; [|reflexivity].
  apply IH; try assumption.
  intros x Hx. apply Hv. right. now rewrite Hh.
Qed.

(** What a write does to the object it starts from: it keeps its
    prototype and every own property but the one under the first key. *)
Lemma set_path_root (key : string) (rest : list string) (h : heap) (l : loc)
  (v : pvalue) :
  no_proto_segment (key :: rest) = true ->
  object_at h 0 = object_prototype ->
  plain_walk h l (key :: rest) = true ->
  let h' := fst (set_path h l (key :: rest) v) in
  p_proto (object_at h' l) = p_proto (object_at h l)
  /\ forall k', k' <> key ->
                lookup k' (p_props (object_at h' l))
                = lookup k' (p_props (object_at h l)).
Proof.
  intros Hks H0 Hw h'.
  pose proof Hks as Hks0.
  cbn [no_proto_segment forallb] in Hks. apply andb_true_iff in Hks.
  destruct Hks as [Hk Hks]. apply negb_true_iff in Hk.
  pose proof Hw as Hw0.
  unfold plain_walk in Hw. apply andb_true_iff in Hw.
  destruct Hw as [Hpl Hnd]. apply distinct_locs_NoDup in Hnd.
  rewrite forallb_forall in Hpl.
  assert (Hp : plain_at h l = true).
  { apply Hpl. destruct rest; cbn [walk]; now left. }
  destruct (plain_at_inv _ _ Hp) as [Hl0 [Hl Hpr]].
  assert (Hset : forall (g : heap) (x : pvalue),
             l < length g ->
             let g' := update g l
                         {| p_proto := p_proto (object_at g l);
                            p_props := set_prop key x (p_props (object_at g l)) |} in
             p_proto (object_at g' l) = p_proto (object_at g l)
             /\ forall k', k' <> key ->
                           lookup k' (p_props (object_at g' l))
                           = lookup k' (p_props (object_at g l))).
  { intros g x Hg g'. unfold g'. rewrite pobject_at_update_same by exact Hg.
    cbn [p_proto p_props]. split; [reflexivity|].
    intros k' Hne. rewrite lookup_set_prop.
    destruct (String.eqb_spec key k'); [congruence | reflexivity]. }
  destruct rest as [|key2 rest].
  - unfold h'. cbn [set_path]. rewrite (set_own h l key v Hk). cbn [fst].
    now apply Hset.
  - unfold h'.
    change (set_path h l (key :: key2 :: rest) v)
      with (match get h l key with
            | PRef l' => set_path h l' (key2 :: rest) v
            | _ =>
                let (h1, l') := alloc h empty_pobject in
                match set h1 l key (PRef l') with
                | (h2, Returned) => set_path h2 l' (key2 :: rest) v
                | stopped => stopped
                end
            end).
    destruct (get h l key) as [| | | | | |c] eqn:Eg.
    7:{ assert (Ew : walk h l (key :: key2 :: rest)
                     = l :: walk h c (key2 :: rest)).
        { cbn [walk]. now rewrite Eg. }
        rewrite Ew in *. inversion Hnd as [|? ? Hnl Hnd']; subst.
        destruct (set_path_leads (key2 :: rest) ltac:(discriminate) Hks h c v H0)
          as [g [Es [_ [Hfr _]]]].
        { unfold plain_walk. apply andb_true_iff. split.
          - apply forallb_forall. intros x Hx. apply Hpl. now right.
          - now apply NoDup_distinct_locs. }
        rewrite Es. cbn [fst]. rewrite (Hfr l Hl Hnl). now split. }
    all: unfold alloc;
      set (h1 := (h ++ [empty_pobject])%list);
      rewrite (set_own h1 l key _ Hk);
      set (h2 := update h1 l _);
      assert (Hlen1 : length h1 = S (length h))
        by (unfold h1; rewrite length_app; simpl; lia);
      assert (Hlen2 : length h2 = S (length h))
        by (unfold h2; now rewrite length_pupdate);
      assert (H1l : object_at h1 l = object_at h l)
        by (unfold h1; now apply pobject_at_app);
      assert (H20 : object_at h2 0 = object_prototype)
        by (unfold h2; rewrite pobject_at_update_other by (exact (not_eq_sym Hl0));
            unfold h1; rewrite pobject_at_app by lia; exact H0);
      assert (H2c : object_at h2 (length h) = empty_pobject)
        by (unfold h2; rewrite pobject_at_update_other by lia;
            unfold h1; apply pobject_at_alloc);
      assert (Hpc : plain_at h2 (length h) = true)
        by (apply plain_at_intro; [lia | lia | now rewrite H2c]);
      assert (Ewc : walk h2 (length h) (key2 :: rest) = [length h])
        by (cbn [walk]; destruct rest as [|key3 rest']; [reflexivity|];
            cbn [no_proto_segment forallb] in Hks;
            apply andb_true_iff in Hks; destruct Hks as [Hk2 _];
            apply negb_true_iff in Hk2;
            pose proof (get_of_empty h2 (length h) key2 H20 H2c Hk2) as Hne;
            destruct (get h2 (length h) key2) as [| | | | | |c'];
              try reflexivity; now destruct (Hne c'));
      destruct (set_path_leads (key2 :: rest) ltac:(discriminate) Hks h2
                  (length h) v H20) as [g [Es [_ [Hfr _]]]];
        [unfold plain_walk; rewrite Ewc;
         cbn [forallb distinct_locs existsb negb andb]; now rewrite Hpc|];
      rewrite Es; cbn [fst]; rewrite Ewc in Hfr;
      rewrite (Hfr l) by (try lia; intros [Hi|[]]; lia);
      destruct (Hset h1 (PRef (length h)) ltac:(lia)) as [Ha Hb];
      fold h2 in Ha, Hb; rewrite Ha, H1l; split; [reflexivity|];
      intros k' Hne; rewrite (Hb k' Hne); now rewrite H1l.
Qed.

Lemma plain_walk_inv (h : heap) (l : loc) (keys : list string) :
  plain_walk h l keys = true ->
  (forall x, In x (walk h l keys) -> plain_at h x = true)
  /\ NoDup (walk h l keys) /\ plain_at h l = true.
Proof.
  unfold plain_walk. rewrite andb_true_iff. intros [Hpl Hnd].
  rewrite forallb_forall in Hpl. apply distinct_locs_NoDup in Hnd.
  repeat split; try assumption.
  apply Hpl. destruct keys as [|k [|k2 r]]; cbn [walk]; now left.
Qed.

Lemma plain_walk_intro (h : heap) (l : loc) (keys : list string) :
  (forall x, In x (walk h l keys) -> plain_at h x = true) ->
  NoDup (walk h l keys) -> plain_walk h l keys = true.
Proof.
  intros Hpl Hnd. unfold plain_walk. apply andb_true_iff. split.
  - now apply forallb_forall.
  - now apply NoDup_distinct_locs.
Qed.

Lemma set_path_step (h : heap) (l : loc) (key key2 : string)
  (rest : list string) (v : pvalue) :
  set_path h l (key :: key2 :: rest) v
  = match get h l key with
    | PRef l' => set_path h l' (key2 :: rest) v
    | _ =>
        let (h1, l') := alloc h empty_pobject in
        match set h1 l key (PRef l') with
        | (h2, Returned) => set_path h2 l' (key2 :: rest) v
        | stopped => stopped
        end
    end.
Proof. reflexivity. Qed.

Lemma descend_step (h : heap) (l : loc) (key : string) (rest : list string) :
  descend h (PRef l) (key :: rest)
  = if has h l key then descend h (get h l key) rest else PUndef.
Proof. reflexivity. Qed.

(** A write leaves what a read returns, when the two paths part at some
    key, the read asks for no name of [Object.prototype], goes through
    plain objects, and beyond the parting goes through none of the objects
    of the write. *)
Lemma set_path_apart (P : list string) :
  no_proto_segment P = true ->
  forall Q h l v,
    object_at h 0 = object_prototype ->
    plain_walk h l P = true ->
    no_inherited_segment Q = true ->
    diverge P Q = true ->
    forallb (plain_at h) (visits h (PRef l) Q) = true ->
    apart h l P Q = true ->
    descend (fst (set_path h l P v)) (PRef l) Q = descend h (PRef l) Q.
Proof.
  induction P as [|k P' IH]; [intros _ Q h l v _ _ _ Hd; discriminate|].
  intros HP Q h l v H0 Hw HQ Hd Hvis Hap.
  destruct Q as [|k' Q']; [discriminate|].
  pose proof HP as HP0.
  cbn [no_proto_segment forallb] in HP. apply andb_true_iff in HP.
  destruct HP as [Hk HP']. apply negb_true_iff in Hk.
  cbn [no_inherited_segment forallb] in HQ. apply andb_true_iff in HQ.
  destruct HQ as [Hk' HQ']. apply negb_true_iff in Hk'.
  destruct (plain_walk_inv _ _ _ Hw) as [Hpl [Hnd Hp]].
  destruct (plain_at_inv _ _ Hp) as [Hl0 [Hl Hpr]].
  rewrite forallb_forall in Hvis.
  destruct (set_path_leads (k :: P') ltac:(discriminate) HP0 h l v H0 Hw)
    as [hf [Ef [Hlen [Hfr [_ _]]]]].
  assert (H0f : object_at hf 0 = object_prototype)
    by exact (set_path_keeps_object_prototype _ _ _ _ H0 Hw Hfr).
  destruct (set_path_root k P' h l v HP0 H0 Hw) as [Hrp Hrk].
  rewrite Ef in Hrp, Hrk. cbn [fst] in Hrp, Hrk.
  assert (Hpf : plain_at hf l = true).
  { apply plain_at_intro; [exact Hl0 | lia | now rewrite Hrp]. }
  destruct (has_get_own_only h l k' H0 Hp Hk') as [Hh Hg].
  destruct (has_get_own_only hf l k' H0f Hpf Hk') as [Hhf Hgf].
  cbn [diverge] in Hd. cbn [apart] in Hap.
  destruct (String.eqb_spec k k') as [<-|Hne].
  - (* the same first key *)
    destruct (diverge_nonempty _ _ Hd) as [HP'ne HQ'ne].
    destruct P' as [|k2 P'']; [congruence|].
    rewrite Ef. cbn [fst]. rewrite set_path_step in Ef.
    destruct (get h l k) as [| | | | | |c] eqn:Eg.
    7:{ (* the write goes on into the object the key holds *)
      pose proof (get_ref_own h l k c H0 Hp Hk Eg) as Eown.
      assert (Ew : walk h l (k :: k2 :: P'') = l :: walk h c (k2 :: P'')).
      { cbn [walk]. now rewrite Eg. }
      rewrite Ew in *. inversion Hnd as [|? ? Hnl Hnd']; subst.
      assert (Hwc : plain_walk h c (k2 :: P'') = true).
      { apply plain_walk_intro; [|exact Hnd']. intros x Hx. apply Hpl. now right. }
      destruct (set_path_leads (k2 :: P'') ltac:(discriminate) HP' h c v H0 Hwc)
        as [g [Eg' [_ [Hfrc _]]]].
      rewrite Eg' in Ef. inversion Ef; subst g.
      assert (Hlf : object_at hf l = object_at h l) by exact (Hfrc l Hl Hnl).
      destruct (has_own h l k _ Eown) as [Hh1 Hg1].
      rewrite <- Hlf in Eown. destruct (has_own hf l k _ Eown) as [Hh2 Hg2].
      rewrite !descend_step, Hh1, Hg1, Hh2, Hg2.
      specialize (IH HP' Q' h c v H0 Hwc HQ' Hd).
      rewrite Eg' in IH. cbn [fst] in IH. apply IH; [|exact Hap].
      apply forallb_forall. intros x Hx. apply Hvis.
      cbn [visits]. rewrite Hh1, Hg1. now right. }
    all: (* the write makes a new object under the key *)
      assert (Hbefore : descend h (PRef l) (k :: Q') = PUndef)
        by (rewrite descend_step, Eg; destruct (has h l k); [|reflexivity];
            apply descend_not_object; [discriminate | exact HQ'ne]);
      rewrite Hbefore;
      unfold alloc in Ef;
      set (h1 := (h ++ [empty_pobject])%list) in *;
      rewrite (set_own h1 l k _ Hk) in Ef;
      set (h2 := update h1 l _) in *;
      assert (Hlen1 : length h1 = S (length h))
        by (unfold h1; rewrite length_app; simpl; lia);
      assert (Hlen2 : length h2 = S (length h))
        by (unfold h2; now rewrite length_pupdate);
      assert (H20 : object_at h2 0 = object_prototype)
        by (unfold h2; rewrite pobject_at_update_other by (exact (not_eq_sym Hl0));
            unfold h1; rewrite pobject_at_app by lia; exact H0);
      assert (H2c : object_at h2 (length h) = empty_pobject)
        by (unfold h2; rewrite pobject_at_update_other by lia;
            unfold h1; apply pobject_at_alloc);
      assert (H2l : lookup k (p_props (object_at h2 l)) = Some (PRef (length h)))
        by (unfold h2; rewrite pobject_at_update_same by lia;
            cbn [p_props]; rewrite lookup_set_prop; now rewrite String.eqb_refl);
      assert (Hpc : plain_at h2 (length h) = true)
        by (apply plain_at_intro; [lia | lia | now rewrite H2c]);
      assert (Hempty : forall key, inherited key = false ->
                has h2 (length h) key = false /\ get h2 (length h) key = PUndef)
        by (intros key Hi;
            destruct (has_get_own_only h2 (length h) key H20 Hpc Hi) as [Ha Hb];
            rewrite H2c in Ha, Hb; now split);
      assert (Ewc : walk h2 (length h) (k2 :: P'') = [length h])
        by (cbn [walk]; destruct P'' as [|k3 P3]; [reflexivity|];
            cbn [no_proto_segment forallb] in HP';
            apply andb_true_iff in HP'; destruct HP' as [Hk2 _];
            apply negb_true_iff in Hk2;
            pose proof (get_of_empty h2 (length h) k2 H20 H2c Hk2) as Hnr;
            destruct (get h2 (length h) k2) as [| | | | | |c'];
              try reflexivity; now destruct (Hnr c'));
      assert (Hwc : plain_walk h2 (length h) (k2 :: P'') = true)
        by (unfold plain_walk; rewrite Ewc;
            cbn [forallb distinct_locs existsb negb andb]; now rewrite Hpc);
      destruct (set_path_leads (k2 :: P'') ltac:(discriminate) HP' h2
                  (length h) v H20 Hwc) as [g [Eg' [_ [Hfrc _]]]];
      rewrite Eg' in Ef; inversion Ef; subst g;
      rewrite Ewc in Hfrc;
      assert (Hlf : object_at hf l = object_at h2 l)
        by (apply Hfrc; [lia | intros [Hi|[]]; lia]);
      rewrite <- Hlf in H2l; destruct (has_own hf l k _ H2l) as [Hh2 Hg2];
      rewrite descend_step, Hh2, Hg2;
      destruct Q' as [|k2' Q'']; [congruence|];
      cbn [no_inherited_segment forallb] in HQ';
      apply andb_true_iff in HQ'; destruct HQ' as [Hk2' HQ''];
      apply negb_true_iff in Hk2';
      destruct (Hempty k2' Hk2') as [He1 He2];
      specialize (IH HP' (k2' :: Q'') h2 (length h) v H20 Hwc);
      rewrite Eg' in IH; cbn [fst] in IH; rewrite IH;
      [ rewrite descend_step, He1; reflexivity
      | cbn [no_inherited_segment forallb]; now rewrite Hk2', HQ''
      | exact Hd
      | cbn [visits]; rewrite He1; cbn [forallb]; now rewrite Hpc
      | cbn [apart]; destruct (k2 =? k2') eqn:E2;
        [ apply String.eqb_eq in E2; subst k2'; rewrite He2; reflexivity
        | rewrite He2; destruct Q''; reflexivity ] ].
  - (* the paths part at the first key *)
    rewrite Ef. cbn [fst].
    assert (Hne' : k' <> k) by congruence.
    unfold has_key in Hhf. rewrite (Hrk k' Hne') in Hhf, Hgf.
    fold (has_key k' (p_props (object_at h l))) in Hhf.
    rewrite !descend_step, Hhf, Hgf, Hh, <- Hg.
    destruct (has_key k' (p_props (object_at h l))) eqn:E; [|reflexivity].
    apply descend_same; try assumption.
    intros o Ho. rewrite forallb_forall in Hap.
    assert (Hpo : plain_at h o = true).
    { apply Hvis. cbn [visits]. rewrite Hh. now right. }
    split; [exact Hpo|].
    destruct (plain_at_inv _ _ Hpo) as [_ [Hol _]].
    apply Hfr; [exact Hol|]. intros Hin.
    specialize (Hap o Ho). apply negb_true_iff in Hap.
    assert (existsb (Nat.eqb o) (walk h l (k :: P')) = true).
    { apply existsb_exists. exists o. split; [exact Hin | apply Nat.eqb_refl]. }
    congruence.
Qed.

(** X3. In a heap where [Object.prototype] is as a program finds it, for
    every object and every path none of whose segments is [__proto__],
    when the objects the write goes through are plain objects and pairwise
    different: the write returns and the read of the path returns the value
    written, whatever was there before; so of two writes to one path the
    second is the one read. *)
Theorem write_overwrites (h : heap) (l : loc) (p : string) (v1 v2 : pvalue) :
  object_at h 0 = object_prototype ->
  plain_walk h l (getKeys p) = true ->
  no_proto_segment (getKeys p) = true ->
  let first := setNestedValueWithEscaping h (PRef l) (PStr p) v1 in
  let second := setNestedValueWithEscaping (fst first) (PRef l) (PStr p) v2 in
  snd first = Returned
  /\ getNestedValueWithEscaping (fst first) (PRef l) (PStr p) = Ret v1
  /\ snd second = Returned
  /\ getNestedValueWithEscaping (fst second) (PRef l) (PStr p) = Ret v2.
Proof.
  intros H0 Hw Hk first second.
  destruct (set_path_leads (getKeys p) (getKeys_nonempty p) Hk h l v1 H0 Hw)
    as [h1 [E1 [_ [Hfr [Hl1 [Hw1 _]]]]]].
  pose proof (set_path_keeps_object_prototype _ _ _ _ H0 Hw Hfr) as H10.
  destruct (set_path_leads (getKeys p) (getKeys_nonempty p) Hk h1 l v2 H10 Hw1)
    as [h2 [E2 [_ [_ [Hl2 _]]]]].
  unfold second, first, setNestedValueWithEscaping. rewrite E1. cbn [fst snd].
  rewrite E2. cbn [fst snd].
  unfold getNestedValueWithEscaping. cbn [truthy typeof_object negb orb].
  destruct (leads_descend _ _ _ _ Hl1) as [-> _].
  destruct (leads_descend _ _ _ _ Hl2) as [-> _]. now repeat split.
Qed.

Lemma write_overwrites_witness :
  object_at shared_heap 0 = object_prototype
  /\ plain_walk shared_heap 1 (getKeys "a.b") = true
  /\ no_proto_segment (getKeys "a.b") = true
  /\ getNestedValueWithEscaping
       (fst (setNestedValueWithEscaping
               (fst (setNestedValueWithEscaping shared_heap (PRef 1)
                       (PStr "a.b") (PStr "first")))
               (PRef 1) (PStr "a.b") (PRef 3)))
       (PRef 1) (PStr "a.b") = Ret (PRef 3).
Proof.
  split; [reflexivity|]. split; [reflexivity|]. split; [reflexivity|].
  apply (write_overwrites shared_heap 1 "a.b" (PStr "first") (PRef 3));
    reflexivity.
Defined.

(** X4. Under the same conditions, writing the same value at the same
    path a second time returns and changes no object at all. *)
Theorem write_twice_same (h : heap) (l : loc) (p : string) (v : pvalue) :
  object_at h 0 = object_prototype ->
  plain_walk h l (getKeys p) = true ->
  no_proto_segment (getKeys p) = true ->
  let first := setNestedValueWithEscaping h (PRef l) (PStr p) v in
  setNestedValueWithEscaping (fst first) (PRef l) (PStr p) v
  = (fst first, Returned).
Proof.
  intros H0 Hw Hk first.
  destruct (set_path_leads (getKeys p) (getKeys_nonempty p) Hk h l v H0 Hw)
    as [h1 [E1 [_ [_ [Hl1 _]]]]].
  unfold first, setNestedValueWithEscaping. rewrite E1. cbn [fst].
  now apply leads_set_path.
Qed.

Lemma write_twice_same_witness :
  object_at shared_heap 0 = object_prototype
  /\ plain_walk shared_heap 1 (getKeys "a.toString.x") = true
  /\ no_proto_segment (getKeys "a.toString.x") = true
  /\ setNestedValueWithEscaping
       (fst (setNestedValueWithEscaping shared_heap (PRef 1)
               (PStr "a.toString.x") PNull))
       (PRef 1) (PStr "a.toString.x") PNull
     = (fst (setNestedValueWithEscaping shared_heap (PRef 1)
               (PStr "a.toString.x") PNull), Returned).
Proof.
  split; [reflexivity|]. split; [reflexivity|]. split; [reflexivity|].
  apply (write_twice_same shared_heap 1 "a.toString.x" PNull); reflexivity.
Defined.

(** X5. A write leaves alone the read of a path that parts ways with the
    written path.  In a heap where [Object.prototype] is as a program
    finds it: when the two lists of keys share a beginning and then each
    continues with a different key; no segment of the written path is
    [__proto__] and the objects the write goes through are plain and
    pairwise different; no segment of the other path is a name of
    [Object.prototype], the objects its read goes through are plain, and
    beyond the parting it goes through none of the objects of the write;
    then the read of the other path returns after the write what it
    returned before. *)
Theorem write_leaves_diverging_paths (h : heap) (l : loc) (p q : string)
  (v : pvalue) :
  object_at h 0 = object_prototype ->
  plain_walk h l (getKeys p) = true ->
  no_proto_segment (getKeys p) = true ->
  no_inherited_segment (getKeys q) = true ->
  diverge (getKeys p) (getKeys q) = true ->
  forallb (plain_at h) (visits h (PRef l) (getKeys q)) = true ->
  apart h l (getKeys p) (getKeys q) = true ->
  getNestedValueWithEscaping
    (fst (setNestedValueWithEscaping h (PRef l) (PStr p) v)) (PRef l) (PStr q)
  = getNestedValueWithEscaping h (PRef l) (PStr q).
Proof.
  intros H0 Hw Hp Hq Hd Hv Ha.
  unfold setNestedValueWithEscaping, getNestedValueWithEscaping.
  cbn [truthy typeof_object negb orb]. f_equal.
  now apply set_path_apart.
Qed.

Lemma write_leaves_diverging_paths_witness :
  object_at shared_heap 0 = object_prototype
  /\ plain_walk shared_heap 1 (getKeys "a.x.y") = true
  /\ no_proto_segment (getKeys "a.x.y") = true
  /\ no_inherited_segment (getKeys "a.b") = true
  /\ diverge (getKeys "a.x.y") (getKeys "a.b") = true
  /\ forallb (plain_at shared_heap) (visits shared_heap (PRef 1) (getKeys "a.b"))
     = true
  /\ apart shared_heap 1 (getKeys "a.x.y") (getKeys "a.b") = true
  /\ getNestedValueWithEscaping
       (fst (setNestedValueWithEscaping shared_heap (PRef 1) (PStr "a.x.y")
               (PBool true)))
       (PRef 1) (PStr "a.b")
     = Ret (PNum 1).
Proof.
  repeat (split; [reflexivity|]).
  rewrite (write_leaves_diverging_paths shared_heap 1 "a.x.y" "a.b"
             (PBool true));
    reflexivity.
Defined.

(** X7. Under the conditions of X3, after a write the written path
    exists: [hasNestedKeyWithEscaping] answers [true] for it whatever
    value was written, [undefined] and [null] included, the one case in
    which its answer and the value read tell different stories. *)
Theorem write_then_hasKey (h : heap) (l : loc) (p : string) (v : pvalue) :
  object_at h 0 = object_prototype ->
  plain_walk h l (getKeys p) = true ->
  no_proto_segment (getKeys p) = true ->
  hasNestedKeyWithEscaping
    (fst (setNestedValueWithEscaping h (PRef l) (PStr p) v)) (PRef l) (PStr p)
  = Ret true.
Proof.
  intros H0 Hw Hk.
  destruct (set_path_leads (getKeys p) (getKeys_nonempty p) Hk h l v H0 Hw)
    as [h1 [E1 [_ [_ [Hl1 _]]]]].
  unfold setNestedValueWithEscaping. rewrite E1. cbn [fst].
  unfold hasNestedKeyWithEscaping. cbn [truthy typeof_object negb orb].
  now destruct (leads_descend _ _ _ _ Hl1) as [_ ->].
Qed.

Lemma write_then_hasKey_witness :
  object_at shared_heap 0 = object_prototype
  /\ plain_walk shared_heap 1 (getKeys "c.d.e") = true
  /\ no_proto_segment (getKeys "c.d.e") = true
  /\ hasNestedKeyWithEscaping
       (fst (setNestedValueWithEscaping shared_heap (PRef 1) (PStr "c.d.e")
               PUndef))
       (PRef 1) (PStr "c.d.e") = Ret true
  /\ getNestedValueWithEscaping
       (fst (setNestedValueWithEscaping shared_heap (PRef 1) (PStr "c.d.e")
               PUndef))
       (PRef 1) (PStr "c.d.e") = Ret PUndef.
Proof.
  split; [reflexivity|]. split; [reflexivity|]. split; [reflexivity|].
  split; [|reflexivity].
  apply (write_then_hasKey shared_heap 1 "c.d.e" PUndef); reflexivity.
Defined.

(** The conditions are needed.  An object stored under two keys is
    written through one and read through the other; and where an object
    is stored below itself, the value written to a path is not what the
    read of that path returns. *)
Example write_through_shared_object :
  diverge (getKeys "c.d") (getKeys "e.d") = true
  /\ apart shared_heap 1 (getKeys "c.d") (getKeys "e.d") = false
  /\ getNestedValueWithEscaping shared_heap (PRef 1) (PStr "e.d")
     = Ret (PNum 2)
  /\ getNestedValueWithEscaping
       (fst (setNestedValueWithEscaping shared_heap (PRef 1) (PStr "c.d")
               (PNum 9)))
       (PRef 1) (PStr "e.d")
     = Ret (PNum 9).
Proof. repeat split. Qed.

Example write_into_cycle :
  plain_walk cyclic_heap 1 (getKeys "self.self") = false
  /\ snd (setNestedValueWithEscaping cyclic_heap (PRef 1) (PStr "self.self")
            (PNum 5)) = Returned
  /\ getNestedValueWithEscaping
       (fst (setNestedValueWithEscaping cyclic_heap (PRef 1)
               (PStr "self.self") (PNum 5)))
       (PRef 1) (PStr "self.self")
     = Ret PUndef
  /\ hasNestedKeyWithEscaping
       (fst (setNestedValueWithEscaping cyclic_heap (PRef 1)
               (PStr "self.self") (PNum 5)))
       (PRef 1) (PStr "self.self")
     = Ret false.
Proof. repeat split. Qed.

(** A read that asks for a name of [Object.prototype] can change with a
    write to a path it parts from: the write puts a new object where a
    primitive was, and the new object inherits the name. *)
Example write_brings_inherited_names :
  diverge (getKeys "a.b.x") (getKeys "a.b.constructor") = true
  /\ no_inherited_segment (getKeys "a.b.constructor") = false
  /\ getNestedValueWithEscaping shared_heap (PRef 1) (PStr "a.b.constructor")
     = Ret PUndef
  /\ getNestedValueWithEscaping
       (fst (setNestedValueWithEscaping shared_heap (PRef 1) (PStr "a.b.x")
               PNull))
       (PRef 1) (PStr "a.b.constructor")
     = Ret (PFun "constructor").
Proof. repeat split. Qed.

End ProtoWrites.

(** ** [hasNestedKeyWithEscaping] *)

Lemma descend_has_false (keys : list string) :
  forall t, descend_has t keys = false -> descend t keys = VUndef.
Proof.
  induction keys as [|key rest IH]; intros t; [discriminate|].
  simpl. destruct (truthy t && typeof_object t && in_object key t);
    [apply IH | reflexivity].
Qed.

(** X6. Whenever [hasNestedKeyWithEscaping] answers [false] for a path,
    [getNestedValueWithEscaping] returns [undefined] for it; and the two
    raise on the same arguments, with the same error. *)
Theorem hasKey_false_read_undefined (obj path : value) :
  (hasNestedKeyWithEscaping obj path = Ret false ->
   getNestedValueWithEscaping obj path = Ret VUndef)
  /\ (forall e, hasNestedKeyWithEscaping obj path = Throw e
                <-> getNestedValueWithEscaping obj path = Throw e).
Proof.
  unfold hasNestedKeyWithEscaping, getNestedValueWithEscaping.
  destruct (negb (truthy obj) || negb (typeof_object obj)).
  - split; [discriminate|]. intros e. split; intros H; inversion H; reflexivity.
  - destruct path as [| | | |p|];
      try (split; [discriminate|];
           intros e; split; intros H; inversion H; reflexivity).
    split.
    + intros H. inversion H as [Hd]. f_equal. now apply descend_has_false.
    + intros e. split; discriminate.
Qed.

Lemma hasKey_false_read_undefined_witness :
  hasNestedKeyWithEscaping nestedData3 (VStr "test.nothing.here") = Ret false
  /\ getNestedValueWithEscaping nestedData3 (VStr "test.nothing.here")
     = Ret VUndef.
Proof.
  split; [reflexivity|].
  apply (proj1 (hasKey_false_read_undefined nestedData3
                  (VStr "test.nothing.here"))).
  reflexivity.
Defined.

(** ** The store's object *)

Lemma run_call_plain (s : store) (c : store_call) :
  (exists ps, jsonObject s = VObj KPlain ps) ->
  exists ps, jsonObject (run_call s c) = VObj KPlain ps.
Proof.
  intros [ps E]. destruct s as [o]. simpl in E. subst o.
  destruct c as [path v|obj]; simpl.
  - unfold write, setNestedValueWithEscaping. cbn [jsonObject typeof_object is_object negb orb].
    destruct path as [| | | |p|]; try (now exists ps).
    destruct (set_path_object KPlain ps (getKeys p) v) as [ps' E].
    simpl. rewrite E. now exists ps'.
  - unfold init, flattenJsonWithEscaping, json_roundtrip.
    destruct (negb (typeof_object (if truthy obj then obj else empty_object))
              || negb (is_object (if truthy obj then obj else empty_object)));
      [now exists ps|].
    cbn [bind json_copy]. eexists. reflexivity.
Qed.

Lemma run_calls_plain (cs : list store_call) :
  exists ps, jsonObject (run_calls cs) = VObj KPlain ps.
Proof.
  unfold run_calls.
  assert (H : forall s, (exists ps, jsonObject s = VObj KPlain ps) ->
            exists ps, jsonObject (fold_left run_call cs s) = VObj KPlain ps).
  { induction cs as [|c cs IH]; intros s Hs; [exact Hs|].
    simpl. apply IH. now apply run_call_plain. }
  apply H. now exists [].
Qed.

(** X8. Whatever calls of [write] and [init] were made on a manager, with
    whatever values as arguments (a function is not one of them) and
    whether they returned or raised, the manager holds an object; so
    [read], [search] and [hasKey] of a string path never raise. *)
Theorem store_calls_never_break (cs : list store_call) (p : string) :
  is_object (jsonObject (run_calls cs)) = true
  /\ raises (read (run_calls cs) (VStr p)) = false
  /\ raises (search (run_calls cs) (VStr p)) = false
  /\ raises (hasKey (run_calls cs) (VStr p)) = false.
Proof.
  destruct (run_calls_plain cs) as [ps E].
  unfold read, search, hasKey, getNestedValueWithEscaping,
    searchNestedValueWithEscaping, hasNestedKeyWithEscaping.
  rewrite E. repeat split.
Qed.

(** ** What Flatten records *)

Section SetPropIn.
Variable A : Type.

Lemma In_replace_prop (ps : list (string * A)) key v k w :
  In (k, w) (replace_prop key v ps) ->
  (k = key /\ w = v) \/ In (k, w) ps.
Proof.
  induction ps as [|[k' w'] ps IH]; simpl; [tauto|].
  destruct (String.eqb_spec k' key) as [->|Hne]; simpl.
  - intros [E|H]; [inversion E; now left | right; now right].
  - intros [E|H]; [right; now left|].
    destruct (IH H); [now left | right; now right].
Qed.

(** A property after an assignment is the assigned one or an old one. *)
Lemma In_set_prop_key (ps : list (string * A)) key v k w :
  In (k, w) (set_prop key v ps) -> (k = key /\ w = v) \/ In (k, w) ps.
Proof.
  unfold set_prop. destruct (has_key key ps).
  - apply In_replace_prop.
  - intros H.
    apply (Permutation_in _ (insert_new_perm A ps key v)) in H.
    destruct H as [E|H]; [inversion E; now left | now right].
Qed.
End SetPropIn.

Lemma fold_assign_entry_In (es acc : props) k w :
  In (k, w) (fold_left assign_entry es acc) -> In (k, w) es \/ In (k, w) acc.
Proof.
  revert acc. induction es as [|[key v] es IH]; intros acc H; simpl in *.
  - now right.
  - destruct (IH _ H) as [Hin|Hin]; [left; now right|].
    unfold assign_entry in Hin. simpl in Hin.
    apply In_set_prop_key in Hin. destruct Hin as [[-> ->]|Hin].
    + left. now left.
    + now right.
Qed.

Lemma in_leaves k ps segs x :
  In (segs, x) (leaves (VObj k ps)) ->
  exists key child,
    In (key, child) ps
    /\ ((is_object child = true
         /\ exists rest, segs = key :: rest /\ In (rest, x) (leaves child))
        \/ (is_object child = false /\ segs = [key] /\ x = child)).
Proof.
  cbn [leaves]. intros H. apply in_flat_map in H.
  destruct H as [[key child] [Hin H]]. exists key, child.
  split; [exact Hin|]. cbn [fst snd] in H.
  destruct (is_object child).
  - left. split; [reflexivity|]. apply in_map_iff in H.
    destruct H as [[rest y] [E Hr]]. inversion E; subst. now exists rest.
  - right. destruct H as [E|[]]. inversion E; subst. now repeat split.
Qed.

Lemma distinct_keys_inv k ps :
  distinct_keys (VObj k ps) = true ->
  NoDup (keys_of ps)
  /\ forall key child, In (key, child) ps -> distinct_keys child = true.
Proof.
  simpl. rewrite andb_true_iff. intros [Hd Hc]. split.
  - now apply distinct_NoDup.
  - intros key child Hin. rewrite forallb_forall in Hc. exact (Hc _ Hin).
Qed.

Lemma descend_key kd ps key child rest :
  NoDup (keys_of ps) -> In (key, child) ps ->
  descend (VObj kd ps) (key :: rest) = descend child rest.
Proof.
  intros Hnd Hin. cbn [descend truthy typeof_object andb in_object get_prop].
  unfold has_key. now rewrite (In_lookup _ _ _ _ Hnd Hin).
Qed.

(** Reading a tree along the keys of one of its leaves finds the leaf. *)
Lemma leaves_descend (t : value) :
  distinct_keys t = true ->
  forall segs x, In (segs, x) (leaves t) -> descend t segs = x.
Proof.
  induction t as [| | | | |k ps IH] using value_ind; try contradiction.
  intros Hd segs x Hin. destruct (distinct_keys_inv _ _ Hd) as [Hnd Hc].
  apply in_leaves in Hin.
  destruct Hin as [key [child [Hi [[Ho [rest [-> Hr]]]|[Ho [-> ->]]]]]].
  - rewrite (descend_key _ _ _ _ _ Hnd Hi).
    rewrite Forall_forall in IH. apply (IH (key, child) Hi); [|exact Hr].
    now apply (Hc key).
  - now rewrite (descend_key _ _ _ _ _ Hnd Hi).
Qed.

Lemma recurse_values (t : value) :
  forall keyPrefix result k w,
    In (k, w) (recurse t keyPrefix result) ->
    In (k, w) (emitted t keyPrefix) \/ In (k, w) result.
Proof.
  intros keyPrefix result k w. rewrite recurse_emitted.
  apply fold_assign_entry_In.
Qed.

Lemma emitted_values (t : value) :
  forall keyPrefix k w, In (k, w) (emitted t keyPrefix) -> is_object w = false.
Proof.
  induction t as [| | | | |kd ps IH] using value_ind; try contradiction.
  intros keyPrefix k w H. cbn [emitted] in H. apply in_flat_map in H.
  destruct H as [[key child] [Hin H]]. cbn [fst snd] in H.
  destruct (is_object child) eqn:Ho.
  - rewrite Forall_forall in IH. exact (IH _ Hin _ _ _ H).
  - destruct H as [E|[]]. now inversion E; subst.
Qed.

(** X9. Whatever object Flatten is given, arrays and empty mappings
    included, the object it returns is one level deep: none of the values
    it records is an object. *)
Theorem flatten_result_is_flat (obj : value) (k : kind) (flat : props) :
  flattenJsonWithEscaping obj = Ret (VObj k flat) ->
  k = KPlain /\ forall key w, In (key, w) flat -> is_object w = false.
Proof.
  unfold flattenJsonWithEscaping.
  destruct (negb (typeof_object obj) || negb (is_object obj)); [discriminate|].
  intros H. inversion H; subst. split; [reflexivity|].
  intros key w Hin. apply recurse_values in Hin.
  destruct Hin as [Hin|[]]. exact (emitted_values _ _ _ _ Hin).
Qed.

Lemma flatten_result_is_flat_witness :
  flattenJsonWithEscaping
    (object_of [("a", array_of [VNum 1; object_of []]); ("b", VNull)])
  = Ret (VObj KPlain [("a.0", VNum 1); ("b", VNull)])
  /\ forall key w, In (key, w) [("a.0", VNum 1); ("b", VNull)] ->
                   is_object w = false.
Proof.
  split; [reflexivity|].
  apply (flatten_result_is_flat
           (object_of [("a", array_of [VNum 1; object_of []]); ("b", VNull)])
           KPlain [("a.0", VNum 1); ("b", VNull)]).
  reflexivity.
Defined.

Lemma emitted_leafless (t : value) :
  forall keyPrefix, leaves t = [] -> emitted t keyPrefix = [].
Proof.
  induction t as [| | | | |kd ps IH] using value_ind; try reflexivity.
  intros keyPrefix. cbn [leaves emitted].
  induction IH as [|[key child] ps Hc _ IHps]; [reflexivity|].
  cbn [flat_map fst snd]. intros H. apply app_eq_nil in H.
  destruct H as [H1 H2]. rewrite (IHps H2), List.app_nil_r.
  simpl in Hc. destruct (is_object child).
  - apply Hc. now destruct (leaves child).
  - discriminate.
Qed.

(** X10. A property whose value is an object without any leaf (an empty
    mapping, an empty array, or mappings that hold only such) leaves no
    trace: Flatten returns the same with the property as without it. *)
Theorem flatten_drops_leafless (k : kind) (before after : props)
  (key : string) (child : value) :
  is_object child = true -> leaves child = [] ->
  flattenJsonWithEscaping (VObj k (before ++ (key, child) :: after)%list)
  = flattenJsonWithEscaping (VObj k (before ++ after)%list).
Proof.
  intros Ho Hl. unfold flattenJsonWithEscaping.
  cbn [typeof_object is_object negb orb]. do 2 f_equal.
  rewrite !recurse_emitted. f_equal. cbn [emitted].
  rewrite !flat_map_app. f_equal. cbn [flat_map fst snd].
  rewrite Ho, (emitted_leafless child _ Hl). reflexivity.
Qed.

Lemma flatten_drops_leafless_witness :
  is_object (object_of [("x", object_of [])]) = true
  /\ leaves (object_of [("x", object_of [])]) = []
  /\ flattenJsonWithEscaping
       (VObj KPlain ([("a", VNum 1)]
                     ++ ("gone", object_of [("x", object_of [])])
                        :: [("b", VNum 2)])%list)
     = Ret (object_of [("a", VNum 1); ("b", VNum 2)]).
Proof.
  split; [reflexivity|]. split; [reflexivity|].
  rewrite (flatten_drops_leafless KPlain [("a", VNum 1)] [("b", VNum 2)]
             "gone" (object_of [("x", object_of [])]));
    reflexivity.
Defined.

(** X11. In a tree with distinct keys in which no key holding a mapping
    ends in a backslash and the top-level empty key holds no mapping, every
    key Flatten records is a path that reads, in the tree itself, the value
    recorded under it. *)
Theorem flatten_entries_read_back (t : value) (flat : props)
  (key : string) (x : value) :
  distinct_keys t = true -> separable t = true -> top_named t = true ->
  flattenJsonWithEscaping t = Ret (VObj KPlain flat) ->
  lookup key flat = Some x ->
  getNestedValueWithEscaping t (VStr key) = Ret x.
Proof.
  intros Hd Hs Ht Hf Hl. unfold flattenJsonWithEscaping in Hf.
  destruct t as [| | | | |k ps]; try discriminate.
  cbn [typeof_object is_object negb orb] in Hf. inversion Hf; subst flat.
  clear Hf. apply lookup_In in Hl.
  apply (recurse_values (VObj k ps) "" [] key x) in Hl.
  destruct Hl as [Hl|[]].
  apply (in_map decode_entry) in Hl.
  rewrite (decode_emitted (VObj k ps) "" [] Hs) in Hl;
    [|now split|congruence].
  rewrite map_under_nil in Hl. unfold decode_entry in Hl. cbn [fst snd] in Hl.
  unfold getNestedValueWithEscaping.
  cbn [truthy typeof_object negb orb]. f_equal.
  now apply leaves_descend.
Qed.

Lemma flatten_entries_read_back_witness :
  getNestedValueWithEscaping nestedData3 (VStr "test.tester\.makeup.makeup")
  = Ret (VNum 10).
Proof.
  apply (flatten_entries_read_back nestedData3
           [("test.tester\.makeup.testing", VStr "10");
            ("test.tester\.makeup.makeup", VNum 10);
            ("test.madeup", VNum 20); ("fakeup", VNum 30)]);
    reflexivity.
Defined.

(** ** The matches of the search can be read *)

Lemma push_if_In (b : bool) (x m : smatch) (results : list smatch) :
  In m (push_if b x results) -> In m results \/ m = x.
Proof.
  unfold push_if. destruct b; [|now left].
  intros H. apply in_app_or in H. destruct H as [H|[H|[]]]; auto.
Qed.

(** Every match of [deepSearch] is one of the keys of the tree, whatever
    the regular expression and its state. *)
Lemma deepSearch_In (c : criteria) (obj : value) :
  forall currentPath st m,
    In m (fst (deepSearch c obj currentPath st)) ->
    In m (fst st) \/ In m (nodes obj currentPath).
Proof.
  induction obj as [| | | | |kd ps IH] using value_ind;
    intros currentPath st m H; try (now left).
  cbn [deepSearch nodes] in *. revert st H.
  induction IH as [|[key child] ps Hc _ IHps]; intros st H.
  - now left.
  - cbn [fold_left flat_map fst snd] in *.
    apply IHps in H. destruct H as [H|H].
    2:{ right. apply in_or_app. now right. }
    set (fp := join_key currentPath (escapeKey key)) in *.
    set (x := {| m_path := fp; m_value := child |}) in *.
    assert (Hp : forall b r, In m (push_if b x
                                     (push_if (keywords_match c fp child) x
                                        (push_if (like_matches c fp) x r))) ->
                 In m r \/ m = x).
    { intros b r Hr. apply push_if_In in Hr. destruct Hr as [Hr|Hr]; auto.
      apply push_if_In in Hr. destruct Hr as [Hr|Hr]; auto.
      now apply push_if_In in Hr. }
    simpl in Hc. destruct (is_object child).
    + apply Hc in H. cbn [fst] in H. destruct H as [H|H].
      * apply Hp in H. destruct H as [H| ->]; [now left|].
        right. now left.
      * right. apply in_or_app. left. now right.
    + cbn [fst] in H. apply Hp in H. destruct H as [H| ->]; [now left|].
      right. now left.
Qed.

(** The path generated for a key of the tree tokenizes to the keys that
    lead to it, and reading along them finds the value it holds. *)
Lemma nodes_read (t : value) :
  forall p q,
    distinct_keys t = true -> separable t = true ->
    (p = "" -> q = [] /\ top_named t = true) ->
    (p <> "" -> ends_with_backslash p = false /\ getKeys p = q) ->
    forall m, In m (nodes t p) ->
              exists segs, getKeys (m_path m) = (q ++ segs)%list
                           /\ segs <> []
                           /\ descend t segs = m_value m.
Proof.
  induction t as [| | | | |k ps IH] using value_ind; try contradiction.
  intros p q Hd Hsep Htop Hin m Hm.
  destruct (distinct_keys_inv _ _ Hd) as [Hnd Hdc].
  cbn [nodes] in Hm. apply in_flat_map in Hm.
  destruct Hm as [[key child] [Hi Hm]]. cbn [fst snd] in Hm.
  destruct (separable_child _ _ _ _ Hsep Hi) as [Hs Hb].
  assert (Hkeys : getKeys (join_key p (escapeKey key)) = (q ++ [key])%list).
  { destruct (string_dec p "") as [->|Hp].
    - destruct (Htop eq_refl) as [-> _]. rewrite join_key_empty_prefix.
      apply getKeys_escapeKey.
    - destruct (Hin Hp) as [Hb' <-]. now apply getKeys_join_key. }
  destruct Hm as [<-|Hm].
  - exists [key]. cbn [m_path m_value]. repeat split; [exact Hkeys|discriminate|].
    now rewrite (descend_key _ _ _ _ _ Hnd Hi).
  - destruct (is_object child) eqn:Ho; [|contradiction].
    rewrite Forall_forall in IH.
    destruct (IH (key, child) Hi (join_key p (escapeKey key))
                (q ++ [key])%list (Hdc _ _ Hi) Hs) with (m := m)
      as [segs [Hg [Hne Hr]]]; [| |exact Hm|].
    + intros E. exfalso. destruct (string_dec p "") as [->|Hp].
      * rewrite join_key_empty_prefix in E. apply escapeKey_empty in E.
        destruct (Htop eq_refl) as [_ Ht]. simpl in Ht.
        rewrite forallb_forall in Ht. specialize (Ht _ Hi). simpl in Ht.
        rewrite Ho, E in Ht. discriminate.
      * rewrite (join_key_prefix _ _ Hp) in E.
        now apply (append_nonempty _ _ Hp) in E.
    + intros _. split; [|exact Hkeys].
      destruct (string_dec p "") as [->|Hp].
      * rewrite join_key_empty_prefix. unfold ends_with_backslash.
        rewrite ends_with_backslash_escapeKey. now apply Hb.
      * rewrite (ends_with_backslash_join_key _ _ Hp). now apply Hb.
    + exists (key :: segs). repeat split; [|discriminate|].
      * rewrite Hg. now rewrite <- List.app_assoc.
      * now rewrite (descend_key _ _ _ _ _ Hnd Hi).
Qed.

(** X12. In a store whose tree has distinct keys, no key holding a
    mapping that ends in a backslash and no mapping under the top-level
    empty key, every match [has] reports for [like], [keywords] and
    [regex] carries a path that [read] resolves to the value reported with
    it. *)
Theorem has_matches_read_back (s : store) (c : criteria)
  (found : list smatch) (m : smatch) :
  is_object (jsonObject s) = true ->
  distinct_keys (jsonObject s) = true ->
  separable (jsonObject s) = true ->
  top_named (jsonObject s) = true ->
  c_path c = None ->
  has s c = Ret found -> In m found ->
  read s (VStr (m_path m)) = Ret (m_value m).
Proof.
  intros Ho Hd Hs Ht Hp Hf Hm.
  unfold has, searchJson, path_matches in Hf. rewrite Hp in Hf.
  cbn [bind] in Hf. inversion Hf as [E]. clear Hf. subst found.
  assert (Hn : In m (nodes (jsonObject s) "")).
  { destruct (wants_deep_search c); [|contradiction].
    apply deepSearch_In in Hm. cbn [fst] in Hm. now destruct Hm. }
  destruct (nodes_read (jsonObject s) "" [] Hd Hs) with (m := m)
    as [segs [Hg [_ Hr]]]; [now split|congruence|exact Hn|].
  unfold read. rewrite getNested_object by exact Ho.
  rewrite Hg. simpl. now rewrite Hr.
Qed.

Lemma has_matches_read_back_witness :
  read search_fixture (VStr "example.like")
  = Ret (object_of [("path", VStr "test")]).
Proof.
  apply (has_matches_read_back search_fixture (like_only "like")
           [ {| m_path := "example.like";
                m_value := object_of [("path", VStr "test")] |};
             {| m_path := "example.like.path"; m_value := VStr "test" |} ]
           {| m_path := "example.like";
              m_value := object_of [("path", VStr "test")] |});
    try reflexivity.
  now left.
Defined.

(** ** The first declaration of the read *)

Lemma reduce_undefined (keys : list string) :
  fold_left
    (fun current key =>
       if truthy current && typeof_object current && in_object key current
       then get_prop current key else VUndef) keys VUndef
  = VUndef.
Proof. induction keys as [|key rest IH]; [reflexivity | exact IH]. Qed.

Lemma reduce_descend (keys : list string) :
  forall current,
    fold_left
      (fun current key =>
         if truthy current && typeof_object current && in_object key current
         then get_prop current key else VUndef) keys current
    = descend current keys.
Proof.
  induction keys as [|key rest IH]; intros current; [reflexivity|].
  cbn [fold_left descend].
  destruct (truthy current && typeof_object current && in_object key current).
  - apply IH.
  - apply reduce_undefined.
Qed.

(** X13. The earlier declaration of [getNestedValueWithEscaping], a
    [reduce] with no early exit, returns the value the later declaration
    returns wherever that one returns, and [undefined] wherever that one
    raises. *)
Theorem first_declaration_agrees (obj path : value) :
  getNestedValueWithEscaping_first obj path
  = match getNestedValueWithEscaping obj path with
    | Ret v => v
    | Throw _ => VUndef
    end.
Proof.
  unfold getNestedValueWithEscaping_first, getNestedValueWithEscaping.
  destruct path as [| | | |p|]; cbn [is_string negb];
    rewrite ?orb_true_r;
    try (destruct (negb (truthy obj) || negb (typeof_object obj));
         reflexivity).
  rewrite orb_false_r, reduce_descend.
  destruct (truthy obj) eqn:Et; cbn [negb orb]; [|reflexivity].
  destruct (typeof_object obj) eqn:Eo; cbn [negb]; [reflexivity|].
  apply descend_nonobject; [|apply getKeys_nonempty].
  now destruct obj.
Qed.

(** ** Where the path search and the read agree *)

Lemma unescape_no_backslash (s : string) :
  no_backslash s = true -> unescape_dots s = s.
Proof.
  induction s as [|c s IH]; [reflexivity|].
  cbn [no_backslash]. intros H. apply andb_true_iff in H.
  destruct H as [Hc Hs]. apply negb_true_iff in Hc.
  change (unescape_dots (String c s))
    with (match s with
          | String d rest' =>
              if Ascii.eqb c backslash && Ascii.eqb d dot
              then String dot (unescape_dots rest')
              else String c (unescape_dots s)
          | EmptyString => String c ""
          end).
  destruct s as [|d rest']; [reflexivity|].
  rewrite Hc. cbn [andb]. now rewrite (IH Hs).
Qed.

Lemma split_no_backslash (s : string) :
  no_backslash s = true -> split_unescaped_from false s = split_dot s.
Proof.
  induction s as [|c s IH]; [reflexivity|].
  cbn [no_backslash]. intros H. apply andb_true_iff in H.
  destruct H as [Hc Hs]. apply negb_true_iff in Hc.
  cbn [split_unescaped_from split_dot]. rewrite Hc, (IH Hs).
  cbn [negb]. now rewrite andb_true_r.
Qed.

Lemma split_dot_no_backslash (s : string) :
  no_backslash s = true -> Forall (fun k => no_backslash k = true) (split_dot s).
Proof.
  induction s as [|c s IH]; [repeat constructor|].
  cbn [no_backslash]. intros H. apply andb_true_iff in H.
  destruct H as [Hc Hs]. specialize (IH Hs). cbn [split_dot].
  destruct (Ascii.eqb c dot).
  - constructor; [reflexivity | exact IH].
  - destruct (split_dot s) as [|h t]; simpl.
    + repeat constructor. simpl. now rewrite Hc.
    + inversion IH; subst. constructor; [|assumption].
      simpl. now rewrite Hc.
Qed.

(** Without a backslash in the path the two tokenizers give the same
    keys. *)
Lemma getKeys_no_backslash (p : string) :
  no_backslash p = true -> getKeys p = searchPath_keys p.
Proof.
  intros H. unfold getKeys, searchPath_keys, split_unescaped.
  rewrite (unescape_no_backslash p H), (split_no_backslash p H).
  pose proof (split_dot_no_backslash p H) as Hf.
  induction Hf as [|k l Hk _ IH]; [reflexivity|].
  simpl. now rewrite (unescape_no_backslash k Hk), IH.
Qed.

Lemma searchPath_loop_descend (keys : list string) :
  forall t, descend_has t keys = true ->
            searchPath_loop t keys = Ret (descend t keys).
Proof.
  induction keys as [|key rest IH]; intros t H; [reflexivity|].
  cbn [descend_has descend searchPath_loop] in *.
  destruct t as [| | | | |kd ps]; try discriminate;
    try (cbn [truthy typeof_object andb] in H;
         rewrite ?andb_false_r in H; discriminate).
  cbn [truthy typeof_object is_object andb] in *.
  destruct (in_object key (VObj kd ps)); [|discriminate].
  now apply IH.
Qed.

(** X14. For a non-empty path without a backslash that exists in the
    store and holds a value other than [null], [has({path})] returns
    exactly one match: the path as given, with the value [read] returns. *)
Theorem has_path_agrees_with_read (s : store) (p : string) (v : value) :
  no_backslash p = true -> p <> "" ->
  hasKey s (VStr p) = Ret true ->
  read s (VStr p) = Ret v -> v <> VNull ->
  has s (path_only p) = Ret [ {| m_path := p; m_value := v |} ].
Proof.
  intros Hb Hp Hk Hr Hv.
  unfold hasKey, hasNestedKeyWithEscaping in Hk.
  unfold read, getNestedValueWithEscaping in Hr.
  destruct (negb (truthy (jsonObject s)) || negb (typeof_object (jsonObject s)));
    [discriminate|].
  inversion Hk as [Hk']. inversion Hr as [Hr']. clear Hk Hr.
  unfold has, searchJson, path_matches, path_only. cbn [c_path].
  destruct (String.eqb_spec p "") as [|_]; [contradiction|]. cbn [negb].
  unfold searchPath. fold (searchPath_keys p).
  rewrite <- (getKeys_no_backslash p Hb).
  rewrite (searchPath_loop_descend _ _ Hk'). cbn [bind].
  destruct (descend (jsonObject s) (getKeys p)); try congruence; reflexivity.
Qed.

Lemma has_path_agrees_with_read_witness :
  has search_fixture (path_only "example.like.path")
  = Ret [ {| m_path := "example.like.path"; m_value := VStr "test" |} ].
Proof.
  apply (has_path_agrees_with_read search_fixture "example.like.path"
           (VStr "test")); try reflexivity; discriminate.
Defined.

(** ** [init] and [dump] *)

Lemma json_members_clean (ps : props) :
  Forall (fun kv => json_clean (snd kv) = true) ps -> json_members ps = ps.
Proof.
  induction 1 as [|[k v] ps Hv _ IH]; [reflexivity|].
  simpl in Hv. simpl. rewrite IH. now destruct v.
Qed.

(** [JSON.parse(JSON.stringify(v))] gives back a value without
    [undefined] and without arrays. *)
Lemma json_copy_clean (v : value) : json_clean v = true -> json_copy v = v.
Proof.
  induction v as [| | |n| |k ps IH] using value_ind; try reflexivity.
  { destruct n; try discriminate. reflexivity. }
  cbn [json_clean]. rewrite andb_true_iff. intros [Hk Hc].
  destruct k; [|discriminate]. cbn [json_copy].
  rewrite forallb_forall in Hc.
  assert (Hm : map (fun kv => (fst kv, json_copy (snd kv))) ps = ps).
  { rewrite <- (map_id ps) at 2. apply map_ext_in. intros [key c] Hin.
    rewrite Forall_forall in IH. cbn [fst snd id].
    pose proof (IH (key, c) Hin (Hc _ Hin)) as Hcopy. cbn [snd] in Hcopy.
    now rewrite Hcopy. }
  rewrite Hm. f_equal. apply json_members_clean.
  apply Forall_forall. exact Hc.
Qed.

Lemma json_roundtrip_clean (k : kind) (ps : props) :
  json_clean (VObj k ps) = true -> json_roundtrip (VObj k ps) = Ret (VObj k ps).
Proof.
  intros H. unfold json_roundtrip. now rewrite (json_copy_clean _ H).
Qed.

Lemma emitted_clean (t : value) :
  json_clean t = true ->
  forall keyPrefix k w, In (k, w) (emitted t keyPrefix) -> json_clean w = true.
Proof.
  induction t as [| | | | |kd ps IH] using value_ind; try contradiction.
  cbn [json_clean]. rewrite andb_true_iff. intros [_ Hc] keyPrefix k w H.
  rewrite forallb_forall in Hc.
  cbn [emitted] in H. apply in_flat_map in H.
  destruct H as [[key child] [Hin H]]. cbn [fst snd] in H.
  destruct (is_object child).
  - rewrite Forall_forall in IH. exact (IH _ Hin (Hc _ Hin) _ _ _ H).
  - destruct H as [E|[]]. inversion E; subst. exact (Hc _ Hin).
Qed.

Lemma recurse_clean (k : kind) (ps : props) :
  json_clean (VObj k ps) = true ->
  json_clean (VObj KPlain (recurse (VObj k ps) "" [])) = true.
Proof.
  intros H. cbn [json_clean kind_eqb andb]. apply forallb_forall.
  intros [key w] Hin.
  apply (recurse_values (VObj k ps) "" [] key w) in Hin.
  destruct Hin as [Hin|[]]. exact (emitted_clean _ H _ _ _ Hin).
Qed.

Lemma assign_clean (t : value) (key : string) (v : value) :
  json_clean t = true -> is_object t = true -> json_clean v = true ->
  json_clean (assign t key v) = true.
Proof.
  destruct t as [| | | | |k ps]; try discriminate.
  cbn [json_clean assign]. rewrite andb_true_iff. intros [Hk Hc] _ Hv.
  rewrite Hk. cbn [andb]. rewrite forallb_forall in Hc.
  apply forallb_forall. intros [k' w] Hin.
  apply In_set_prop_key in Hin. destruct Hin as [[_ ->]|Hin]; [exact Hv|].
  exact (Hc _ Hin).
Qed.

Lemma get_prop_clean (t : value) (key : string) :
  json_clean t = true ->
  json_clean (if negb (truthy (get_prop t key))
                 || negb (typeof_object (get_prop t key))
              then empty_object else get_prop t key) = true.
Proof.
  intros Ht.
  destruct (negb (truthy (get_prop t key))
            || negb (typeof_object (get_prop t key))) eqn:En;
    [reflexivity|].
  destruct t as [| | | | |k ps]; try discriminate.
  cbn [get_prop] in *. destruct (lookup key ps) as [c|] eqn:E;
    [|discriminate].
  apply lookup_In in E. cbn [json_clean] in Ht.
  apply andb_true_iff in Ht. destruct Ht as [_ Hc].
  rewrite forallb_forall in Hc. exact (Hc _ E).
Qed.

Lemma set_path_clean (keys : list string) :
  forall t v,
    json_clean t = true -> is_object t = true -> json_clean v = true ->
    json_clean (set_path t keys v) = true.
Proof.
  induction keys as [|key rest IH]; intros t v Ht Ho Hv; [exact Ht|].
  destruct rest as [|key2 rest].
  - now apply assign_clean.
  - change (set_path t (key :: key2 :: rest) v)
      with (assign t key
              (set_path (if negb (truthy (get_prop t key))
                            || negb (typeof_object (get_prop t key))
                         then empty_object else get_prop t key)
                 (key2 :: rest) v)).
    apply assign_clean; [exact Ht | exact Ho|].
    apply IH; [now apply get_prop_clean | apply next_object | exact Hv].
Qed.

Lemma unflatten_clean (ps : props) :
  forall r,
    json_clean r = true -> is_object r = true ->
    Forall (fun kv => json_clean (snd kv) = true) ps ->
    json_clean (fold_left unflatten_step ps r) = true
    /\ is_object (fold_left unflatten_step ps r) = true.
Proof.
  induction ps as [|[key v] ps IH]; intros r Hr Ho Hf; [now split|].
  inversion Hf as [|? ? Hv Hf']; subst. simpl in Hv.
  cbn [fold_left]. apply IH; [| |exact Hf'].
  - unfold unflatten_step. now apply set_path_clean.
  - unfold unflatten_step. now apply set_path_is_object.
Qed.

(** Unflatten of what [recurse] records, against the tree it is recorded
    from. *)
Lemma unflatten_recurse_deep_equal (k : kind) (ps : props) :
  plain_tree (VObj k ps) = true -> no_empty_mapping (VObj k ps) = true ->
  separable (VObj k ps) = true -> top_named (VObj k ps) = true ->
  deep_equal (fold_left unflatten_step (recurse (VObj k ps) "" [])
                empty_object) (VObj k ps) = true.
Proof.
  intros Hp Hnm Hs Ht.
  rewrite fold_left_decode, <- build_fold.
  apply build_leaves; try assumption; [reflexivity|].
  rewrite recurse_emitted.
  rewrite <- (map_under_nil (leaves (VObj k ps))).
  rewrite <- (decode_emitted (VObj k ps) "" [] Hs); [|now split|congruence].
  apply Permutation_map.
  apply (fold_set_prop_perm _ (emitted (VObj k ps) "") []).
  now apply emitted_keys_NoDup.
Qed.

(** X15. For every tree on which Flatten then Unflatten is the identity
    (none of its keys is [__proto__], among the other conditions) and that
    JSON gives back as it is (no [undefined], no [NaN], infinity or [-0]),
    [init] with that tree returns, and the [dump] that follows returns a
    tree deep-equal to it, whatever the store held before. *)
Theorem init_then_dump (s : store) (t : value) :
  round_trippable t = true -> json_clean t = true ->
  snd (init s t) = Ret tt
  /\ exists d, dump (fst (init s t)) = Ret d /\ deep_equal d t = true.
Proof.
  unfold round_trippable. rewrite !andb_true_iff.
  intros [[[[[Ho Hp] Hnm] Hs] Ht] _] Hc.
  destruct t as [| | | | |k ps]; try discriminate.
  pose proof (recurse_clean k ps Hc) as Hflat.
  unfold init, flattenJsonWithEscaping.
  cbn [truthy typeof_object is_object negb orb bind].
  rewrite (json_roundtrip_clean _ _ Hflat). cbn [fst snd].
  split; [reflexivity|].
  unfold dump. cbn [jsonObject unflattenJson bind].
  destruct (unflatten_clean (recurse (VObj k ps) "" []) empty_object
              eq_refl eq_refl) as [Hr Hro].
  { cbn [json_clean kind_eqb andb] in Hflat.
    rewrite forallb_forall in Hflat. apply Forall_forall. exact Hflat. }
  destruct (fold_left unflatten_step (recurse (VObj k ps) "" []) empty_object)
    as [| | | | |kr pr] eqn:E; try discriminate.
  exists (VObj kr pr). split; [now apply json_roundtrip_clean|].
  rewrite <- E. now apply unflatten_recurse_deep_equal.
Qed.

Lemma init_then_dump_witness :
  round_trippable nestedData3 = true /\ json_clean nestedData3 = true
  /\ exists d, dump (fst (init search_fixture nestedData3)) = Ret d
               /\ deep_equal d nestedData3 = true.
Proof.
  split; [reflexivity|]. split; [reflexivity|].
  apply (init_then_dump search_fixture nestedData3); reflexivity.
Defined.

Lemma json_members_In (ps : props) key w :
  In (key, w) (json_members ps) -> In (key, w) ps /\ w <> VUndef.
Proof.
  induction ps as [|[k v] ps IH]; [contradiction|].
  destruct v; simpl;
    try (intros [E|H]; [inversion E; subst; split; [now left|discriminate]
                       | destruct (IH H); split; [now right|assumption]]).
  intros H. destruct (IH H). split; [now right|assumption].
Qed.

Lemma json_copy_leaf (w : value) :
  is_object w = false -> is_object (json_copy w) = false.
Proof.
  destruct w as [| | |n| |]; try reflexivity; [|discriminate].
  now destruct n.
Qed.

(** X16. After every [init] that returns, whatever it was given, the
    store's object is one level deep and free of [undefined]: a plain
    object none of whose values is an object or [undefined]. *)
Theorem init_leaves_flat_store (s : store) (obj : value) :
  snd (init s obj) = Ret tt ->
  exists flat,
    jsonObject (fst (init s obj)) = VObj KPlain flat
    /\ forall key w, In (key, w) flat ->
                     is_object w = false /\ w <> VUndef.
Proof.
  unfold init. set (o := if truthy obj then obj else empty_object).
  destruct (flattenJsonWithEscaping o) as [f|e] eqn:Ef; [|discriminate].
  unfold flattenJsonWithEscaping in Ef.
  destruct (negb (typeof_object o) || negb (is_object o)); [discriminate|].
  inversion Ef; subst f. clear Ef.
  cbn [bind json_roundtrip json_copy fst snd jsonObject]. intros _.
  eexists. split; [reflexivity|]. intros key w Hin.
  apply json_members_In in Hin. destruct Hin as [Hin Hw].
  apply in_map_iff in Hin. destruct Hin as [[k' c] [E Hin]].
  cbn [fst snd] in E. injection E as <- <-.
  apply (recurse_values o "" [] k' c) in Hin. destruct Hin as [Hin|[]].
  pose proof (emitted_values _ _ _ _ Hin) as Hc.
  split; [now apply json_copy_leaf | exact Hw].
Qed.

Lemma init_leaves_flat_store_witness :
  snd (init createJsonManager
         (object_of [("a", object_of [("b", VUndef); ("c", array_of [VNum 1])])]))
  = Ret tt
  /\ jsonObject
       (fst (init createJsonManager
               (object_of [("a", object_of [("b", VUndef);
                                            ("c", array_of [VNum 1])])])))
     = object_of [("a.c.0", VNum 1)].
Proof.
  split; [reflexivity|].
  destruct (init_leaves_flat_store createJsonManager
              (object_of [("a", object_of [("b", VUndef);
                                           ("c", array_of [VNum 1])])])
              eq_refl) as [flat [E _]].
  reflexivity.
Defined.



(** ** What [dump] leaves of the store's objects *)

Module HeapDump.
Import Heap.
Import HeapFacts.

Lemma parse_appends (t : value) (h : heap) :
  exists added, fst (parse h t) = (h ++ added)%list.
Proof.
  destruct (parse_region 0 t h) as [_ [_ H]]; [|lia|exact H].
  intros l key v _ _. destruct v; simpl; auto. lia.
Qed.

Lemma unflatten_loop_single (n : loc) (obj : hvalue) (keys : list string) :
  Forall (fun key => length (getKeys key) = 1) keys ->
  forall h0,
    let h' := fold_left
                (fun h fullKey =>
                   set_path h n (getKeys fullKey) (get_prop h obj fullKey))
                keys h0 in
    length h' = length h0
    /\ forall l, l <> n -> object_at h' l = object_at h0 l.
Proof.
  induction 1 as [|key keys Hk _ IH]; intros h0; [now split|].
  cbn [fold_left]. cbv zeta in IH |- *.
  destruct (getKeys key) as [|k [|k2 rest]]; try discriminate.
  cbn [set_path].
  destruct (IH (assign h0 n k (get_prop h0 obj key))) as [Hl Ho].
  split.
  - now rewrite Hl, length_assign.
  - intros l Hne. rewrite (Ho l Hne). now apply object_at_assign_other.
Qed.

(** X18. When every top-level key of the store's object tokenizes to a
    single segment (no unescaped dot in it), [dump] changes none of the
    objects there were before the call, whether it returns or raises. *)
Theorem dump_leaves_store_untouched (h : heap) (root : loc) :
  Forall (fun key => length (getKeys key) = 1)
         (keys_of (h_props (object_at h root))) ->
  forall l, l < length h ->
            object_at (fst (dump h (HRef root))) l = object_at h l.
Proof.
  intros Hk l Hl. unfold dump. cbn [unflattenJson alloc].
  destruct (unflatten_loop_single (length h) (HRef root) _ Hk
              (h ++ [empty_hobject])%list) as [Hlen Hobj].
  match type of Hlen with
  | length ?x = _ => set (h1 := x) in *
  end.
  assert (H1 : object_at h1 l = object_at h l).
  { rewrite (Hobj l) by lia. now apply object_at_app_l. }
  assert (Hl1 : l < length h1).
  { rewrite Hlen, length_app. simpl. lia. }
  destruct (stringify (S (length h1)) h1 [] (HRef (length h))) as [text|e];
    [|exact H1].
  assert (Hp : object_at (fst (parse h1 text)) l = object_at h l).
  { destruct (parse_appends text h1) as [added ->].
    now rewrite object_at_app_l. }
  destruct text; try exact H1;
    destruct (parse h1 _) as [h2 d]; exact Hp.
Qed.

Lemma dump_leaves_store_untouched_witness :
  object_at (fst (dump example_heap (HRef 0))) 1 = object_at example_heap 1.
Proof.
  apply (dump_leaves_store_untouched example_heap 0).
  - repeat constructor.
  - simpl. repeat constructor.
Defined.

End HeapDump.
